(** * atomicmail-username-checker: the check-and-retry engine of [check.js]

    A shallow embedding of [src/check.js]: the proxy rotator, the body
    reader, the transport-error test, the per-identifier attempt loop
    [checkUsername] and the fan-out of [run], followed by theorems about
    them.

    Conventions.
    - A JavaScript string is a [string]; one character stands for one
      UTF-16 code unit, so [String.length] is [.length] and [slice] counts
      the same units as [String.prototype.slice].
    - A JavaScript number that holds a counter is a [Z]; [js_incr] writes
      out what [x++] does on an IEEE-754 double.
    - An [async] function is a program of type [Prog]: a finite tree of
      synchronous operations and suspension points ([await]) that ends in
      a returned value or a thrown exception.  Programs are run either
      alone ([exec]) or interleaved with others ([run_pool]). *)

From Stdlib Require Import ZArith NArith List String Ascii Bool Lia.
From Stdlib Require Import Permutation DecimalString.
Import ListNotations.

Local Open Scope string_scope.
Local Open Scope Z_scope.

(** ** Constants (check.js, lines 9-13) *)

Definition CONCURRENCY : Z := 5.
Definition REQUEST_TIMEOUT_MS : Z := 15000.
Definition BASE_DELAY_MS : Z := 120.
Definition MIN_LEN : nat := 3.

(** ** JavaScript strings and numbers *)

(** [s.includes(sub)]: [sub] occurs in [s] at some position. *)
Fixpoint includes (s sub : string) : bool :=
  String.prefix sub s ||
  match s with
  | EmptyString => false
  | String _ rest => includes rest sub
  end.

(** [s.slice(0, n)] for a non-negative integer [n]: the first [n] code
    units of [s], or all of [s] when it is shorter. *)
Fixpoint slice0 (n : nat) (s : string) : string :=
  match n, s with
  | S n', String c rest => String c (slice0 n' rest)
  | _, _ => EmptyString
  end.

(** Decimal rendering of an integer inside a template literal. *)
Definition string_of_nat (n : nat) : string :=
  NilZero.string_of_uint (Nat.to_uint n).

Definition string_of_Z (z : Z) : string :=
  NilZero.string_of_int (Z.to_int z).

(** The largest integer a counter can reach by repeated [x++]: 2^53. *)
Definition JS_INCR_LIMIT : Z := 2 ^ 53.

(** [x++] on a double holding an integer [0 <= x <= 2^53].  Below 2^53
    the sum is exact; at 2^53 the sum 2^53 + 1 is not representable and
    rounds (to even) back to 2^53, so the counter stays where it is. *)
Definition js_incr (x : Z) : Z :=
  if x <? JS_INCR_LIMIT then x + 1 else x.

(** ** The proxy rotator (check.js, lines 61-72)

    [createProxyRotator] returns two closures over the captured array
    [proxies] and the captured counter [i]; the record holds what they
    capture. *)
Module Rotator.

Record t : Type := mk { proxies : list string; i : Z }.

Definition createProxyRotator (proxies : list string) : t :=
  mk proxies 0.

(** [proxies.length ? proxies[i % proxies.length] : null].  The counter
    starts at 0 and only grows, so [%] is the modulo of [Z]. *)
Definition at_cursor (r : t) : option string :=
  match proxies r with
  | [] => None
  | _ :: _ =>
      nth_error (proxies r)
                (Z.to_nat (i r mod Z.of_nat (List.length (proxies r))))
  end.

Definition current (r : t) : option string := at_cursor r.

(** [next] increments the captured counter, then reads like [current];
    the pair is the rotator afterwards and the returned value. *)
Definition next (r : t) : t * option string :=
  let r' := mk (proxies r) (js_incr (i r)) in
  (r', at_cursor r').

(** The rotator after [k] calls of [next]. *)
Definition next_times (k : N) (r : t) : t :=
  N.iter k (fun r0 => fst (next r0)) r.

End Rotator.

(** ** Remote responses and transport errors *)

(** What [checkUsername] reads of a [Response]: the status, the
    content-type header, and what the two body readers make of the body.
    [res_json] is [JSON.stringify(j)] for the value [j] that [res.json()]
    resolves to when that value is truthy, and [None] when [res.json()]
    rejects or resolves to a falsy value; [res_text] is the body as text,
    what [res.text()] resolves to while the body is unread, and [None]
    when the body cannot be read. *)
Record Response : Type := mkResponse {
  res_status : Z;
  res_content_type : option string;
  res_json : option string;
  res_text : option string
}.

(** [res.ok]: the status is in the range 200-299. *)
Definition res_ok (res : Response) : bool :=
  (200 <=? res_status res) && (res_status res <=? 299).

(** A thrown value, as far as the code looks at it: [err_message] is
    [String(err.message)] when [err?.message] is truthy and the empty
    string otherwise; [err_string] is [String(err)]. *)
Record JsError : Type := mkError {
  err_message : string;
  err_string : string
}.

(** How the promise of [fetch] settles. *)
Inductive FetchOutcome : Type :=
| Resolved (res : Response)
| Rejected (err : JsError).

(** check.js, lines 28-40. *)
Definition isProxyError (err : JsError) : bool :=
  let msg := match err_message err with
             | EmptyString => err_string err
             | m => m
             end in
  includes msg "ECONNRESET" ||
  includes msg "ETIMEDOUT" ||
  includes msg "ENOTFOUND" ||
  includes msg "EAI_AGAIN" ||
  includes msg "socket" ||
  includes msg "407" ||
  includes msg "fetch failed" ||
  includes msg "aborted".

(** ** Results *)

(** The object literal returned by [checkUsername]; an absent property is
    [None]. *)
Record CheckResult : Type := mkResult {
  username : string;
  status : string;
  code : option Z;
  detail : option string
}.

(** ** Asynchronous programs *)

(** Synchronous operations on the objects shared by the tasks of a run. *)
Inductive Op : Type :=
| RotatorNext                                   (* rotator.next() *)
| IncrAvailable                                 (* state.available++ *)
| IncrTaken                                     (* state.taken++ *)
| PushAvailable (name : string)                 (* availableList.push(name) *)
| PushTaken (name : string)                     (* takenList.push(name) *)
| PushInvalid (r : CheckResult)                 (* invalidList.push(r) *)
| PushError (r : CheckResult)                   (* errorList.push(r) *)
| WriteFileSync (file data : string)            (* fs.writeFileSync *)
| CreateWriteStream (file : string)             (* fs.createWriteStream *)
| StreamWrite (file data : string)              (* stream.write(data) *)
| StreamEnd (file : string)                     (* stream.end(r) *)
| ConsoleLog (msg : string)                     (* console.log *)
| ClearConsole.                                 (* clearConsole() *)

(** An [async] function body.  [Do] and [RotatorCurrent] run without
    giving up control; [AwaitFetch], [AwaitSleep] and [Yield] are the
    points where the task is suspended and other tasks may run. *)
Inductive Prog (A : Type) : Type :=
| Ret (a : A)
| Throw (e : JsError)
| Do (op : Op) (k : Prog A)
| RotatorCurrent (k : option string -> Prog A)
| AwaitFetch (name : string) (proxy : option string)
             (k : FetchOutcome -> Prog A)
| AwaitSleep (ms : Z) (k : Prog A)
| Yield (k : Prog A).

Arguments Ret {A} a.
Arguments Throw {A} e.
Arguments Do {A} op k.
Arguments RotatorCurrent {A} k.
Arguments AwaitFetch {A} name proxy k.
Arguments AwaitSleep {A} ms k.
Arguments Yield {A} k.

Fixpoint bind {A B : Type} (p : Prog A) (f : A -> Prog B) : Prog B :=
  match p with
  | Ret a => f a
  | Throw e => Throw e
  | Do op k => Do op (bind k f)
  | RotatorCurrent k => RotatorCurrent (fun x => bind (k x) f)
  | AwaitFetch name proxy k => AwaitFetch name proxy (fun o => bind (k o) f)
  | AwaitSleep ms k => AwaitSleep ms (bind k f)
  | Yield k => Yield (bind k f)
  end.

Declare Scope prog_scope.
Delimit Scope prog_scope with prog.
Notation "x <- p ;; q" := (bind p (fun x => q))
  (at level 61, p at next level, right associativity) : prog_scope.
Notation "p ;; q" := (bind p (fun _ => q))
  (at level 61, right associativity) : prog_scope.
Local Open Scope prog_scope.

(** [try { body } catch (err) { handler err }] *)
Fixpoint try_catch {A : Type} (body : Prog A) (handler : JsError -> Prog A)
  : Prog A :=
  match body with
  | Ret a => Ret a
  | Throw e => handler e
  | Do op k => Do op (try_catch k handler)
  | RotatorCurrent k => RotatorCurrent (fun x => try_catch (k x) handler)
  | AwaitFetch name proxy k =>
      AwaitFetch name proxy (fun o => try_catch (k o) handler)
  | AwaitSleep ms k => AwaitSleep ms (try_catch k handler)
  | Yield k => Yield (try_catch k handler)
  end.

(** [try { body } finally { fin }]: [fin] runs however [body] completes,
    and the completion of [body] stands unless [fin] itself throws. *)
Fixpoint try_finally {A : Type} (body : Prog A) (fin : Prog unit) : Prog A :=
  match body with
  | Ret a => fin ;; Ret a
  | Throw e => fin ;; Throw e
  | Do op k => Do op (try_finally k fin)
  | RotatorCurrent k => RotatorCurrent (fun x => try_finally (k x) fin)
  | AwaitFetch name proxy k =>
      AwaitFetch name proxy (fun o => try_finally (k o) fin)
  | AwaitSleep ms k => AwaitSleep ms (try_finally k fin)
  | Yield k => Yield (try_finally k fin)
  end.

(** [await sleep(ms)] (check.js, line 15). *)
Definition sleep (ms : Z) : Prog unit := AwaitSleep ms (Ret tt).

(** [await fetchCheck(username, proxyUrl)] (check.js, lines 42-59): one
    outbound call; a rejected promise is a thrown exception. *)
Definition fetchCheck (name : string) (proxyUrl : option string)
  : Prog Response :=
  AwaitFetch name proxyUrl
    (fun o => match o with
              | Resolved res => Ret res
              | Rejected err => Throw err
              end).

(** [await res.text().catch(() => "")]: the body as text, and the empty
    string when the promise rejects.  It rejects when the body cannot be
    read, and also when [used] says that [res.json()] has read the body
    before: a body can be read once. *)
Definition text_or_empty (used : bool) (res : Response) : Prog string :=
  Yield (Ret (if used then ""
              else match res_text res with
                   | Some s => s
                   | None => ""
                   end)).

(** [await safeReadBody(res)] (check.js, lines 74-82).  Both readers have
    a [.catch], so nothing is thrown.  On the first path [res.text()] is
    reached only after [res.json()] has read the body. *)
Definition safeReadBody (res : Response) : Prog string :=
  let ct := match res_content_type res with
            | Some s => s
            | None => ""
            end in
  if includes ct "application/json"
  then Yield (match res_json res with
              | Some s => Ret s
              | None => text_or_empty true res
              end)
  else text_or_empty false res.

(** ** checkUsername (check.js, lines 84-138) *)

(** How one pass through the loop body completes. *)
Inductive Completion : Type :=
| Continue
| Return (r : CheckResult).

(** Lines 96-123: the [try] block after the response has arrived. *)
Definition on_response (name : string) (res : Response) : Prog Completion :=
  if res_ok res then Ret (Return (mkResult name "available" None None))
  else if res_status res =? 409
  then Ret (Return (mkResult name "taken" None None))
  else if res_status res =? 429
  then Do RotatorNext (sleep 250 ;; Ret Continue)
  else if res_status res =? 400
  then body <- safeReadBody res ;;
       Ret (Return (mkResult name "invalid" (Some 400)
                             (Some (slice0 200 body))))
  else body <- safeReadBody res ;;
       Do RotatorNext
         (if (500 <=? res_status res) && (res_status res <=? 599)
          then sleep 200 ;; Ret Continue
          else Ret (Return (mkResult name "error" (Some (res_status res))
                                     (Some (slice0 200 body))))).

(** Lines 94-123: the [try] block. *)
Definition try_block (name : string) (proxy : option string)
  : Prog Completion :=
  res <- fetchCheck name proxy ;;
  on_response name res.

(** Lines 125-131: the [catch] block. *)
Definition catch_block (name : string) (err : JsError) : Prog Completion :=
  if isProxyError err
  then Do RotatorNext (sleep 200 ;; Ret Continue)
  else Ret (Return (mkResult name "error" None
                             (Some (slice0 200 (err_string err))))).

(** Lines 91-134: one pass through the body of the [for] loop. *)
Definition attempt (name : string) : Prog Completion :=
  RotatorCurrent (fun proxy =>
    try_finally
      (try_catch (try_block name proxy) (catch_block name))
      (sleep BASE_DELAY_MS)).

(** Lines 90-137: the loop with [remaining = maxTries - attempt] passes
    left, and the statement after it. *)
Fixpoint attempts (remaining : nat) (name : string) : Prog CheckResult :=
  match remaining with
  | O => Ret (mkResult name "error" None (Some "retry limit reached"))
  | S remaining' =>
      c <- attempt name ;;
      match c with
      | Return r => Ret r
      | Continue => attempts remaining' name
      end
  end.

Definition checkUsername (name : string) (maxTries : nat)
  : Prog CheckResult :=
  if (String.length name <? MIN_LEN)%nat
  then Ret (mkResult name "invalid" None
                     (Some ("min_length_" ++ string_of_nat MIN_LEN)))
  else attempts maxTries name.

(** ** The shared world and the execution of one program *)

(** What a settled suspension or a synchronous operation leaves in the
    history of a run. *)
Inductive Event : Type :=
| EvFetch (name : string) (proxy : option string)   (* one outbound call *)
| EvSleep (ms : Z)
| EvOp (op : Op).

(** The objects created by [run] and shared by its tasks: the rotator,
    the counters of [state], the four lists, and the history. *)
Record World : Type := mkWorld {
  rotator : Rotator.t;
  state_available : Z;
  state_taken : Z;
  availableList : list string;
  takenList : list string;
  invalidList : list CheckResult;
  errorList : list CheckResult;
  trace : list Event
}.

Definition log (e : Event) (w : World) : World :=
  mkWorld (rotator w) (state_available w) (state_taken w)
          (availableList w) (takenList w) (invalidList w) (errorList w)
          (trace w ++ [e]).

(** The effect of one synchronous operation, before it is logged. *)
Definition effect (op : Op) (w : World) : World :=
  match op with
  | RotatorNext =>
      mkWorld (fst (Rotator.next (rotator w)))
              (state_available w) (state_taken w)
              (availableList w) (takenList w) (invalidList w) (errorList w)
              (trace w)
  | IncrAvailable =>
      mkWorld (rotator w) (js_incr (state_available w)) (state_taken w)
              (availableList w) (takenList w) (invalidList w) (errorList w)
              (trace w)
  | IncrTaken =>
      mkWorld (rotator w) (state_available w) (js_incr (state_taken w))
              (availableList w) (takenList w) (invalidList w) (errorList w)
              (trace w)
  | PushAvailable name =>
      mkWorld (rotator w) (state_available w) (state_taken w)
              (availableList w ++ [name]) (takenList w)
              (invalidList w) (errorList w) (trace w)
  | PushTaken name =>
      mkWorld (rotator w) (state_available w) (state_taken w)
              (availableList w) (takenList w ++ [name])
              (invalidList w) (errorList w) (trace w)
  | PushInvalid r =>
      mkWorld (rotator w) (state_available w) (state_taken w)
              (availableList w) (takenList w)
              (invalidList w ++ [r]) (errorList w) (trace w)
  | PushError r =>
      mkWorld (rotator w) (state_available w) (state_taken w)
              (availableList w) (takenList w)
              (invalidList w) (errorList w ++ [r]) (trace w)
  | WriteFileSync _ _ | CreateWriteStream _ | StreamWrite _ _
  | StreamEnd _ | ConsoleLog _ | ClearConsole => w
  end.

Definition apply_op (op : Op) (w : World) : World :=
  log (EvOp op) (effect op w).

(** How a program ends: with a value, or with an exception that nothing
    caught. *)
Inductive Outcome (A : Type) : Type :=
| Returned (a : A)
| Thrown (e : JsError).

Arguments Returned {A} a.
Arguments Thrown {A} e.

(** Counters over a history. *)
Definition is_fetch (e : Event) : bool :=
  match e with EvFetch _ _ => true | _ => false end.

Definition is_next (e : Event) : bool :=
  match e with EvOp RotatorNext => true | _ => false end.

Definition fetch_calls (t : list Event) : nat :=
  List.length (filter is_fetch t).

Definition next_calls (t : list Event) : nat :=
  List.length (filter is_next t).

Section Exec.

(** The remote side: how the call for [name] through [proxy] settles,
    given everything that happened before it. *)
Variable net : list Event -> string -> option string -> FetchOutcome.

(** One program run to its end with nothing else running. *)
Fixpoint exec {A : Type} (p : Prog A) (w : World) : Outcome A * World :=
  match p with
  | Ret a => (Returned a, w)
  | Throw e => (Thrown e, w)
  | Do op k => exec k (apply_op op w)
  | RotatorCurrent k => exec (k (Rotator.current (rotator w))) w
  | AwaitFetch name proxy k =>
      exec (k (net (trace w) name proxy)) (log (EvFetch name proxy) w)
  | AwaitSleep ms k => exec k (log (EvSleep ms) w)
  | Yield k => exec k w
  end.

End Exec.

(** [maxTries] as [run] computes it (check.js, line 181):
    [Math.max(3, proxies.length ? proxies.length * 2 : 3)]. *)
Definition maxTries_of (proxies : list string) : nat :=
  Nat.max 3 (match List.length proxies with
             | O => 3
             | S _ => List.length proxies * 2
             end).

(** ** run (check.js, lines 156-247)

    The model starts after the two input files are read and parsed:
    [usernames] and [proxies] are the arrays of lines 160-161.  The title
    timer and the colours that chalk adds to console text are left out. *)

Definition nl : string := String (ascii_of_nat 10) EmptyString.

(** [x ?? ""] inside a template literal. *)
Definition or_empty (x : option string) : string :=
  match x with Some s => s | None => "" end.

(** [await p]: the caller resumes in a later turn than the one in which
    [p] settles. *)
Definition await {A : Type} (p : Prog A) : Prog A :=
  x <- p ;; Yield (Ret x).

(** Lines 197-226: the function handed to [limit] for one name. *)
Definition task (name : string) (maxTries : nat) : Prog unit :=
  r <- await (checkUsername name maxTries) ;;
  if (status r =? "available")%string
  then Do IncrAvailable
      (Do (PushAvailable name)
      (Do (StreamWrite "available.txt" (name ++ nl))
      (Do (ConsoleLog ("[+] Available: " ++ name))
      (Ret tt))))
  else if (status r =? "taken")%string
  then Do IncrTaken
      (Do (PushTaken name)
      (Do (StreamWrite "taken.txt" (name ++ nl))
      (Do (ConsoleLog ("[-] Taken: " ++ name))
      (Ret tt))))
  else if (status r =? "invalid")%string
  then Do (PushInvalid r)
      (Do (StreamWrite "invalid.txt"
             (name ++ " | " ++ or_empty (detail r) ++ nl))
      (Do (ConsoleLog ("[!] Invalid: " ++ name))
      (Ret tt)))
  else Do (PushError r)
      (Do (StreamWrite "errors.txt"
             (name ++ " | " ++ or_empty (option_map string_of_Z (code r))
                   ++ " | " ++ or_empty (detail r) ++ nl))
      (Do (ConsoleLog ("[~] Error: " ++ name))
      (Ret tt))).

(** [limit(fn)]: p-limit starts [fn] in a later turn of its choosing.
    Which turn is left to the scheduler of the pool below, which may pick
    any task that is not over; p-limit, whose code is not part of
    check.js, picks among fewer. *)
Definition limit {A : Type} (fn : Prog A) : Prog A := Yield fn.

(** Lines 168-177 and 191-193: what [run] does before the fan-out. *)
Definition prelude (usernames proxies : list string) : Prog unit :=
  Do (WriteFileSync "available.txt" "")
  (Do (WriteFileSync "taken.txt" "")
  (Do (WriteFileSync "invalid.txt" "")
  (Do (WriteFileSync "errors.txt" "")
  (Do (CreateWriteStream "available.txt")
  (Do (CreateWriteStream "taken.txt")
  (Do (CreateWriteStream "invalid.txt")
  (Do (CreateWriteStream "errors.txt")
  (Do ClearConsole
  (Do (ConsoleLog "AtomicMail Checker by coazy")
  (Do (ConsoleLog ("Usernames: " ++ string_of_nat (List.length usernames)
                   ++ " | Proxies: " ++ string_of_nat (List.length proxies)
                   ++ " | Concurrency: " ++ string_of_Z CONCURRENCY ++ nl))
  (Ret tt))))))))))).

(** A task is over when it has returned or thrown. *)
Definition finished {A : Type} (p : Prog A) : bool :=
  match p with
  | Ret _ | Throw _ => true
  | _ => false
  end.

Definition thrown {A : Type} (p : Prog A) : bool :=
  match p with
  | Throw _ => true
  | _ => false
  end.

(** The synchronous stretch at the head of a program: it runs up to the
    next suspension point or to the end. *)
Fixpoint run_sync {A : Type} (p : Prog A) (w : World) : Prog A * World :=
  match p with
  | Do op k => run_sync k (apply_op op w)
  | RotatorCurrent k => run_sync (k (Rotator.current (rotator w))) w
  | _ => (p, w)
  end.

Section Pool.

Variable net : list Event -> string -> option string -> FetchOutcome.

(** One turn of a task: what it waits for settles, and it runs on to
    its next suspension point. *)
Definition resume {A : Type} (p : Prog A) (w : World) : Prog A * World :=
  match p with
  | AwaitFetch name proxy k =>
      run_sync (k (net (trace w) name proxy)) (log (EvFetch name proxy) w)
  | AwaitSleep ms k => run_sync k (log (EvSleep ms) w)
  | Yield k => run_sync k w
  | _ => run_sync p w
  end.

(** Resume the [j]-th task that is not over yet. *)
Fixpoint resume_nth (j : nat) (pool : list (Prog unit)) (w : World)
  : list (Prog unit) * World :=
  match pool with
  | [] => ([], w)
  | p :: rest =>
      if finished p
      then let (rest', w') := resume_nth j rest w in (p :: rest', w')
      else match j with
           | O => let (p', w') := resume p w in (p' :: rest, w')
           | S j' =>
               let (rest', w') := resume_nth j' rest w in (p :: rest', w')
           end
  end.

Definition unfinished (pool : list (Prog unit)) : nat :=
  List.length (filter (fun p => negb (finished p)) pool).

(** The event loop: which task takes the next turn is up to the timers
    and the network; [sched] stands for that choice at turn [t]. *)
Variable sched : nat -> nat.

Definition pool_step (t : nat) (pool : list (Prog unit)) (w : World)
  : list (Prog unit) * World :=
  resume_nth (Nat.modulo (sched t) (unfinished pool)) pool w.

(** [Promise.all]: the tasks take turns until all have returned, or one
    has thrown (the rejection that ends [run]). *)
Fixpoint run_pool (fuel t : nat) (pool : list (Prog unit)) (w : World)
  : list (Prog unit) * World :=
  match fuel with
  | O => (pool, w)
  | S fuel' =>
      if existsb thrown pool then (pool, w)
      else let (pool', w') := pool_step t pool w in
           run_pool fuel' (S t) pool' w'
  end.

(** Lines 230-246: the end of the streams and the summary. *)
Definition epilogue (w : World) : Prog unit :=
  Do (StreamEnd "available.txt")
  (Do (StreamEnd "taken.txt")
  (Do (StreamEnd "invalid.txt")
  (Do (StreamEnd "errors.txt")
  (Do ClearConsole
  (Do (ConsoleLog "AtomicMail Checker by coazy")
  (Do (ConsoleLog "=====================================")
  (Do (ConsoleLog ("Available: " ++ string_of_Z (state_available w)))
  (Do (ConsoleLog ("Taken:     " ++ string_of_Z (state_taken w)))
  (Do (ConsoleLog ("Invalid:   "
                   ++ string_of_nat (List.length (invalidList w))))
  (Do (ConsoleLog ("Errors:    "
                   ++ string_of_nat (List.length (errorList w))))
  (Do (ConsoleLog ("=====================================" ++ nl))
  (Do (ConsoleLog
    "saved to available.txt / taken.txt / invalid.txt / errors.txt")
  (Ret tt))))))))))))).

(** The world in which [run] starts: a fresh rotator, [state] with both
    counters at 0, four empty lists. *)
Definition init_world (proxies : list string) : World :=
  mkWorld (Rotator.createProxyRotator proxies) 0 0 [] [] [] [] [].

(** Six turns per attempt and two around the loop are enough for a
    task, so this many turns let every task finish. *)
Definition turns (usernames proxies : list string) : nat :=
  List.length usernames * (6 * maxTries_of proxies + 2).

(** The pool of line 195-228 and the world after [Promise.all]. *)
Definition fan_out (usernames proxies : list string)
  : list (Prog unit) * World :=
  run_pool (turns usernames proxies) 0
           (map (fun name => limit (task name (maxTries_of proxies)))
                usernames)
           (snd (run_sync (prelude usernames proxies)
                          (init_world proxies))).

Definition run (usernames proxies : list string) : Outcome unit * World :=
  match usernames with
  | [] =>
      (Returned tt,
       apply_op (ConsoleLog "usernames.txt is empty") (init_world proxies))
  | _ :: _ =>
      let (pool, w) := fan_out usernames proxies in
      match find thrown pool with
      | Some (Throw e) => (Thrown e, w)
      | _ => (Returned tt, snd (run_sync (epilogue w) w))
      end
  end.

End Pool.

(** ** Kinds of outcome of one outbound call *)

Definition is_5xx (res : Response) : bool :=
  (500 <=? res_status res) && (res_status res <=? 599).

(** A status that is none of 2xx, 409, 429, 400 and 5xx. *)
Definition unexpected_status (res : Response) : bool :=
  negb (res_ok res) && negb (res_status res =? 409)
  && negb (res_status res =? 429) && negb (res_status res =? 400)
  && negb (is_5xx res).

(** The content type of the response says JSON: the test of line 77. *)
Definition json_typed (res : Response) : bool :=
  includes (match res_content_type res with
            | Some s => s
            | None => ""
            end) "application/json".

(** The body of the response as text, empty when it cannot be read. *)
Definition response_body (res : Response) : string :=
  match res_text res with
  | Some s => s
  | None => ""
  end.

(** The outcomes that settle the identifier as available, taken or
    invalid: a 2xx, 409 or 400 response. *)
Definition decisive (o : FetchOutcome) : bool :=
  match o with
  | Resolved res =>
      res_ok res || (res_status res =? 409) || (res_status res =? 400)
  | Rejected _ => false
  end.

(** The outcomes after which the loop goes round again: a 429 or 5xx
    response, or a transport error that [isProxyError] matches. *)
Definition retryable (o : FetchOutcome) : bool :=
  match o with
  | Resolved res => (res_status res =? 429) || is_5xx res
  | Rejected err => isProxyError err
  end.

(** The outcomes named as rotating the proxy: 429, 5xx, an unexpected
    status, or a matched transport error. *)
Definition rotating (o : FetchOutcome) : bool :=
  match o with
  | Resolved res =>
      (res_status res =? 429) || is_5xx res || unexpected_status res
  | Rejected err => isProxyError err
  end.

(** The four categories. *)
Definition is_category (s : string) : Prop :=
  s = "available" \/ s = "taken" \/ s = "invalid" \/ s = "error".

(** The names that have reached one of the four lists. *)
Definition accounted (w : World) : list string :=
  availableList w ++ takenList w
  ++ map username (invalidList w) ++ map username (errorList w).

(** Operations on the result files. *)
Definition touches_sink (e : Event) : bool :=
  match e with
  | EvOp (WriteFileSync _ _) | EvOp (CreateWriteStream _)
  | EvOp (StreamWrite _ _) | EvOp (StreamEnd _) => true
  | _ => false
  end.

(** The world once the call of a pass through the current proxy has
    settled. *)
Definition called (name : string) (w : World) : World :=
  log (EvFetch name (Rotator.current (rotator w))) w.

(** The back-off that follows the outcome, if any: 250 ms after a 429,
    200 ms after a 5xx or a matched transport error. *)
Definition backoff (o : FetchOutcome) : option Z :=
  match o with
  | Resolved res =>
      if res_status res =? 429 then Some 250
      else if is_5xx res then Some 200 else None
  | Rejected err => if isProxyError err then Some 200 else None
  end.

(** The world after a pass whose call settled with [o]: the call, the
    rotation if there is one, the back-off if there is one, and the
    pacing delay of the [finally] block. *)
Definition after_attempt (name : string) (o : FetchOutcome) (w : World)
  : World :=
  let w1 := called name w in
  let w2 := if rotating o then apply_op RotatorNext w1 else w1 in
  let w3 := match backoff o with
            | Some ms => log (EvSleep ms) w2
            | None => w2
            end in
  log (EvSleep BASE_DELAY_MS) w3.

(** The world at the start of pass [k] of the loop for [name] begun in
    [w], when the [k] passes before it all went round again, and the
    outcome of the call made in that pass. *)
Definition pass_world
           (net : list Event -> string -> option string -> FetchOutcome)
           (name : string) (k : nat) (w : World) : World :=
  Nat.iter k
    (fun w0 =>
       after_attempt name
         (net (trace w0) name (Rotator.current (rotator w0))) w0)
    w.

Definition pass_outcome
           (net : list Event -> string -> option string -> FetchOutcome)
           (name : string) (k : nat) (w : World) : FetchOutcome :=
  net (trace (pass_world net name k w)) name
      (Rotator.current (rotator (pass_world net name k w))).

(** A result about [name] in one of the four categories. *)
Definition about (name : string) (r : CheckResult) : Prop :=
  username r = name /\ is_category (status r).

Definition completion_about (name : string) (c : Completion) : Prop :=
  forall r, c = Return r -> about name r.

(** Two sets of exceptions: none, and all. *)
Definition no_error (e : JsError) : Prop := False.

Definition any_error (e : JsError) : Prop := True.

(** ** Tasks in a pool: what they may still do *)

(** The name an operation adds to one of the four lists, if it adds one. *)
Definition push_name (op : Op) : option string :=
  match op with
  | PushAvailable name | PushTaken name => Some name
  | PushInvalid r | PushError r => Some (username r)
  | _ => None
  end.

(** A task that waits for something. *)
Definition suspended {A : Type} (p : Prog A) : bool :=
  match p with
  | AwaitFetch _ _ _ | AwaitSleep _ _ | Yield _ => true
  | _ => false
  end.

(** [settles Q E n p]: whatever the answers to its calls, [p] is over
    within [n] turns, with a value in [Q] or an exception in [E], and
    adds nothing to the four lists on the way. *)
Inductive settles {A : Type} (Q : A -> Prop) (E : JsError -> Prop)
  : nat -> Prog A -> Prop :=
| settles_ret n a : Q a -> settles Q E n (Ret a)
| settles_throw n e : E e -> settles Q E n (Throw e)
| settles_do n op k :
    push_name op = None -> settles Q E n k -> settles Q E n (Do op k)
| settles_current n k :
    (forall x, settles Q E n (k x)) -> settles Q E n (RotatorCurrent k)
| settles_fetch n name proxy k :
    (forall o, settles Q E n (k o)) ->
    settles Q E (S n) (AwaitFetch name proxy k)
| settles_sleep n ms k :
    settles Q E n k -> settles Q E (S n) (AwaitSleep ms k)
| settles_yield n k :
    settles Q E n k -> settles Q E (S n) (Yield k).

(** [winds_up p]: [p] returns in the current turn and adds nothing to
    the four lists. *)
Inductive winds_up : Prog unit -> Prop :=
| winds_up_ret : winds_up (Ret tt)
| winds_up_do op k :
    push_name op = None -> winds_up k -> winds_up (Do op k).

(** [accounts name n p]: whatever the answers to its calls, [p] adds
    [name] to one of the four lists once, returns in the same turn, and
    does so within [n] turns. *)
Inductive accounts (name : string) : nat -> Prog unit -> Prop :=
| accounts_push n op k :
    push_name op = Some name -> winds_up k -> accounts name n (Do op k)
| accounts_do n op k :
    push_name op = None -> accounts name n k -> accounts name n (Do op k)
| accounts_current n k :
    (forall x, accounts name n (k x)) -> accounts name n (RotatorCurrent k)
| accounts_fetch n nm proxy k :
    (forall o, accounts name n (k o)) ->
    accounts name (S n) (AwaitFetch nm proxy k)
| accounts_sleep n ms k :
    accounts name n k -> accounts name (S n) (AwaitSleep ms k)
| accounts_yield n k :
    accounts name n k -> accounts name (S n) (Yield k).

(** [pool_inv pool pend b]: every task of [pool] has returned, or is
    suspended and still accounts for its name; [pend] lists the names of
    the latter and [b] bounds the turns they need together. *)
Inductive pool_inv : list (Prog unit) -> list string -> nat -> Prop :=
| pool_inv_nil : pool_inv [] [] 0
| pool_inv_done pool pend b :
    pool_inv pool pend b -> pool_inv (Ret tt :: pool) pend b
| pool_inv_wait p name n pool pend b :
    suspended p = true -> accounts name n p -> pool_inv pool pend b ->
    pool_inv (p :: pool) (name :: pend) (n + b).

(** ** Sample inputs *)

Module Samples.

Definition res_200 : Response := mkResponse 200 None None None.
Definition res_409 : Response := mkResponse 409 None None None.
Definition res_429 : Response := mkResponse 429 None None None.
Definition res_400 : Response :=
  mkResponse 400 (Some "application/json; charset=utf-8")
             (Some "{error:min}") None.

(** A timeout of [fetchCheck]: the abort of line 44. *)
Definition err_aborted : JsError :=
  mkError "This operation was aborted"
          "AbortError: This operation was aborted".


Definition always (o : FetchOutcome)
  : list Event -> string -> option string -> FetchOutcome :=
  fun _ _ _ => o.

(** 200 for "validname", 409 for every other name. *)
Definition net_by_name
  : list Event -> string -> option string -> FetchOutcome :=
  fun _ name _ =>
    if (name =? "validname")%string
    then Resolved res_200 else Resolved res_409.

(** 429 on the first three calls, 200 afterwards. *)
Definition net_rate_limited
  : list Event -> string -> option string -> FetchOutcome :=
  fun h _ _ =>
    if (fetch_calls h <? 3)%nat
    then Resolved res_429 else Resolved res_200.

Definition two_proxies : list string := ["http://a:1"; "http://b:2"].

Definition in_order : nat -> nat := fun t => t.

End Samples.

(** ** Reading the input files (check.js, lines 17-26 and 157-161) *)

(** The white space and line terminators that [String.prototype.trim]
    removes, among the code units below 256: tab, line feed, vertical
    tab, form feed, carriage return, space and no-break space. *)
Definition is_space (c : ascii) : bool :=
  let n := nat_of_ascii c in
  ((n =? 9) || (n =? 10) || (n =? 11) || (n =? 12) || (n =? 13)
   || (n =? 32) || (n =? 160))%nat.

Definition LF : ascii := ascii_of_nat 10.
Definition CR : ascii := ascii_of_nat 13.

(** [raw.split(/\r?\n/)]: the pieces between the line breaks, a line
    break being a line feed together with the carriage return right
    before it, if there is one.  There is always at least one piece. *)
Fixpoint split_lines (raw : string) : list string :=
  match raw with
  | EmptyString => [EmptyString]
  | String c rest =>
      if Ascii.eqb c LF then EmptyString :: split_lines rest
      else
        match rest with
        | String c' rest' =>
            if Ascii.eqb c CR && Ascii.eqb c' LF
            then EmptyString :: split_lines rest'
            else match split_lines rest with
                 | piece :: pieces => String c piece :: pieces
                 | [] => [String c EmptyString]
                 end
        | EmptyString => [String c EmptyString]
        end
  end.

(** [s.trimStart()] and [s.trimEnd()]. *)
Fixpoint trim_start (s : string) : string :=
  match s with
  | EmptyString => EmptyString
  | String c rest => if is_space c then trim_start rest else s
  end.

Fixpoint trim_end (s : string) : string :=
  match s with
  | EmptyString => EmptyString
  | String c rest =>
      match trim_end rest with
      | EmptyString => if is_space c then EmptyString
                       else String c EmptyString
      | kept => String c kept
      end
  end.

(** [s.trim()] *)
Definition trim (s : string) : string := trim_end (trim_start s).

(** [Boolean(s)] for a string: it is not empty. *)
Definition truthy (s : string) : bool :=
  match s with
  | EmptyString => false
  | String _ _ => true
  end.

(** check.js, lines 17-19. *)
Definition parseList (raw : string) : list string :=
  filter truthy (map trim (split_lines raw)).

(** Letters compared without regard to case, as the [i] flag does for
    the letters of "https". *)
Definition to_lower (c : ascii) : ascii :=
  let n := nat_of_ascii c in
  if ((65 <=? n) && (n <=? 90))%nat then ascii_of_nat (n + 32) else c.

Fixpoint prefix_ci (p s : string) : bool :=
  match p, s with
  | EmptyString, _ => true
  | String a p', String b s' =>
      Ascii.eqb (to_lower a) (to_lower b) && prefix_ci p' s'
  | String _ _, EmptyString => false
  end.

(** [/^https?:\/\//i.test(line)] *)
Definition has_scheme (line : string) : bool :=
  prefix_ci "http://" line || prefix_ci "https://" line.

(** The classes [\d] and [[\w.\-]]. *)
Definition is_digit (c : ascii) : bool :=
  let n := nat_of_ascii c in ((48 <=? n) && (n <=? 57))%nat.

Definition is_host_char (c : ascii) : bool :=
  let n := nat_of_ascii c in
  (((48 <=? n) && (n <=? 57)) || ((65 <=? n) && (n <=? 90))
   || ((97 <=? n) && (n <=? 122)) || (n =? 95) || (n =? 46) || (n =? 45))%nat.

(** [\d+$]: one digit or more, up to the end. *)
Fixpoint all_digits (s : string) : bool :=
  match s with
  | EmptyString => false
  | String c EmptyString => is_digit c
  | String c rest => is_digit c && all_digits rest
  end.

(** [[\w.\-]+:\d+$] from the current position; [seen] tells whether a
    character of the class has been read.  The class does not hold the
    colon, so the first colon ends the host. *)
Fixpoint host_port_from (seen : bool) (s : string) : bool :=
  match s with
  | EmptyString => false
  | String c rest =>
      if Ascii.eqb c ":" then seen && all_digits rest
      else if is_host_char c then host_port_from true rest
      else false
  end.

(** [/^[\w.\-]+:\d+$/.test(line)] *)
Definition is_host_port (line : string) : bool := host_port_from false line.

(** check.js, lines 21-26; [None] is [null]. *)
Definition normalizeProxy (line : string) : option string :=
  if negb (truthy line) then None
  else if has_scheme line then Some line
  else if is_host_port line then Some ("http://" ++ line)
  else Some ("http://" ++ line).

(** [x => Boolean(x)] on what [normalizeProxy] returns. *)
Definition truthy_proxy (x : option string) : bool :=
  match x with
  | Some s => truthy s
  | None => false
  end.

(** Line 161: [parseList(proxiesRaw).map(normalizeProxy).filter(Boolean)],
    the surviving entries being strings. *)
Definition load_proxies (proxiesRaw : string) : list string :=
  flat_map (fun x => match x with Some s => [s] | None => [] end)
           (filter truthy_proxy (map normalizeProxy (parseList proxiesRaw))).

(** Lines 157-161 followed by the rest of [run].  [usernames_txt] and
    [proxies_txt] are how the two [readFile] promises settle; a failed
    read of proxies.txt is replaced by the empty string, a failed read of
    usernames.txt is thrown by [run] before anything else happens. *)
Definition run_main
           (net : list Event -> string -> option string -> FetchOutcome)
           (sched : nat -> nat)
           (usernames_txt proxies_txt : Outcome string)
  : Outcome unit * World :=
  match usernames_txt with
  | Thrown e => (Thrown e, init_world [])
  | Returned usernamesRaw =>
      let proxiesRaw := match proxies_txt with
                        | Returned s => s
                        | Thrown _ => EmptyString
                        end in
      run net sched (parseList usernamesRaw) (load_proxies proxiesRaw)
  end.

(** ** Shapes of lines *)

(** [c] occurs in [s]. *)
Fixpoint has_char (c : ascii) (s : string) : bool :=
  match s with
  | EmptyString => false
  | String c' rest => Ascii.eqb c' c || has_char c rest
  end.

Definition starts_with_space (s : string) : bool :=
  match s with
  | EmptyString => false
  | String c _ => is_space c
  end.

Fixpoint ends_with_space (s : string) : bool :=
  match s with
  | EmptyString => false
  | String c EmptyString => is_space c
  | String _ rest => ends_with_space rest
  end.

(** Nothing but white space and line terminators. *)
Fixpoint all_space (s : string) : bool :=
  match s with
  | EmptyString => true
  | String c rest => is_space c && all_space rest
  end.

(** A line as [parseList] delivers it: not empty, no white space at
    either end, no line feed inside. *)
Definition clean_line (l : string) : Prop :=
  truthy l = true /\ starts_with_space l = false /\
  ends_with_space l = false /\ has_char LF l = false.

(** A line with "http://" put in front unless it has a scheme. *)
Definition with_scheme (line : string) : string :=
  if has_scheme line then line else "http://" ++ line.

(** The text that [isProxyError] inspects, [String(err?.message || err)],
    and the eight markers it looks for. *)
Definition inspected_message (err : JsError) : string :=
  match err_message err with
  | EmptyString => err_string err
  | m => m
  end.

Definition proxy_error_markers : list string :=
  ["ECONNRESET"; "ETIMEDOUT"; "ENOTFOUND"; "EAI_AGAIN"; "socket"; "407";
   "fetch failed"; "aborted"].

(** ** What a program may do, and how often it calls out *)

(** [within allowed Q E n p]: whatever the answers to its calls, [p]
    performs only operations in [allowed], makes at most [n] outbound
    calls, and ends with a value in [Q] or an exception in [E]. *)
Inductive within {A : Type} (allowed : Op -> Prop) (Q : A -> Prop)
          (E : JsError -> Prop) : nat -> Prog A -> Prop :=
| within_ret n a : Q a -> within allowed Q E n (Ret a)
| within_throw n e : E e -> within allowed Q E n (Throw e)
| within_do n op k :
    allowed op -> within allowed Q E n k -> within allowed Q E n (Do op k)
| within_current n k :
    (forall x, within allowed Q E n (k x)) ->
    within allowed Q E n (RotatorCurrent k)
| within_fetch n name proxy k :
    (forall o, within allowed Q E n (k o)) ->
    within allowed Q E (S n) (AwaitFetch name proxy k)
| within_sleep n ms k :
    within allowed Q E n k -> within allowed Q E n (AwaitSleep ms k)
| within_yield n k :
    within allowed Q E n k -> within allowed Q E n (Yield k).

(** The only operation of [checkUsername]. *)
Definition only_next (op : Op) : Prop := op = RotatorNext.

(** A detail of at most 200 characters. *)
Definition short_detail (d : option string) : Prop :=
  exists s, d = Some s /\ (String.length s <= 200)%nat.

(** The six shapes of the object that [checkUsername] returns. *)
Definition result_shape (r : CheckResult) : Prop :=
  (status r = "available" /\ code r = None /\ detail r = None) \/
  (status r = "taken" /\ code r = None /\ detail r = None) \/
  (status r = "invalid" /\ code r = None /\
   detail r = Some "min_length_3") \/
  (status r = "invalid" /\ code r = Some 400 /\ short_detail (detail r)) \/
  (status r = "error" /\ code r = None /\ short_detail (detail r)) \/
  (status r = "error" /\ short_detail (detail r) /\
   exists c, code r = Some c /\
             ~ 200 <= c <= 299 /\ c <> 409 /\ c <> 429 /\ c <> 400 /\
             ~ 500 <= c <= 599).

Definition good_result (name : string) (r : CheckResult) : Prop :=
  username r = name /\ result_shape r.

Definition good_completion (name : string) (c : Completion) : Prop :=
  forall r, c = Return r -> good_result name r.

(** The events of [checkUsername]: outbound calls, sleeps and rotations. *)
Definition check_event (e : Event) : bool :=
  match e with
  | EvFetch _ _ | EvSleep _ | EvOp RotatorNext => true
  | _ => false
  end.

(** [w'] differs from [w] by events of [checkUsername] only: the
    counters and the four lists are the same, the proxy array is the
    same, and the history has grown by calls, sleeps and rotations. *)
Definition only_checked (w w' : World) : Prop :=
  state_available w' = state_available w /\
  state_taken w' = state_taken w /\
  availableList w' = availableList w /\
  takenList w' = takenList w /\
  invalidList w' = invalidList w /\
  errorList w' = errorList w /\
  Rotator.proxies (rotator w') = Rotator.proxies (rotator w) /\
  exists t, trace w' = (trace w ++ t)%list /\ forallb check_event t = true.

(** The pacing delays of the [finally] block in a history. *)
Definition is_pacing (e : Event) : bool :=
  match e with
  | EvSleep ms => ms =? BASE_DELAY_MS
  | _ => false
  end.

Definition pacing_sleeps (t : list Event) : nat :=
  List.length (filter is_pacing t).

(** A call for [name] through one of [proxies], or direct when there
    are none. *)
Definition routed (name : string) (proxies : list string) (e : Event)
  : Prop :=
  match e with
  | EvFetch u (Some p) => u = name /\ In p proxies
  | EvFetch u None => u = name /\ proxies = []
  | _ => True
  end.

(** ** What holds between the turns of a run *)

(** Lines 200-225 on their own: what a task does with the result. *)
Definition bucket (name : string) (r : CheckResult) : Prog unit :=
  if (status r =? "available")%string
  then Do IncrAvailable
      (Do (PushAvailable name)
      (Do (StreamWrite "available.txt" (name ++ nl))
      (Do (ConsoleLog ("[+] Available: " ++ name))
      (Ret tt))))
  else if (status r =? "taken")%string
  then Do IncrTaken
      (Do (PushTaken name)
      (Do (StreamWrite "taken.txt" (name ++ nl))
      (Do (ConsoleLog ("[-] Taken: " ++ name))
      (Ret tt))))
  else if (status r =? "invalid")%string
  then Do (PushInvalid r)
      (Do (StreamWrite "invalid.txt"
             (name ++ " | " ++ or_empty (detail r) ++ nl))
      (Do (ConsoleLog ("[!] Invalid: " ++ name))
      (Ret tt)))
  else Do (PushError r)
      (Do (StreamWrite "errors.txt"
             (name ++ " | " ++ or_empty (option_map string_of_Z (code r))
                   ++ " | " ++ or_empty (detail r) ++ nl))
      (Do (ConsoleLog ("[~] Error: " ++ name))
      (Ret tt))).

(** [keeps I p w]: when [p] runs on from world [w], then [I] holds each
    time [p] gives up control and when it ends, provided [I] still holds
    each time [p] is resumed, whatever the other tasks did meanwhile. *)
Fixpoint keeps (I : World -> Prop) {A : Type} (p : Prog A) (w : World)
  : Prop :=
  match p with
  | Ret _ => I w
  | Throw _ => I w
  | Do op k => keeps I k (apply_op op w)
  | RotatorCurrent k => keeps I (k (Rotator.current (rotator w))) w
  | AwaitFetch name proxy k =>
      I w /\
      forall w' o, I w' -> keeps I (k o) (log (EvFetch name proxy) w')
  | AwaitSleep ms k =>
      I w /\ forall w', I w' -> keeps I k (log (EvSleep ms) w')
  | Yield k => I w /\ forall w', I w' -> keeps I k w'
  end.

(** The data written to the stream of [file], in the order of writing. *)
Fixpoint written (file : string) (t : list Event) : list string :=
  match t with
  | [] => []
  | EvOp (StreamWrite f data) :: rest =>
      if (f =? file)%string then data :: written file rest
      else written file rest
  | _ :: rest => written file rest
  end.

(** The lines of the four files, as lines 203, 211, 218 and 224 build
    them from a name or a result. *)
Definition name_line (name : string) : string := name ++ nl.

Definition invalid_line (r : CheckResult) : string :=
  username r ++ " | " ++ or_empty (detail r) ++ nl.

Definition error_line (r : CheckResult) : string :=
  username r ++ " | " ++ or_empty (option_map string_of_Z (code r))
             ++ " | " ++ or_empty (detail r) ++ nl.

(** A counter that has been incremented [n] times from 0. *)
Definition counted (n : nat) : Z := Z.min (Z.of_nat n) JS_INCR_LIMIT.

(** The counters, the files and the lists of a run agree. *)
Definition consistent (w : World) : Prop :=
  state_available w = counted (List.length (availableList w)) /\
  state_taken w = counted (List.length (takenList w)) /\
  written "available.txt" (trace w) = map name_line (availableList w) /\
  written "taken.txt" (trace w) = map name_line (takenList w) /\
  written "invalid.txt" (trace w) = map invalid_line (invalidList w) /\
  written "errors.txt" (trace w) = map error_line (errorList w) /\
  Forall (fun r => status r = "invalid") (invalidList w) /\
  Forall (fun r => status r = "error") (errorList w).

(** Any operation, value or exception. *)
Definition any_op (op : Op) : Prop := True.

Definition any_value {A : Type} (a : A) : Prop := True.

(** [pool_calls pool b]: the tasks of [pool] make at most [b] more
    outbound calls together. *)
Inductive pool_calls : list (Prog unit) -> nat -> Prop :=
| pool_calls_nil : pool_calls [] 0
| pool_calls_cons p n pool b :
    within any_op any_value any_error n p ->
    pool_calls pool b ->
    pool_calls (p :: pool) (n + b).

(** The calls a name may cost: none when it is too short. *)
Definition calls_for (maxTries : nat) (name : string) : nat :=
  if (String.length name <? MIN_LEN)%nat then 0 else maxTries.

(** The outbound calls made for the name [u] in a history. *)
Definition is_fetch_for (u : string) (e : Event) : bool :=
  match e with
  | EvFetch name _ => (name =? u)%string
  | _ => false
  end.

Definition calls_to (u : string) (t : list Event) : nat :=
  List.length (filter (is_fetch_for u) t).

(** [calls_le u n p]: whatever the answers to its calls, [p] makes at
    most [n] outbound calls for the name [u]. *)
Inductive calls_le {A : Type} (u : string) : nat -> Prog A -> Prop :=
| calls_le_ret n a : calls_le u n (Ret a)
| calls_le_throw n e : calls_le u n (Throw e)
| calls_le_do n op k : calls_le u n k -> calls_le u n (Do op k)
| calls_le_current n k :
    (forall x, calls_le u n (k x)) -> calls_le u n (RotatorCurrent k)
| calls_le_fetch n name proxy k :
    (forall o, calls_le u n (k o)) ->
    calls_le u (if (name =? u)%string then S n else n)
             (AwaitFetch name proxy k)
| calls_le_sleep n ms k : calls_le u n k -> calls_le u n (AwaitSleep ms k)
| calls_le_yield n k : calls_le u n k -> calls_le u n (Yield k).

(** [pool_calls_to u pool b]: the tasks of [pool] make at most [b] more
    outbound calls for [u] together. *)
Inductive pool_calls_to (u : string) : list (Prog unit) -> nat -> Prop :=
| pool_calls_to_nil : pool_calls_to u [] 0
| pool_calls_to_cons p n pool b :
    calls_le u n p ->
    pool_calls_to u pool b ->
    pool_calls_to u (p :: pool) (n + b).

(** The calls for [u] that the task of [name] may make: none unless
    [name] is [u]. *)
Definition calls_of (u : string) (maxTries : nat) (name : string) : nat :=
  if (name =? u)%string then calls_for maxTries name else 0.

(** The operations that change neither a counter, nor a list, nor what
    is written to a stream. *)
Definition neutral (op : Op) : bool :=
  match op with
  | RotatorNext | WriteFileSync _ _ | CreateWriteStream _ | StreamEnd _
  | ConsoleLog _ | ClearConsole => true
  | _ => false
  end.

(** Lines 169-177 as events: the four files reset, then opened. *)
Definition reset_events : list Event :=
  [EvOp (WriteFileSync "available.txt" "");
   EvOp (WriteFileSync "taken.txt" "");
   EvOp (WriteFileSync "invalid.txt" "");
   EvOp (WriteFileSync "errors.txt" "");
   EvOp (CreateWriteStream "available.txt");
   EvOp (CreateWriteStream "taken.txt");
   EvOp (CreateWriteStream "invalid.txt");
   EvOp (CreateWriteStream "errors.txt")].

(** A history that begins with [reset_events]. *)
Definition reset_first (w : World) : Prop :=
  exists t, trace w = (reset_events ++ t)%list.

(** More sample inputs. *)
Module MoreSamples.

Definition lf : string := String LF EmptyString.

(** A usernames.txt of blank lines. *)
Definition blank_file : string :=
  String " " (String LF (String CR (String LF (String " " EmptyString)))).

Definition two_lines : list string := ["alice"; "bob smith"].

(** A 400 whose JSON body is written with a space that
    [JSON.stringify] does not write back; one whose body is not JSON
    although the content type says so; one of plain text. *)
Definition res_400_spaced : Response :=
  mkResponse 400 (Some "application/json") (Some "[1,2]") (Some "[1, 2]").

Definition res_400_unparsable : Response :=
  mkResponse 400 (Some "application/json") None (Some "nope").

Definition res_400_text : Response :=
  mkResponse 400 (Some "text/plain") None (Some "bad request").



End MoreSamples.

(* ================================================================== *)
(** * Lemmas *)
(* ================================================================== *)

(** ** Strings and counters *)

Lemma slice0_length (n : nat) (s : string) :
  String.length (slice0 n s) = Nat.min n (String.length s).
Proof.
  revert s; induction n as [|n IH]; intros [|c s]; simpl; auto.
Qed.


Lemma js_incr_range (x : Z) :
  0 <= x <= JS_INCR_LIMIT -> 0 <= js_incr x <= JS_INCR_LIMIT.
Proof.
  unfold js_incr; intros H.
  destruct (Z.ltb_spec x JS_INCR_LIMIT); lia.
Qed.

(** ** The rotator *)

Lemma next_proxies (r : Rotator.t) :
  Rotator.proxies (fst (Rotator.next r)) = Rotator.proxies r.
Proof. reflexivity. Qed.

Lemma next_times_succ (k : N) (r : Rotator.t) :
  Rotator.next_times (N.succ k) r
  = fst (Rotator.next (Rotator.next_times k r)).
Proof. unfold Rotator.next_times; now rewrite N.iter_succ. Qed.

Lemma next_times_proxies (k : N) (r : Rotator.t) :
  Rotator.proxies (Rotator.next_times k r) = Rotator.proxies r.
Proof.
  induction k as [|k IH] using N.peano_ind; [reflexivity|].
  now rewrite next_times_succ, next_proxies.
Qed.

(** After [k] calls the counter of a fresh rotator holds [k], up to the
    point where [x++] stops counting. *)
Lemma next_times_cursor (k : N) (proxies : list string) :
  Rotator.i (Rotator.next_times k (Rotator.createProxyRotator proxies))
  = Z.min (Z.of_N k) JS_INCR_LIMIT.
Proof.
  induction k as [|k IH] using N.peano_ind; [reflexivity|].
  rewrite next_times_succ; simpl; rewrite IH.
  unfold js_incr, JS_INCR_LIMIT in *.
  destruct (Z.ltb_spec (Z.min (Z.of_N k) (2 ^ 53)) (2 ^ 53)); lia.
Qed.

Lemma at_cursor_index (r : Rotator.t) :
  Rotator.proxies r <> [] ->
  0 <= Rotator.i r ->
  Rotator.at_cursor r
  = nth_error (Rotator.proxies r)
      (Z.to_nat (Rotator.i r mod Z.of_nat (List.length (Rotator.proxies r)))).
Proof.
  unfold Rotator.at_cursor; destruct (Rotator.proxies r); [congruence|auto].
Qed.

(** ** Running programs *)

Section ExecFacts.

Variable net : list Event -> string -> option string -> FetchOutcome.

Lemma exec_bind {A B : Type} (p : Prog A) (f : A -> Prog B) (w : World) :
  exec net (bind p f) w
  = match exec net p w with
    | (Returned a, w') => exec net (f a) w'
    | (Thrown e, w') => (Thrown e, w')
    end.
Proof.
  revert w; induction p; intros w; simpl; auto.
Qed.

Lemma exec_try_catch {A : Type} (p : Prog A) (h : JsError -> Prog A)
      (w : World) :
  exec net (try_catch p h) w
  = match exec net p w with
    | (Returned a, w') => (Returned a, w')
    | (Thrown e, w') => exec net (h e) w'
    end.
Proof.
  revert w; induction p; intros w; simpl; auto.
Qed.

Lemma exec_try_finally {A : Type} (p : Prog A) (fin : Prog unit)
      (w : World) :
  exec net (try_finally p fin) w
  = match exec net p w with
    | (Returned a, w') =>
        match exec net fin w' with
        | (Returned _, w'') => (Returned a, w'')
        | (Thrown e, w'') => (Thrown e, w'')
        end
    | (Thrown e, w') =>
        match exec net fin w' with
        | (Returned _, w'') => (Thrown e, w'')
        | (Thrown e', w'') => (Thrown e', w'')
        end
    end.
Proof.
  revert w; induction p; intros w; simpl; auto;
    rewrite exec_bind; destruct (exec net fin w) as [[u|e'] w']; auto.
Qed.

End ExecFacts.

(** Running a program alone is taking its turns one after the other. *)
Lemma exec_run_sync
      (net : list Event -> string -> option string -> FetchOutcome)
      {A : Type} (p : Prog A) (w : World) :
  exec net p w = exec net (fst (run_sync p w)) (snd (run_sync p w)).
Proof.
  revert w; induction p; intros w; simpl; auto.
Qed.

Lemma exec_resume
      (net : list Event -> string -> option string -> FetchOutcome)
      {A : Type} (p : Prog A) (w : World) :
  exec net p w = exec net (fst (resume net p w)) (snd (resume net p w)).
Proof.
  destruct p; simpl; try reflexivity; apply exec_run_sync.
Qed.

(** The body reader returns a string that depends on the response only;
    it throws nothing and changes nothing. *)
Lemma safeReadBody_returns (res : Response) :
  exists body, forall net w,
    exec net (safeReadBody res) w = (Returned body, w).
Proof.
  unfold safeReadBody, text_or_empty.
  destruct (includes _ _); simpl; [destruct (res_json res)|]; simpl; eauto.
Qed.

(** What the body reader returns: the body as text when the content
    type does not say JSON, the re-serialised value when it does and the
    body parses to a truthy value. *)
Lemma safeReadBody_cases (res : Response) :
  exists body,
    (forall net w, exec net (safeReadBody res) w = (Returned body, w)) /\
    (json_typed res = false -> body = response_body res) /\
    (forall s, json_typed res = true -> res_json res = Some s -> body = s).
Proof.
  unfold safeReadBody, text_or_empty, json_typed, response_body.
  destruct (includes _ _); [destruct (res_json res)|]; simpl;
    eexists; (split; [reflexivity|]); split;
    try discriminate; try reflexivity; intros; congruence.
Qed.


(** ** One pass through the loop body *)

Section AttemptFacts.

Variable net : list Event -> string -> option string -> FetchOutcome.
Variable name : string.
Variable w : World.

(** The pass up to the arrival of the outcome. *)
Lemma exec_attempt_outcome :
  exec net (attempt name) w
  = match net (trace w) name (Rotator.current (rotator w)) with
    | Resolved res =>
        exec net (try_finally
                    (try_catch (on_response name res) (catch_block name))
                    (sleep BASE_DELAY_MS)) (called name w)
    | Rejected err =>
        exec net (try_finally (catch_block name err)
                              (sleep BASE_DELAY_MS)) (called name w)
    end.
Proof.
  unfold attempt, try_block, fetchCheck, called; simpl.
  destruct (net (trace w) name _); reflexivity.
Qed.

Lemma attempt_available (res : Response) :
  net (trace w) name (Rotator.current (rotator w)) = Resolved res ->
  res_ok res = true ->
  exec net (attempt name) w
  = (Returned (Return (mkResult name "available" None None)),
     log (EvSleep BASE_DELAY_MS) (called name w)).
Proof.
  intros Hnet Hok; rewrite exec_attempt_outcome, Hnet.
  unfold on_response; rewrite Hok; reflexivity.
Qed.

Lemma attempt_taken (res : Response) :
  net (trace w) name (Rotator.current (rotator w)) = Resolved res ->
  res_status res = 409 ->
  exec net (attempt name) w
  = (Returned (Return (mkResult name "taken" None None)),
     log (EvSleep BASE_DELAY_MS) (called name w)).
Proof.
  intros Hnet Hst; rewrite exec_attempt_outcome, Hnet.
  unfold on_response, res_ok; rewrite Hst; reflexivity.
Qed.

Lemma attempt_rate_limited (res : Response) :
  net (trace w) name (Rotator.current (rotator w)) = Resolved res ->
  res_status res = 429 ->
  exec net (attempt name) w
  = (Returned Continue,
     log (EvSleep BASE_DELAY_MS)
         (log (EvSleep 250) (apply_op RotatorNext (called name w)))).
Proof.
  intros Hnet Hst; rewrite exec_attempt_outcome, Hnet.
  unfold on_response, res_ok; rewrite Hst; reflexivity.
Qed.

Lemma attempt_invalid (res : Response) (body : string) :
  net (trace w) name (Rotator.current (rotator w)) = Resolved res ->
  res_status res = 400 ->
  (forall net0 w0, exec net0 (safeReadBody res) w0 = (Returned body, w0)) ->
  exec net (attempt name) w
  = (Returned (Return (mkResult name "invalid" (Some 400)
                                (Some (slice0 200 body)))),
     log (EvSleep BASE_DELAY_MS) (called name w)).
Proof.
  intros Hnet Hst Hbody; rewrite exec_attempt_outcome, Hnet.
  unfold on_response, res_ok; rewrite Hst; simpl.
  now rewrite exec_try_finally, exec_try_catch, exec_bind, Hbody.
Qed.

Lemma attempt_server_error (res : Response) :
  net (trace w) name (Rotator.current (rotator w)) = Resolved res ->
  is_5xx res = true ->
  exec net (attempt name) w
  = (Returned Continue,
     log (EvSleep BASE_DELAY_MS)
         (log (EvSleep 200) (apply_op RotatorNext (called name w)))).
Proof.
  intros Hnet H5; rewrite exec_attempt_outcome, Hnet.
  destruct (safeReadBody_returns res) as [body Hbody].
  assert (Hs : 500 <= res_status res <= 599)
    by (unfold is_5xx in H5; lia).
  unfold on_response, res_ok; fold (is_5xx res); rewrite H5.
  replace (_ && (res_status res <=? 299)) with false by lia.
  replace (res_status res =? 409) with false by lia.
  replace (res_status res =? 429) with false by lia.
  replace (res_status res =? 400) with false by lia.
  now rewrite exec_try_finally, exec_try_catch, exec_bind, Hbody.
Qed.

Lemma attempt_unexpected (res : Response) (body : string) :
  net (trace w) name (Rotator.current (rotator w)) = Resolved res ->
  unexpected_status res = true ->
  (forall net0 w0, exec net0 (safeReadBody res) w0 = (Returned body, w0)) ->
  exec net (attempt name) w
  = (Returned (Return (mkResult name "error" (Some (res_status res))
                                (Some (slice0 200 body)))),
     log (EvSleep BASE_DELAY_MS) (apply_op RotatorNext (called name w))).
Proof.
  intros Hnet Hun Hbody; rewrite exec_attempt_outcome, Hnet.
  unfold unexpected_status in Hun.
  repeat (apply andb_prop in Hun; destruct Hun as [Hun ?]).
  unfold on_response; fold (is_5xx res).
  repeat match goal with
         | H : negb ?b = true |- _ =>
             apply negb_true_iff in H; rewrite H
         end.
  now rewrite exec_try_finally, exec_try_catch, exec_bind, Hbody.
Qed.

Lemma attempt_proxy_error (err : JsError) :
  net (trace w) name (Rotator.current (rotator w)) = Rejected err ->
  isProxyError err = true ->
  exec net (attempt name) w
  = (Returned Continue,
     log (EvSleep BASE_DELAY_MS)
         (log (EvSleep 200) (apply_op RotatorNext (called name w)))).
Proof.
  intros Hnet Hp; rewrite exec_attempt_outcome, Hnet.
  unfold catch_block; rewrite Hp; reflexivity.
Qed.

Lemma attempt_other_error (err : JsError) :
  net (trace w) name (Rotator.current (rotator w)) = Rejected err ->
  isProxyError err = false ->
  exec net (attempt name) w
  = (Returned (Return (mkResult name "error" None
                                (Some (slice0 200 (err_string err))))),
     log (EvSleep BASE_DELAY_MS) (called name w)).
Proof.
  intros Hnet Hp; rewrite exec_attempt_outcome, Hnet.
  unfold catch_block; rewrite Hp; reflexivity.
Qed.

End AttemptFacts.

(** ** The shape of every pass *)

Lemma status_cases (res : Response) :
  res_ok res = true
  \/ (res_ok res = false /\ res_status res = 409)
  \/ (res_ok res = false /\ res_status res = 429)
  \/ (res_ok res = false /\ res_status res = 400)
  \/ (res_ok res = false /\ is_5xx res = true)
  \/ unexpected_status res = true.
Proof.
  unfold unexpected_status, is_5xx, res_ok.
  destruct (Z.eq_dec (res_status res) 409) as [->|];
    [right; left; split; reflexivity|].
  destruct (Z.eq_dec (res_status res) 429) as [->|];
    [right; right; left; split; reflexivity|].
  destruct (Z.eq_dec (res_status res) 400) as [->|];
    [right; right; right; left; split; reflexivity|].
  destruct (Z_le_dec 200 (res_status res));
    destruct (Z_le_dec (res_status res) 299);
    destruct (Z_le_dec 500 (res_status res));
    destruct (Z_le_dec (res_status res) 599); try lia;
    try (left; lia);
    try (right; right; right; right; left; lia);
    right; right; right; right; right; lia.
Qed.

Section AttemptShape.

Variable net : list Event -> string -> option string -> FetchOutcome.

(** Every pass makes one call and completes normally, in the world
    [after_attempt]; it goes round again exactly on a retryable
    outcome, and a result it returns is about [name] and in one of the
    four categories. *)
Lemma attempt_shape (name : string) (w : World) :
  let o := net (trace w) name (Rotator.current (rotator w)) in
  exists c,
    exec net (attempt name) w = (Returned c, after_attempt name o w) /\
    (c = Continue <-> retryable o = true) /\
    (forall r, c = Return r -> username r = name /\ is_category (status r)).
Proof.
  intros o; unfold after_attempt; fold o.
  destruct o as [res|err] eqn:Ho; subst o.
  - destruct (safeReadBody_returns res) as [body Hbody].
    destruct (status_cases res)
      as [Hok|[[Hok Hs]|[[Hok Hs]|[[Hok Hs]|[[Hok H5]|Hun]]]]].
    + rewrite (attempt_available _ _ _ _ Ho Hok).
      assert (Hr : 200 <= res_status res <= 299)
        by (unfold res_ok in Hok; lia).
      eexists; split; [|split].
      * unfold rotating, backoff, unexpected_status, is_5xx; rewrite Hok.
        replace (res_status res =? 429) with false by lia.
        replace ((500 <=? res_status res) && _) with false by lia.
        reflexivity.
      * unfold retryable, is_5xx; split; [discriminate|lia].
      * intros r [= <-]; unfold is_category; simpl; auto.
    + rewrite (attempt_taken _ _ _ _ Ho Hs).
      eexists; split; [|split].
      * unfold rotating, backoff, unexpected_status, is_5xx;
          rewrite Hok, Hs; reflexivity.
      * unfold retryable, is_5xx; rewrite Hs; split; discriminate.
      * intros r [= <-]; unfold is_category; simpl; auto.
    + rewrite (attempt_rate_limited _ _ _ _ Ho Hs).
      eexists; split; [|split].
      * unfold rotating, backoff; rewrite Hs; reflexivity.
      * unfold retryable; rewrite Hs; split; reflexivity.
      * discriminate.
    + rewrite (attempt_invalid _ _ _ _ body Ho Hs Hbody).
      eexists; split; [|split].
      * unfold rotating, backoff, unexpected_status, is_5xx;
          rewrite Hok, Hs; reflexivity.
      * unfold retryable, is_5xx; rewrite Hs; split; discriminate.
      * intros r [= <-]; unfold is_category; simpl; auto.
    + rewrite (attempt_server_error _ _ _ _ Ho H5).
      assert (Hr : 500 <= res_status res <= 599)
        by (unfold is_5xx in H5; lia).
      eexists; split; [|split].
      * unfold rotating, backoff; rewrite H5.
        replace (res_status res =? 429) with false by lia.
        reflexivity.
      * unfold retryable; rewrite H5, orb_true_r; split; reflexivity.
      * discriminate.
    + rewrite (attempt_unexpected _ _ _ _ body Ho Hun Hbody).
      eexists; split; [|split].
      * unfold rotating, backoff; rewrite Hun, orb_true_r.
        unfold unexpected_status in Hun.
        replace (res_status res =? 429) with false by lia.
        replace (is_5xx res) with false by (unfold is_5xx in *; lia).
        reflexivity.
      * unfold retryable.
        unfold unexpected_status in Hun.
        replace (res_status res =? 429) with false by lia.
        replace (is_5xx res) with false by (unfold is_5xx in *; lia).
        split; discriminate.
      * intros r [= <-]; unfold is_category; simpl; auto.
  - destruct (isProxyError err) eqn:Hp.
    + rewrite (attempt_proxy_error _ _ _ _ Ho Hp).
      eexists; split; [|split].
      * unfold rotating, backoff; rewrite Hp; reflexivity.
      * unfold retryable; rewrite Hp; split; reflexivity.
      * discriminate.
    + rewrite (attempt_other_error _ _ _ _ Ho Hp).
      eexists; split; [|split].
      * unfold rotating, backoff; rewrite Hp; reflexivity.
      * unfold retryable; rewrite Hp; split; discriminate.
      * intros r [= <-]; unfold is_category; simpl; auto.
Qed.

End AttemptShape.

(** ** What a pass leaves in the world *)

Lemma fetch_calls_snoc (t : list Event) (e : Event) :
  fetch_calls (t ++ [e])
  = (fetch_calls t + (if is_fetch e then 1 else 0))%nat.
Proof.
  unfold fetch_calls; rewrite filter_app, length_app; simpl.
  destruct (is_fetch e); reflexivity.
Qed.

Lemma next_calls_snoc (t : list Event) (e : Event) :
  next_calls (t ++ [e])
  = (next_calls t + (if is_next e then 1 else 0))%nat.
Proof.
  unfold next_calls; rewrite filter_app, length_app; simpl.
  destruct (is_next e); reflexivity.
Qed.

Lemma after_attempt_fetch_calls (name : string) (o : FetchOutcome)
      (w : World) :
  fetch_calls (trace (after_attempt name o w)) = S (fetch_calls (trace w)).
Proof.
  unfold after_attempt.
  destruct (rotating o), (backoff o); simpl;
    repeat rewrite fetch_calls_snoc; simpl; lia.
Qed.

Lemma after_attempt_next_calls (name : string) (o : FetchOutcome)
      (w : World) :
  next_calls (trace (after_attempt name o w))
  = (next_calls (trace w) + (if rotating o then 1 else 0))%nat.
Proof.
  unfold after_attempt.
  destruct (rotating o), (backoff o); simpl;
    repeat rewrite next_calls_snoc; simpl; lia.
Qed.

Lemma after_attempt_rotator (name : string) (o : FetchOutcome) (w : World) :
  rotator (after_attempt name o w)
  = if rotating o then fst (Rotator.next (rotator w)) else rotator w.
Proof.
  unfold after_attempt.
  destruct (rotating o), (backoff o); reflexivity.
Qed.

Lemma after_attempt_accounted (name : string) (o : FetchOutcome)
      (w : World) :
  accounted (after_attempt name o w) = accounted w.
Proof.
  unfold after_attempt.
  destruct (rotating o), (backoff o); reflexivity.
Qed.

(** ** The loop *)

Section LoopFacts.

Variable net : list Event -> string -> option string -> FetchOutcome.
Variable name : string.

Lemma exec_attempts_succ (n : nat) (w : World) :
  exec net (attempts (S n) name) w
  = match exec net (attempt name) w with
    | (Returned (Return r), w') => (Returned r, w')
    | (Returned Continue, w') => exec net (attempts n name) w'
    | (Thrown e, w') => (Thrown e, w')
    end.
Proof.
  cbn [attempts]; rewrite exec_bind.
  destruct (exec net (attempt name) w) as [[[|r]|e] w']; reflexivity.
Qed.

(** A pass that returns ends the loop with that result. *)
Lemma attempts_return (n : nat) (w w' : World) (r : CheckResult) :
  exec net (attempt name) w = (Returned (Return r), w') ->
  exec net (attempts (S n) name) w = (Returned r, w').
Proof. intros H; now rewrite exec_attempts_succ, H. Qed.

(** A pass that continues hands over to the remaining passes. *)
Lemma attempts_continue (n : nat) (w w' : World) :
  exec net (attempt name) w = (Returned Continue, w') ->
  exec net (attempts (S n) name) w = exec net (attempts n name) w'.
Proof. intros H; now rewrite exec_attempts_succ, H. Qed.

(** The loop always returns a result about [name] in one of the four
    categories, after at most [n] calls. *)
Lemma attempts_returns (n : nat) (w : World) :
  exists r w',
    exec net (attempts n name) w = (Returned r, w') /\
    username r = name /\ is_category (status r) /\
    (fetch_calls (trace w) <= fetch_calls (trace w')
     <= fetch_calls (trace w) + n)%nat.
Proof.
  revert w; induction n as [|n IH]; intros w.
  - simpl; do 2 eexists; split; [reflexivity|].
    unfold is_category; simpl; repeat split; auto; lia.
  - destruct (attempt_shape net name w) as [c [Hc [_ Hr]]].
    pose proof (after_attempt_fetch_calls name
      (net (trace w) name (Rotator.current (rotator w))) w) as Hf.
    destruct c as [|r].
    + rewrite (attempts_continue _ _ _ Hc).
      destruct (IH (after_attempt name
        (net (trace w) name (Rotator.current (rotator w))) w))
        as [r [w' [He [Hu [Hs Hn]]]]].
      exists r, w'; repeat split; auto; lia.
    + rewrite (attempts_return _ _ _ _ Hc).
      destruct (Hr r eq_refl) as [Hu Hs].
      do 2 eexists; split; [reflexivity|]; repeat split; auto; lia.
Qed.

Lemma pass_world_succ (k : nat) (w : World) :
  pass_world net name (S k) w
  = pass_world net name k
      (after_attempt name
         (net (trace w) name (Rotator.current (rotator w))) w).
Proof. unfold pass_world; now rewrite Nat.iter_succ_r. Qed.

Lemma pass_world_fetch_calls (k : nat) (w : World) :
  fetch_calls (trace (pass_world net name k w))
  = (fetch_calls (trace w) + k)%nat.
Proof.
  induction k as [|k IH]; [simpl; lia|].
  unfold pass_world in *; rewrite Nat.iter_succ.
  rewrite after_attempt_fetch_calls, IH; lia.
Qed.

(** When each of the [n] passes meets a retryable outcome, the loop
    makes them all and falls through. *)
Lemma attempts_exhausted (n : nat) (w : World) :
  (forall k, (k < n)%nat -> retryable (pass_outcome net name k w) = true) ->
  exec net (attempts n name) w
  = (Returned (mkResult name "error" None (Some "retry limit reached")),
     pass_world net name n w).
Proof.
  revert w; induction n as [|n IH]; intros w Hretry; [reflexivity|].
  destruct (attempt_shape net name w) as [c [Hc [Hcont _]]].
  assert (c = Continue) as ->
    by (apply Hcont, (Hretry 0%nat); lia).
  rewrite (attempts_continue _ _ _ Hc), pass_world_succ.
  apply IH; intros k Hk.
  unfold pass_outcome; rewrite <- pass_world_succ.
  apply (Hretry (S k)); lia.
Qed.

Lemma checkUsername_long (maxTries : nat) :
  (MIN_LEN <= String.length name)%nat ->
  checkUsername name maxTries = attempts maxTries name.
Proof.
  intros H; unfold checkUsername.
  destruct (Nat.ltb_spec (String.length name) MIN_LEN); [lia|reflexivity].
Qed.

Lemma checkUsername_short (maxTries : nat) :
  (String.length name < MIN_LEN)%nat ->
  checkUsername name maxTries
  = Ret (mkResult name "invalid" None (Some "min_length_3")).
Proof.
  intros H; unfold checkUsername.
  destruct (Nat.ltb_spec (String.length name) MIN_LEN); [reflexivity|lia].
Qed.

(** [checkUsername] never throws: it returns a result about [name] in
    one of the four categories after at most [maxTries] calls. *)
Lemma checkUsername_returns (maxTries : nat) (w : World) :
  exists r w',
    exec net (checkUsername name maxTries) w = (Returned r, w') /\
    username r = name /\ is_category (status r) /\
    (fetch_calls (trace w) <= fetch_calls (trace w')
     <= fetch_calls (trace w) + maxTries)%nat.
Proof.
  destruct (Nat.ltb_spec (String.length name) MIN_LEN) as [Hs|Hl].
  - rewrite (checkUsername_short _ Hs); simpl.
    do 2 eexists; split; [reflexivity|].
    unfold is_category; simpl; repeat split; auto; lia.
  - rewrite (checkUsername_long _ Hl); apply attempts_returns.
Qed.

End LoopFacts.

(** ** Programs that settle *)

Lemma settles_weaken {A : Type} (Q Q' : A -> Prop) (E E' : JsError -> Prop)
      (n n' : nat) (p : Prog A) :
  settles Q E n p ->
  (forall a, Q a -> Q' a) -> (forall e, E e -> E' e) -> (n <= n')%nat ->
  settles Q' E' n' p.
Proof.
  intros H HQ HE; revert n'.
  induction H; intros n' Hle;
    try (destruct n' as [|n']; [lia|]);
    econstructor; eauto; try (apply IHsettles; lia);
    intros; match goal with H : _ |- _ => apply H; lia end.
Qed.

Lemma settles_bind {A B : Type} (Q : A -> Prop) (R : B -> Prop)
      (E : JsError -> Prop) (n m : nat) (p : Prog A) (f : A -> Prog B) :
  settles Q E n p ->
  (forall a, Q a -> settles R E m (f a)) ->
  settles R E (n + m) (bind p f).
Proof.
  intros H Hf; induction H; simpl; try (econstructor; now eauto).
  eapply settles_weaken; [apply Hf; assumption|auto|auto|lia].
Qed.

Lemma settles_try_catch {A : Type} (Q : A -> Prop) (E0 E : JsError -> Prop)
      (n m : nat) (p : Prog A) (h : JsError -> Prog A) :
  settles Q E0 n p ->
  (forall e, E0 e -> settles Q E m (h e)) ->
  settles Q E (n + m) (try_catch p h).
Proof.
  intros H Hh; induction H; simpl; try (econstructor; now eauto).
  eapply settles_weaken; [apply Hh; assumption|auto|auto|lia].
Qed.

Lemma settles_try_finally {A : Type} (Q : A -> Prop) (E : JsError -> Prop)
      (n m : nat) (p : Prog A) (fin : Prog unit) :
  settles Q E n p ->
  settles (fun _ => True) E m fin ->
  settles Q E (n + m) (try_finally p fin).
Proof.
  intros H Hfin; induction H; simpl; try (econstructor; now eauto).
  - apply settles_weaken with (Q := Q) (E := E) (n := (m + 0)%nat);
      [|auto|auto|lia].
    eapply settles_bind; [exact Hfin|].
    intros _ _; now apply settles_ret.
  - apply settles_weaken with (Q := Q) (E := E) (n := (m + 0)%nat);
      [|auto|auto|lia].
    eapply settles_bind; [exact Hfin|].
    intros _ _; now apply settles_throw.
Qed.

(** ** [checkUsername] settles, whatever runs in between *)

Lemma settles_sleep_ms (E : JsError -> Prop) (ms : Z) :
  settles (fun _ => True) E 1 (sleep ms).
Proof. unfold sleep; now repeat constructor. Qed.

Lemma settles_safeReadBody (E : JsError -> Prop) (res : Response) :
  settles (fun _ => True) E 2 (safeReadBody res).
Proof.
  unfold safeReadBody, text_or_empty; destruct (includes _ _).
  - constructor; destruct (res_json res); now repeat constructor.
  - apply settles_weaken with (Q := fun _ => True) (E := E) (n := 1%nat);
      auto; now repeat constructor.
Qed.

Lemma settles_on_response (name : string) (res : Response) :
  settles (completion_about name) no_error 3 (on_response name res).
Proof.
  assert (Hret : forall n st c d,
             is_category st ->
             settles (completion_about name) no_error n
                     (Ret (Return (mkResult name st c d)))).
  { intros n st c d Hst; constructor; intros r [= <-]; now split. }
  assert (Hcont : forall ms,
             settles (completion_about name) no_error 3
                     (Do RotatorNext (sleep ms ;; Ret Continue))).
  { intros ms; constructor; [reflexivity|].
    apply (settles_bind (fun _ => True) _ _ 1 2);
      [apply settles_sleep_ms|].
    intros _ _; constructor; discriminate. }
  unfold on_response, is_category in *.
  destruct (res_ok res); [apply Hret; auto|].
  destruct (res_status res =? 409); [apply Hret; auto|].
  destruct (res_status res =? 429); [apply Hcont|].
  destruct (res_status res =? 400).
  - apply (settles_bind (fun _ => True) _ _ 2 1);
      [apply settles_safeReadBody|].
    intros body _; apply Hret; auto.
  - apply (settles_bind (fun _ => True) _ _ 2 1);
      [apply settles_safeReadBody|].
    intros body _; constructor; [reflexivity|].
    destruct (_ && _).
    + apply (settles_bind (fun _ => True) _ _ 1 0);
        [apply settles_sleep_ms|].
      intros _ _; constructor; discriminate.
    + apply Hret; auto.
Qed.

Lemma settles_try_block (name : string) (proxy : option string) :
  settles (completion_about name) any_error 4 (try_block name proxy).
Proof.
  unfold try_block.
  apply (settles_bind (fun _ => True) _ _ 1 3).
  - unfold fetchCheck; constructor; intros [res|err]; now constructor.
  - intros res _.
    eapply settles_weaken; [apply settles_on_response|auto| |lia].
    intros e [].
Qed.

Lemma settles_catch_block (name : string) (err : JsError) :
  settles (completion_about name) no_error 1 (catch_block name err).
Proof.
  unfold catch_block; destruct (isProxyError err).
  - constructor; [reflexivity|].
    apply (settles_bind (fun _ => True) _ _ 1 0);
      [apply settles_sleep_ms|].
    intros _ _; constructor; discriminate.
  - constructor; intros r [= <-]; split; [reflexivity|].
    unfold is_category; simpl; auto.
Qed.

Lemma settles_attempt (name : string) :
  settles (completion_about name) no_error 6 (attempt name).
Proof.
  unfold attempt; constructor; intros proxy.
  apply (settles_try_finally _ _ 5 1); [|apply settles_sleep_ms].
  apply (settles_try_catch _ any_error _ 4 1).
  - apply settles_try_block.
  - intros e _; apply settles_catch_block.
Qed.

Lemma settles_attempts (name : string) (n : nat) :
  settles (about name) no_error (6 * n) (attempts n name).
Proof.
  induction n as [|n IH].
  - simpl; constructor; split; [reflexivity|].
    unfold is_category; simpl; auto.
  - cbn [attempts].
    replace (6 * S n)%nat with (6 + 6 * n)%nat by lia.
    eapply settles_bind; [apply settles_attempt|].
    intros [|r] Hc; [exact IH|].
    constructor; now apply Hc.
Qed.

Lemma settles_checkUsername (name : string) (maxTries : nat) :
  settles (about name) no_error (6 * maxTries) (checkUsername name maxTries).
Proof.
  unfold checkUsername; destruct (_ <? _)%nat.
  - constructor; split; [reflexivity|].
    unfold is_category; simpl; auto.
  - apply settles_attempts.
Qed.

(** ** Tasks account for their names *)

Lemma accounts_weaken (name : string) (n n' : nat) (p : Prog unit) :
  accounts name n p -> (n <= n')%nat -> accounts name n' p.
Proof.
  intros H; revert n'.
  induction H; intros n' Hle;
    try (destruct n' as [|n']; [lia|]);
    [ now apply accounts_push
    | apply accounts_do; auto
    | apply accounts_current; auto
    | apply accounts_fetch; intros; match goal with H : _ |- _ => apply H end
    | apply accounts_sleep; apply IHaccounts
    | apply accounts_yield; apply IHaccounts ]; lia.
Qed.

Lemma accounts_bind {A : Type} (name : string) (Q : A -> Prop) (n m : nat)
      (p : Prog A) (f : A -> Prog unit) :
  settles Q no_error n p ->
  (forall a, Q a -> accounts name m (f a)) ->
  accounts name (n + m) (bind p f).
Proof.
  intros H Hf; induction H; simpl.
  - eapply accounts_weaken; [apply Hf; assumption|lia].
  - contradiction.
  - apply accounts_do; auto.
  - apply accounts_current; auto.
  - apply accounts_fetch; auto.
  - apply accounts_sleep; auto.
  - apply accounts_yield; auto.
Qed.

(** Lines 200-225: the four branches after [checkUsername]. *)
Lemma accounts_task (name : string) (maxTries : nat) :
  accounts name (6 * maxTries + 2) (limit (task name maxTries)).
Proof.
  unfold limit, task, await.
  replace (6 * maxTries + 2)%nat with (S (6 * maxTries + 1 + 0)) by lia.
  apply accounts_yield.
  apply accounts_bind with (Q := about name).
  - apply settles_bind with (Q := about name);
      [apply settles_checkUsername|].
    intros r Hr; apply settles_yield, settles_ret; exact Hr.
  - intros r [Hname _].
    destruct (status r =? "available")%string;
      [|destruct (status r =? "taken")%string;
        [|destruct (status r =? "invalid")%string]].
    + apply accounts_do; [reflexivity|].
      apply accounts_push; [reflexivity|].
      repeat (constructor; try reflexivity).
    + apply accounts_do; [reflexivity|].
      apply accounts_push; [reflexivity|].
      repeat (constructor; try reflexivity).
    + apply accounts_push; [simpl; now rewrite Hname|].
      repeat (constructor; try reflexivity).
    + apply accounts_push; [simpl; now rewrite Hname|].
      repeat (constructor; try reflexivity).
Qed.

(** ** The synchronous stretch of a task *)

Lemma accounted_log (e : Event) (w : World) :
  accounted (log e w) = accounted w.
Proof. reflexivity. Qed.

Lemma apply_op_quiet (op : Op) (w : World) :
  push_name op = None -> accounted (apply_op op w) = accounted w.
Proof. destruct op; simpl; intros H; try discriminate; reflexivity. Qed.

Lemma apply_op_push (op : Op) (name : string) (w : World) :
  push_name op = Some name ->
  Permutation (accounted (apply_op op w)) (name :: accounted w).
Proof.
  assert (Hins : forall (a b : list string) (x : string),
             Permutation (a ++ x :: b) (x :: a ++ b))
    by (intros; symmetry; apply Permutation_middle).
  destruct op; simpl; intros [= <-]; unfold apply_op, accounted; simpl;
    rewrite ?map_app; simpl; rewrite <- ?app_assoc; simpl.
  - apply Hins.
  - rewrite !(app_assoc (availableList w)); apply Hins.
  - rewrite !(app_assoc (takenList w)), !(app_assoc (availableList w)).
    apply Hins.
  - rewrite !(app_assoc (map username (invalidList w))).
    rewrite !(app_assoc (takenList w)), !(app_assoc (availableList w)).
    rewrite <- (app_nil_r (_ ++ map username (errorList w))) at 2.
    apply Hins.
Qed.

Lemma run_sync_winds_up (p : Prog unit) (w : World) :
  winds_up p ->
  fst (run_sync p w) = Ret tt /\
  accounted (snd (run_sync p w)) = accounted w.
Proof.
  intros H; revert w; induction H; intros w; simpl; [auto|].
  destruct (IHwinds_up (apply_op op w)) as [Hp Ha].
  split; [exact Hp|]; rewrite Ha; now apply apply_op_quiet.
Qed.

(** A stretch of a task that still accounts for [name] ends at a
    suspension point with the lists as they were, or at the end of the
    task with [name] added. *)
Lemma run_sync_accounts (name : string) (n : nat) (p : Prog unit)
      (w : World) :
  accounts name n p ->
  (suspended (fst (run_sync p w)) = true /\
   accounts name n (fst (run_sync p w)) /\
   accounted (snd (run_sync p w)) = accounted w)
  \/
  (fst (run_sync p w) = Ret tt /\
   Permutation (accounted (snd (run_sync p w))) (name :: accounted w)).
Proof.
  intros H; revert w; induction H; intros w; simpl.
  - right.
    destruct (run_sync_winds_up k (apply_op op w) H0) as [Hp Ha].
    split; [exact Hp|]; rewrite Ha; now apply apply_op_push.
  - destruct (IHaccounts (apply_op op w)) as [[Hs [Hacc Ha]]|[Hp Hperm]].
    + left; repeat split; auto; rewrite Ha; now apply apply_op_quiet.
    + right; split; [exact Hp|].
      now rewrite (apply_op_quiet op w) in Hperm.
  - apply H0.
  - left; repeat split; auto; now apply accounts_fetch.
  - left; repeat split; auto; now apply accounts_sleep.
  - left; repeat split; auto; now apply accounts_yield.
Qed.

(** ** The pool *)

Section PoolFacts.

Variable net : list Event -> string -> option string -> FetchOutcome.
Variable sched : nat -> nat.

(** One turn of a suspended task uses up one turn of its budget. *)
Lemma resume_accounts (name : string) (n : nat) (p : Prog unit)
      (w : World) :
  suspended p = true ->
  accounts name n p ->
  exists n', n = S n' /\
    ((suspended (fst (resume net p w)) = true /\
      accounts name n' (fst (resume net p w)) /\
      accounted (snd (resume net p w)) = accounted w)
     \/
     (fst (resume net p w) = Ret tt /\
      Permutation (accounted (snd (resume net p w)))
                  (name :: accounted w))).
Proof.
  intros Hs H; destruct H; simpl in Hs; try discriminate;
    exists n; (split; [reflexivity|]); simpl.
  - apply (run_sync_accounts name n _ (log (EvFetch nm proxy) w)), H.
  - apply (run_sync_accounts name n _ (log (EvSleep ms) w)), H.
  - apply (run_sync_accounts name n _ w), H.
Qed.

Lemma pool_inv_unfinished pool pend b :
  pool_inv pool pend b -> unfinished pool = List.length pend.
Proof.
  unfold unfinished; induction 1; simpl; auto.
  destruct p; simpl in *; try discriminate; now rewrite IHpool_inv.
Qed.

Lemma pool_inv_not_thrown pool pend b :
  pool_inv pool pend b -> existsb thrown pool = false.
Proof.
  induction 1; simpl; auto.
  destruct p; simpl in *; try discriminate; auto.
Qed.

Lemma pool_inv_budget pool pend b :
  pool_inv pool pend b -> (List.length pend <= b)%nat.
Proof.
  induction 1; simpl; auto.
  destruct (resume_accounts name n p (init_world []) H H0) as [n' [-> _]].
  lia.
Qed.

(** With nothing pending, a turn changes nothing. *)
Lemma pool_inv_idle pool b (j : nat) (w : World) :
  pool_inv pool [] b -> resume_nth net j pool w = (pool, w).
Proof.
  intros H; remember [] as pend eqn:Hp.
  induction H; try discriminate; simpl; auto.
  now rewrite (IHpool_inv Hp).
Qed.

(** A turn of the [j]-th pending task keeps the invariant, lowers the
    budget, and moves at most one name from pending to accounted. *)
Lemma resume_nth_inv pool pend b :
  pool_inv pool pend b ->
  forall (j : nat) (w : World),
    (j < List.length pend)%nat ->
    exists pend' b',
      pool_inv (fst (resume_nth net j pool w)) pend' b' /\
      (b' < b)%nat /\
      Permutation (accounted (snd (resume_nth net j pool w)) ++ pend')
                  (accounted w ++ pend).
Proof.
  induction 1 as [|pool pend b H IH|p name n pool pend b Hs Ha H IH];
    intros j w Hj; simpl in Hj.
  - lia.
  - simpl. destruct (IH j w Hj) as [pend' [b' [Hinv [Hb Hperm]]]].
    destruct (resume_nth net j pool w) as [rest' w']; simpl in *.
    exists pend', b'; repeat split; auto; now constructor.
  - cbn [resume_nth].
    assert (Hf : finished p = false)
      by (destruct p; simpl in Hs; try discriminate; reflexivity).
    rewrite Hf; destruct j as [|j].
    + destruct (resume_accounts name n p w Hs Ha)
        as [n' [-> [[Hs' [Ha' Hacc]]|[Hret Hperm]]]];
        destruct (resume net p w) as [p' w']; simpl in *.
      * exists (name :: pend), (n' + b)%nat; repeat split;
          [now constructor|lia|now rewrite Hacc].
      * subst p'; exists pend, b; repeat split;
          [now constructor|lia|].
        rewrite (Permutation_app_tail pend Hperm); simpl.
        apply Permutation_middle.
    + destruct (IH j w ltac:(lia)) as [pend' [b' [Hinv [Hb Hperm]]]].
      destruct (resume_nth net j pool w) as [rest' w']; simpl in *.
      exists (name :: pend'), (n + b')%nat; repeat split;
        [now constructor|lia|].
      rewrite <- !Permutation_middle; now constructor.
Qed.

(** Given as many turns as the budget, [Promise.all] ends with every
    task returned and every pending name accounted for. *)
Lemma run_pool_completes (fuel : nat) :
  forall (t : nat) pool pend b (w : World),
    pool_inv pool pend b ->
    (b <= fuel)%nat ->
    pool_inv (fst (run_pool net sched fuel t pool w)) [] 0 /\
    Permutation (accounted (snd (run_pool net sched fuel t pool w)))
                (accounted w ++ pend).
Proof.
  induction fuel as [|fuel IH]; intros t pool pend b w Hinv Hb.
  - pose proof (pool_inv_budget _ _ _ Hinv) as Hlen.
    assert (b = 0%nat) by lia; subst b.
    destruct pend; [|simpl in Hlen; lia].
    simpl; split; [exact Hinv|now rewrite app_nil_r].
  - cbn [run_pool]; rewrite (pool_inv_not_thrown _ _ _ Hinv).
    unfold pool_step; rewrite (pool_inv_unfinished _ _ _ Hinv).
    destruct pend as [|name pend].
    + rewrite (pool_inv_idle _ _ _ _ Hinv).
      apply (IH (S t) pool [] b w Hinv).
      pose proof (pool_inv_budget _ _ _ Hinv).
      remember [] as pd eqn:Hpd in Hinv.
      clear - Hinv Hpd; induction Hinv; try discriminate; auto; lia.
    + set (j := Nat.modulo (sched t) (List.length (name :: pend))).
      assert (Hj : (j < List.length (name :: pend))%nat)
        by (apply Nat.mod_upper_bound; simpl; lia).
      destruct (resume_nth_inv _ _ _ Hinv j w Hj)
        as [pend' [b' [Hinv' [Hb' Hperm]]]].
      destruct (resume_nth net j pool w) as [pool' w']; simpl in *.
      destruct (IH (S t) pool' pend' b' w' Hinv' ltac:(lia))
        as [Hfin Hp].
      split; [exact Hfin|].
      now rewrite Hp.
Qed.

Lemma pool_inv_initial (maxTries : nat) (usernames : list string) :
  pool_inv (map (fun name => limit (task name maxTries)) usernames)
           usernames
           (List.length usernames * (6 * maxTries + 2)).
Proof.
  induction usernames as [|name rest IH]; simpl; [constructor|].
  constructor; [reflexivity|apply accounts_task|exact IH].
Qed.

(** A pool in which every task has returned holds no thrown task. *)
Lemma pool_inv_returned pool :
  pool_inv pool [] 0 -> find thrown pool = None.
Proof.
  intros H; remember [] as pend eqn:Hp.
  induction H; try discriminate; simpl; auto.
Qed.

End PoolFacts.

(* ================================================================== *)
(** * Properties of the specification *)
(* ================================================================== *)

Lemma at_cursor_fields (r : Rotator.t) :
  Rotator.at_cursor r
  = Rotator.at_cursor (Rotator.mk (Rotator.proxies r) (Rotator.i r)).
Proof. destruct r; reflexivity. Qed.

Lemma winds_up_epilogue (w : World) : winds_up (epilogue w).
Proof. unfold epilogue; repeat (constructor; try reflexivity). Qed.

(** C1.  For every identifier [checkUsername] returns one result, about
    that identifier and in one of the four categories available, taken,
    invalid, error, and no exception escapes it: however every call
    settles when it runs alone ([exec]), and whatever happens between its
    turns when it runs among other tasks ([settles], with no exception
    allowed).  Consequently a run returns with every identifier in
    exactly one of the four lists: the names accounted for are a
    permutation of the input, under every schedule of the tasks. *)
Theorem checkUsername_total_accounting
        (net : list Event -> string -> option string -> FetchOutcome)
        (sched : nat -> nat) :
  (forall name maxTries w,
      exists r w',
        exec net (checkUsername name maxTries) w = (Returned r, w') /\
        username r = name /\ is_category (status r)) /\
  (forall name maxTries,
      settles (about name) no_error (6 * maxTries)
              (checkUsername name maxTries)) /\
  (forall usernames proxies,
      exists w,
        run net sched usernames proxies = (Returned tt, w) /\
        Permutation (accounted w) usernames).
Proof.
  split; [|split].
  - intros name maxTries w.
    destruct (checkUsername_returns net name maxTries w)
      as [r [w' [He [Hu [Hs _]]]]].
    now exists r, w'.
  - intros; apply settles_checkUsername.
  - intros usernames proxies; unfold run.
    destruct usernames as [|name rest] eqn:Hu.
    + eexists; split; [reflexivity|]; reflexivity.
    + rewrite <- Hu; unfold fan_out, turns.
      pose proof (pool_inv_initial (maxTries_of proxies) usernames) as Hinit.
      destruct (run_pool_completes net sched _ 0 _ _ _
                  (snd (run_sync (prelude usernames proxies)
                                 (init_world proxies)))
                  Hinit (le_n _)) as [Hfin Hperm].
      destruct (run_pool _ _ _ _ _ _) as [pool w]; simpl in *.
      rewrite (pool_inv_returned _ Hfin).
      exists (snd (run_sync (epilogue w) w)); split; [reflexivity|].
      destruct (run_sync_winds_up _ w (winds_up_epilogue w)) as [_ ->].
      exact Hperm.
Qed.

(** C2.  With [P] configured proxies the number of attempts for one
    identifier is at most [max(3, 2P)], the value [run] passes as
    [maxTries]; and when the loop reaches that maximum without resolving,
    that is when each of its [max(3, 2P)] passes meets a retryable
    outcome (429, 5xx, matched transport error), it has made exactly
    that many calls and the result is category error with detail
    "retry limit reached" and no code. *)
Theorem retry_budget
        (net : list Event -> string -> option string -> FetchOutcome)
        (proxies : list string) (name : string) (w : World) :
  maxTries_of proxies = Nat.max 3 (2 * List.length proxies) /\
  (fetch_calls (trace (snd (exec net
       (checkUsername name (maxTries_of proxies)) w)))
   <= fetch_calls (trace w) + Nat.max 3 (2 * List.length proxies))%nat /\
  ((MIN_LEN <= String.length name)%nat ->
   (forall k, (k < Nat.max 3 (2 * List.length proxies))%nat ->
              retryable (pass_outcome net name k w) = true) ->
   exists w',
     exec net (checkUsername name (maxTries_of proxies)) w
     = (Returned (mkResult name "error" None (Some "retry limit reached")),
        w') /\
     fetch_calls (trace w')
     = (fetch_calls (trace w) + Nat.max 3 (2 * List.length proxies))%nat).
Proof.
  assert (Hmax : maxTries_of proxies = Nat.max 3 (2 * List.length proxies))
    by (unfold maxTries_of; destruct proxies; cbn [List.length]; lia).
  split; [exact Hmax|]; rewrite <- Hmax; split.
  - destruct (checkUsername_returns net name (maxTries_of proxies) w)
      as [r [w' [He [_ [_ Hn]]]]].
    rewrite He; simpl; lia.
  - intros Hlen Hretry; rewrite (checkUsername_long _ _ Hlen).
    rewrite (attempts_exhausted _ _ _ _ Hretry).
    eexists; split; [reflexivity|apply pass_world_fetch_calls].
Qed.

(** C3, as amended.  At any pass of the loop ([attempts (S n) name] run
    in any world is the loop of [checkUsername] with [n + 1] passes
    left), when the call settles with a response: a 2xx status gives
    category available, 409 gives taken, and 400 gives invalid with code
    400 and a detail of at most 200 characters, which is the first 200
    characters of the response body when the content type does not say
    JSON, and of the re-serialised JSON value when it does and the body
    parses to a truthy value. *)
Theorem response_classification
        (net : list Event -> string -> option string -> FetchOutcome)
        (name : string) (n : nat) (w : World) (res : Response) :
  net (trace w) name (Rotator.current (rotator w)) = Resolved res ->
  (200 <= res_status res <= 299 ->
   fst (exec net (attempts (S n) name) w)
   = Returned (mkResult name "available" None None)) /\
  (res_status res = 409 ->
   fst (exec net (attempts (S n) name) w)
   = Returned (mkResult name "taken" None None)) /\
  (res_status res = 400 ->
   exists d,
     fst (exec net (attempts (S n) name) w)
     = Returned (mkResult name "invalid" (Some 400) (Some d)) /\
     (String.length d <= 200)%nat /\
     (json_typed res = false -> d = slice0 200 (response_body res)) /\
     (forall s, json_typed res = true -> res_json res = Some s ->
                d = slice0 200 s)).
Proof.
  intros Hnet; split; [|split].
  - intros Hr.
    assert (Hok : res_ok res = true) by (unfold res_ok; lia).
    now rewrite (attempts_return _ _ _ _ _ _
                   (attempt_available _ _ _ _ Hnet Hok)).
  - intros Hs.
    now rewrite (attempts_return _ _ _ _ _ _
                   (attempt_taken _ _ _ _ Hnet Hs)).
  - intros Hs.
    destruct (safeReadBody_cases res) as [body [Hbody [Htext Hjson]]].
    exists (slice0 200 body).
    rewrite (attempts_return _ _ _ _ _ _
               (attempt_invalid _ _ _ _ _ Hnet Hs Hbody)).
    split; [reflexivity|].
    split; [rewrite slice0_length; lia|].
    split; [intros H; now rewrite (Htext H)|].
    intros s Ht Hj; now rewrite (Hjson s Ht Hj).
Qed.

(** C3, as stated, fails: the detail is not always the response body.
    For a 400 with a JSON content type and the body "[1, 2]" the detail
    is the re-serialised "[1,2]"; for one whose body "nope" is not JSON
    the detail is empty, because the text is asked for after the JSON
    reader has read the body. *)
Lemma response_classification_counterexample :
  (fst (exec (Samples.always (Resolved MoreSamples.res_400_spaced))
             (checkUsername "ss1" 3) (init_world []))
   = Returned (mkResult "ss1" "invalid" (Some 400) (Some "[1,2]")) /\
   slice0 200 (response_body MoreSamples.res_400_spaced) = "[1, 2]") /\
  (fst (exec (Samples.always (Resolved MoreSamples.res_400_unparsable))
             (checkUsername "ss1" 3) (init_world []))
   = Returned (mkResult "ss1" "invalid" (Some 400) (Some "")) /\
   slice0 200 (response_body MoreSamples.res_400_unparsable) = "nope") /\
  fst (exec (Samples.always (Resolved MoreSamples.res_400_spaced))
            (checkUsername "ss1" 3) (init_world []))
  <> Returned (mkResult "ss1" "invalid" (Some 400)
                 (Some (slice0 200
                          (response_body MoreSamples.res_400_spaced)))).
Proof.
  repeat split; discriminate.
Qed.

(** C4, as amended.  For a non-empty proxy array of size [P] and every
    [k] up to 2^53, after [next()] is called [k] times on a fresh rotator
    [current()] returns the proxy at index [k mod P]. *)
Theorem rotation_index_within_limit (proxies : list string) (k : N) :
  proxies <> [] ->
  (k <= 2 ^ 53)%N ->
  Rotator.current (Rotator.next_times k (Rotator.createProxyRotator proxies))
  = nth_error proxies (N.to_nat (k mod N.of_nat (List.length proxies))).
Proof.
  intros Hne Hk.
  unfold Rotator.current; rewrite at_cursor_fields.
  rewrite next_times_proxies, next_times_cursor; simpl Rotator.proxies.
  rewrite at_cursor_index by (simpl; auto; unfold JS_INCR_LIMIT; lia).
  simpl Rotator.proxies; simpl Rotator.i.
  replace (Z.min (Z.of_N k) JS_INCR_LIMIT) with (Z.of_N k)
    by (unfold JS_INCR_LIMIT; lia).
  rewrite <- nat_N_Z, <- N2Z.inj_mod.
  generalize (k mod N.of_nat (List.length proxies))%N; intros x.
  f_equal; lia.
Qed.

(** C4, as stated, fails beyond 2^53: the counter of the rotator stops at
    2^53, so after 2^53 + 1 calls on three proxies [current()] is the
    proxy at index 2^53 mod 3 = 2, not the one at (2^53 + 1) mod 3 = 0. *)
Lemma rotation_index_counterexample :
  Rotator.current
    (Rotator.next_times (2 ^ 53 + 1)
       (Rotator.createProxyRotator ["http://a:1"; "http://b:2"; "http://c:3"]))
  = Some "http://c:3"
  /\ nth_error ["http://a:1"; "http://b:2"; "http://c:3"]
       (N.to_nat ((2 ^ 53 + 1) mod
                  N.of_nat (List.length
                              ["http://a:1"; "http://b:2"; "http://c:3"])))
     = Some "http://a:1"
  /\ Rotator.current
       (Rotator.next_times (2 ^ 53 + 1)
          (Rotator.createProxyRotator
             ["http://a:1"; "http://b:2"; "http://c:3"]))
     <> nth_error ["http://a:1"; "http://b:2"; "http://c:3"]
          (N.to_nat ((2 ^ 53 + 1) mod
                     N.of_nat (List.length
                                 ["http://a:1"; "http://b:2"; "http://c:3"]))).
Proof.
  assert (H : Rotator.current
                (Rotator.next_times (2 ^ 53 + 1)
                   (Rotator.createProxyRotator
                      ["http://a:1"; "http://b:2"; "http://c:3"]))
              = Some "http://c:3").
  { unfold Rotator.current; rewrite at_cursor_fields.
    rewrite next_times_proxies, next_times_cursor; reflexivity. }
  split; [exact H|split; [reflexivity|]].
  rewrite H; discriminate.
Qed.

(** C5.  For an identifier shorter than [MIN_LEN], [checkUsername] is the
    immediate return of category invalid with detail "min_length_3": the
    program has no operation and no suspension point, the world is left
    as it was, and the number of outbound calls does not change. *)
Theorem short_identifier_no_call
        (net : list Event -> string -> option string -> FetchOutcome)
        (name : string) (maxTries : nat) (w : World) :
  (String.length name < MIN_LEN)%nat ->
  checkUsername name maxTries
  = Ret (mkResult name "invalid" None (Some "min_length_3")) /\
  exec net (checkUsername name maxTries) w
  = (Returned (mkResult name "invalid" None (Some "min_length_3")), w) /\
  fetch_calls (trace (snd (exec net (checkUsername name maxTries) w)))
  = fetch_calls (trace w).
Proof.
  intros H; rewrite (checkUsername_short _ _ H); repeat split.
Qed.





(** C9.  For an empty identifier list [run] returns at once: the only
    thing that happens is the console message; no call is made, nothing
    reaches any of the four lists or the counters, and no result file is
    reset, opened or written. *)
Theorem empty_list_short_circuit
        (net : list Event -> string -> option string -> FetchOutcome)
        (sched : nat -> nat) (proxies : list string) :
  exists w,
    run net sched [] proxies = (Returned tt, w) /\
    trace w = [EvOp (ConsoleLog "usernames.txt is empty")] /\
    fetch_calls (trace w) = 0%nat /\
    existsb touches_sink (trace w) = false /\
    accounted w = [] /\
    invalidList w = [] /\ errorList w = [] /\
    state_available w = 0 /\ state_taken w = 0.
Proof.
  eexists; split; [reflexivity|]; repeat split.
Qed.

(** C10.  The short-circuit for a short identifier leaves the world, and
    so the rotator, as it was.  In a pass of the loop whose call settles
    with a decisive outcome (2xx, 409 or 400) [rotator.next()] is not
    called and the rotator is unchanged; whenever a pass calls
    [rotator.next()] or changes the rotator, the outcome was a 429, a
    5xx, an unexpected status or a matched transport error, and on each
    of those the pass calls it exactly once. *)
Theorem cursor_frame
        (net : list Event -> string -> option string -> FetchOutcome)
        (name : string) (w : World) :
  let o := net (trace w) name (Rotator.current (rotator w)) in
  let w' := snd (exec net (attempt name) w) in
  (forall maxTries,
      (String.length name < MIN_LEN)%nat ->
      snd (exec net (checkUsername name maxTries) w) = w) /\
  (decisive o = true ->
   rotator w' = rotator w /\
   next_calls (trace w') = next_calls (trace w)) /\
  (next_calls (trace w') <> next_calls (trace w) \/ rotator w' <> rotator w ->
   rotating o = true) /\
  (rotating o = true ->
   rotator w' = fst (Rotator.next (rotator w)) /\
   next_calls (trace w') = S (next_calls (trace w))).
Proof.
  intros o w'.
  destruct (attempt_shape net name w) as [c [Hc _]]; fold o in Hc.
  assert (Hw : w' = after_attempt name o w) by (unfold w'; now rewrite Hc).
  pose proof (after_attempt_rotator name o w) as Hrot.
  pose proof (after_attempt_next_calls name o w) as Hnext.
  rewrite <- Hw in Hrot, Hnext.
  assert (Hdec : decisive o = true -> rotating o = false).
  { destruct o as [res|err]; simpl; [|discriminate].
    unfold unexpected_status, is_5xx, res_ok; lia. }
  split; [|split; [|split]].
  - intros maxTries Hs; now rewrite (checkUsername_short _ _ Hs).
  - intros Hd; rewrite (Hdec Hd) in *; split; [exact Hrot|lia].
  - intros H; destruct (rotating o); [reflexivity|].
    destruct H as [H|H]; [lia|congruence].
  - intros Hr; rewrite Hr in *; split; [exact Hrot|lia].
Qed.

(* ================================================================== *)
(** * The properties at sample inputs *)
(* ================================================================== *)

(** The three end-to-end scenarios of the specification. *)

Example scenario_mixed_names :
  let w := snd (run Samples.net_by_name Samples.in_order
                    ["ab"; "validname"; "taken1"] []) in
  availableList w = ["validname"] /\ takenList w = ["taken1"] /\
  map username (invalidList w) = ["ab"] /\ errorList w = [].
Proof. vm_compute; repeat split. Qed.

Example scenario_rate_limited :
  let '(r, w) := exec Samples.net_rate_limited
                      (checkUsername "ratelimited"
                                     (maxTries_of Samples.two_proxies))
                      (init_world Samples.two_proxies) in
  r = Returned (mkResult "ratelimited" "available" None None) /\
  next_calls (trace w) = 3%nat /\ Rotator.i (rotator w) = 3.
Proof. vm_compute; repeat split. Qed.

Example scenario_dead :
  let '(r, w) := exec (Samples.always (Rejected Samples.err_aborted))
                      (checkUsername "dead" (maxTries_of []))
                      (init_world []) in
  r = Returned (mkResult "dead" "error" None (Some "retry limit reached")) /\
  fetch_calls (trace w) = 3%nat.
Proof. vm_compute; repeat split. Qed.

Lemma retry_budget_witness :
  (MIN_LEN <= String.length "dead")%nat /\
  (forall k, (k < Nat.max 3 (2 * 0))%nat ->
             retryable (pass_outcome
                          (Samples.always (Rejected Samples.err_aborted))
                          "dead" k (init_world []))
             = true) /\
  exists w',
    exec (Samples.always (Rejected Samples.err_aborted))
         (checkUsername "dead" (maxTries_of [])) (init_world [])
    = (Returned (mkResult "dead" "error" None (Some "retry limit reached")),
       w') /\
    fetch_calls (trace w')
    = (fetch_calls (trace (init_world [])) + Nat.max 3 (2 * 0))%nat.
Proof.
  assert (Hlen : (MIN_LEN <= String.length "dead")%nat)
    by (unfold MIN_LEN; simpl; lia).
  assert (Hretry : forall k, (k < Nat.max 3 (2 * 0))%nat ->
             retryable (pass_outcome
                          (Samples.always (Rejected Samples.err_aborted))
                          "dead" k (init_world []))
             = true)
    by (intros; reflexivity).
  split; [exact Hlen|]; split; [exact Hretry|].
  exact (proj2 (proj2 (retry_budget
                         (Samples.always (Rejected Samples.err_aborted))
                         [] "dead" (init_world []))) Hlen Hretry).
Defined.

Lemma response_classification_witness :
  fst (exec (Samples.always (Resolved Samples.res_200))
            (attempts 3 "validname") (init_world []))
  = Returned (mkResult "validname" "available" None None) /\
  fst (exec (Samples.always (Resolved Samples.res_409))
            (attempts 3 "taken1") (init_world []))
  = Returned (mkResult "taken1" "taken" None None) /\
  (json_typed MoreSamples.res_400_text = false /\
   exists d,
     fst (exec (Samples.always (Resolved MoreSamples.res_400_text))
               (attempts 3 "ss1") (init_world []))
     = Returned (mkResult "ss1" "invalid" (Some 400) (Some d)) /\
     d = slice0 200 (response_body MoreSamples.res_400_text)) /\
  (json_typed Samples.res_400 = true /\
   res_json Samples.res_400 = Some "{error:min}" /\
   exists d,
     fst (exec (Samples.always (Resolved Samples.res_400))
               (attempts 3 "ss1") (init_world []))
     = Returned (mkResult "ss1" "invalid" (Some 400) (Some d)) /\
     d = slice0 200 "{error:min}").
Proof.
  split; [|split; [|split]].
  - apply (proj1 (response_classification
                    (Samples.always (Resolved Samples.res_200))
                    "validname" 2 (init_world []) Samples.res_200 eq_refl)).
    simpl; lia.
  - apply (proj1 (proj2 (response_classification
                    (Samples.always (Resolved Samples.res_409))
                    "taken1" 2 (init_world []) Samples.res_409 eq_refl))).
    reflexivity.
  - split; [reflexivity|].
    destruct (proj2 (proj2 (response_classification
                (Samples.always (Resolved MoreSamples.res_400_text))
                "ss1" 2 (init_world []) MoreSamples.res_400_text eq_refl))
              eq_refl) as [d [Hr [_ [Htext _]]]].
    exists d; split; [exact Hr|exact (Htext eq_refl)].
  - split; [reflexivity|split; [reflexivity|]].
    destruct (proj2 (proj2 (response_classification
                (Samples.always (Resolved Samples.res_400))
                "ss1" 2 (init_world []) Samples.res_400 eq_refl))
              eq_refl) as [d [Hr [_ [_ Hjson]]]].
    exists d; split; [exact Hr|exact (Hjson _ eq_refl eq_refl)].
Defined.

Lemma rotation_index_witness :
  Samples.two_proxies <> [] /\ (5 <= 2 ^ 53)%N /\
  Rotator.current
    (Rotator.next_times 5 (Rotator.createProxyRotator Samples.two_proxies))
  = nth_error Samples.two_proxies
              (N.to_nat (5 mod N.of_nat (List.length Samples.two_proxies))).
Proof.
  assert (Hne : Samples.two_proxies <> []) by discriminate.
  assert (Hk : (5 <= 2 ^ 53)%N) by (vm_compute; discriminate).
  split; [exact Hne|]; split; [exact Hk|].
  exact (rotation_index_within_limit Samples.two_proxies 5 Hne Hk).
Defined.

Lemma short_identifier_no_call_witness :
  (String.length "ab" < MIN_LEN)%nat /\
  checkUsername "ab" 3
  = Ret (mkResult "ab" "invalid" None (Some "min_length_3")) /\
  exec Samples.net_by_name (checkUsername "ab" 3) (init_world [])
  = (Returned (mkResult "ab" "invalid" None (Some "min_length_3")),
     init_world []) /\
  fetch_calls (trace (snd (exec Samples.net_by_name (checkUsername "ab" 3)
                                (init_world []))))
  = fetch_calls (trace (init_world [])).
Proof.
  assert (Hlen : (String.length "ab" < MIN_LEN)%nat)
    by (unfold MIN_LEN; simpl; lia).
  split; [exact Hlen|].
  exact (short_identifier_no_call Samples.net_by_name "ab" 3
                                  (init_world []) Hlen).
Defined.



Lemma cursor_frame_witness :
  ((String.length "ab" < MIN_LEN)%nat /\
   snd (exec Samples.net_by_name (checkUsername "ab" 4)
             (init_world Samples.two_proxies))
   = init_world Samples.two_proxies) /\
  (decisive (Resolved Samples.res_409) = true /\
   rotator (snd (exec Samples.net_by_name (attempt "taken1")
                      (init_world Samples.two_proxies)))
   = rotator (init_world Samples.two_proxies)) /\
  (rotating (Resolved Samples.res_429) = true /\
   rotator (snd (exec Samples.net_rate_limited (attempt "ratelimited")
                      (init_world Samples.two_proxies)))
   = fst (Rotator.next (rotator (init_world Samples.two_proxies))) /\
   next_calls (trace (snd (exec Samples.net_rate_limited
                                (attempt "ratelimited")
                                (init_world Samples.two_proxies))))
   = S (next_calls (trace (init_world Samples.two_proxies)))).
Proof.
  assert (Hlen : (String.length "ab" < MIN_LEN)%nat)
    by (unfold MIN_LEN; simpl; lia).
  split; [split; [exact Hlen|]|split; (split; [reflexivity|])].
  - exact (proj1 (cursor_frame Samples.net_by_name "ab"
                               (init_world Samples.two_proxies)) 4%nat Hlen).
  - exact (proj1 (proj1 (proj2 (cursor_frame Samples.net_by_name "taken1"
                                  (init_world Samples.two_proxies)))
                        eq_refl)).
  - exact (proj2 (proj2 (proj2 (cursor_frame Samples.net_rate_limited
                                  "ratelimited"
                                  (init_world Samples.two_proxies)))) eq_refl).
Defined.

(* ================================================================== *)
(** * Further properties of the code *)
(* ================================================================== *)

(** ** parseList *)

Lemma is_space_LF : is_space LF = true.
Proof. reflexivity. Qed.

Lemma is_space_CR : is_space CR = true.
Proof. reflexivity. Qed.

Lemma string_pair_ind (P : string -> Prop) :
  P EmptyString ->
  (forall c, P (String c EmptyString)) ->
  (forall c c' s, P s -> P (String c' s) -> P (String c (String c' s))) ->
  forall s, P s.
Proof.
  intros H0 H1 H2 s.
  assert (H : P s /\ forall c, P (String c s)).
  { induction s as [|c' s [IHs IHc]]; [split; auto|].
    split; [apply IHc|]; intros c; apply H2; auto. }
  apply H.
Qed.

Lemma split_lines_two (c c' : ascii) (s : string) :
  split_lines (String c (String c' s))
  = if Ascii.eqb c LF then EmptyString :: split_lines (String c' s)
    else if Ascii.eqb c CR && Ascii.eqb c' LF
         then EmptyString :: split_lines s
         else match split_lines (String c' s) with
              | piece :: pieces => String c piece :: pieces
              | [] => [String c EmptyString]
              end.
Proof. reflexivity. Qed.

Lemma split_lines_one (c : ascii) :
  split_lines (String c EmptyString)
  = if Ascii.eqb c LF then [EmptyString; EmptyString]
    else [String c EmptyString].
Proof. reflexivity. Qed.

(** No piece of [split_lines] holds a line feed. *)
Lemma split_lines_no_lf (raw : string) :
  Forall (fun piece => has_char LF piece = false) (split_lines raw).
Proof.
  induction raw as [|c|c c' s IHs IHc] using string_pair_ind.
  - repeat constructor.
  - rewrite split_lines_one; destruct (Ascii.eqb c LF) eqn:Hc;
      repeat constructor.
    cbn [has_char]; now rewrite Hc.
  - rewrite split_lines_two.
    destruct (Ascii.eqb c LF) eqn:Hc; [constructor; [reflexivity|exact IHc]|].
    destruct (Ascii.eqb c CR && Ascii.eqb c' LF);
      [constructor; [reflexivity|exact IHs]|].
    destruct (split_lines (String c' s)) as [|piece pieces];
      [repeat constructor; cbn [has_char]; now rewrite Hc|].
    inversion IHc; subst; constructor;
      [cbn [has_char]; now rewrite Hc|assumption].
Qed.

Lemma trim_start_no_space (s : string) :
  starts_with_space (trim_start s) = false.
Proof.
  induction s as [|c s IH]; simpl; auto.
  destruct (is_space c) eqn:Hc; [exact IH|simpl; exact Hc].
Qed.

Lemma trim_end_no_space (s : string) :
  ends_with_space (trim_end s) = false.
Proof.
  induction s as [|c s IH]; simpl; auto.
  destruct (trim_end s) as [|c' kept] eqn:Hk.
  - destruct (is_space c) eqn:Hc; simpl; auto.
  - exact IH.
Qed.

Lemma trim_end_start (s : string) :
  starts_with_space s = false -> starts_with_space (trim_end s) = false.
Proof.
  destruct s as [|c s]; simpl; auto; intros Hc.
  destruct (trim_end s); [rewrite Hc|]; simpl; auto.
Qed.

Lemma trim_start_has_char (c : ascii) (s : string) :
  has_char c s = false -> has_char c (trim_start s) = false.
Proof.
  induction s as [|c' s IH]; simpl; auto; intros H.
  apply orb_false_elim in H as [H1 H2].
  destruct (is_space c'); [auto|simpl; now rewrite H1, H2].
Qed.

Lemma trim_end_has_char (c : ascii) (s : string) :
  has_char c s = false -> has_char c (trim_end s) = false.
Proof.
  induction s as [|c' s IH]; simpl; auto; intros H.
  apply orb_false_elim in H as [H1 H2].
  specialize (IH H2).
  destruct (trim_end s) as [|c'' kept].
  - destruct (is_space c'); simpl; auto; now rewrite H1.
  - simpl in *; now rewrite H1, IH.
Qed.

(** X1.  Every entry that [parseList] returns is a clean line: it is not
    empty, it neither starts nor ends with white space, and it holds no
    line feed. *)
Theorem parseList_clean (raw : string) :
  Forall clean_line (parseList raw).
Proof.
  unfold parseList; apply Forall_forall; intros l Hin.
  apply filter_In in Hin as [Hin Hne].
  apply in_map_iff in Hin as [piece [<- Hin]].
  pose proof (split_lines_no_lf raw) as Hlf.
  rewrite Forall_forall in Hlf; specialize (Hlf piece Hin).
  unfold clean_line, trim; repeat split.
  - exact Hne.
  - apply trim_end_start, trim_start_no_space.
  - apply trim_end_no_space.
  - now apply trim_end_has_char, trim_start_has_char.
Qed.

Lemma cons_first_all_space (c : ascii) (l : list string) :
  Forall (fun piece => all_space piece = true)
         (match l with
          | piece :: pieces => String c piece :: pieces
          | [] => [String c EmptyString]
          end)
  <-> is_space c = true /\ Forall (fun piece => all_space piece = true) l.
Proof.
  destruct l as [|piece pieces]; split.
  - intros H; inversion H as [|? ? H1 _]; subst.
    cbn [all_space] in H1; apply andb_prop in H1 as [H1 _]; auto.
  - intros [H _]; repeat constructor; cbn [all_space]; now rewrite H.
  - intros H; inversion H as [|? ? H1 H2]; subst.
    cbn [all_space] in H1; apply andb_prop in H1 as [H1 H3].
    split; [exact H1|constructor; assumption].
  - intros [H H']; inversion H'; subst.
    constructor; [cbn [all_space]; rewrite H; assumption|assumption].
Qed.

Lemma cons_empty_all_space (l : list string) :
  Forall (fun piece => all_space piece = true) (EmptyString :: l)
  <-> Forall (fun piece => all_space piece = true) l.
Proof.
  split; intros H; [inversion H; assumption|constructor; auto].
Qed.

Lemma split_lines_all_space (raw : string) :
  all_space raw = true <->
  Forall (fun piece => all_space piece = true) (split_lines raw).
Proof.
  induction raw as [|c|c c' s IHs IHc] using string_pair_ind.
  - split; intros; [repeat constructor|reflexivity].
  - rewrite split_lines_one; cbn [all_space]; rewrite andb_true_r.
    destruct (Ascii.eqb_spec c LF) as [->|Hc].
    + rewrite is_space_LF; split; intros; [repeat constructor|reflexivity].
    + split; intros H; [repeat constructor; cbn [all_space]; now rewrite H|].
      inversion H as [|? ? H1 _]; subst.
      cbn [all_space] in H1; now rewrite andb_true_r in H1.
  - rewrite split_lines_two.
    change (all_space (String c (String c' s)))
      with (is_space c && all_space (String c' s)).
    rewrite andb_true_iff.
    destruct (Ascii.eqb_spec c LF) as [->|Hc].
    + rewrite cons_empty_all_space, <- IHc, is_space_LF; tauto.
    + destruct (Ascii.eqb_spec c CR) as [->|Hcr]; cbn [andb].
      * destruct (Ascii.eqb_spec c' LF) as [->|Hc'].
        -- rewrite cons_empty_all_space, <- IHs, is_space_CR.
           cbn [all_space]; rewrite is_space_LF; cbn [andb]; tauto.
        -- rewrite cons_first_all_space, <- IHc; tauto.
      * rewrite cons_first_all_space, <- IHc; tauto.
Qed.

Lemma trim_start_all_space (s : string) :
  all_space (trim_start s) = all_space s.
Proof.
  induction s as [|c s IH]; simpl; auto.
  destruct (is_space c) eqn:Hc; simpl; [exact IH|now rewrite Hc].
Qed.

Lemma trim_end_empty (s : string) :
  trim_end s = EmptyString <-> all_space s = true.
Proof.
  induction s as [|c s IH]; simpl; [tauto|].
  destruct (trim_end s) as [|c' kept].
  - destruct (is_space c); simpl.
    + rewrite <- IH; tauto.
    + split; discriminate.
  - split; [discriminate|].
    intros H; apply andb_prop in H as [_ H].
    apply IH in H; discriminate.
Qed.

Lemma trim_empty (s : string) :
  truthy (trim s) = false <-> all_space s = true.
Proof.
  unfold trim; rewrite <- trim_start_all_space, <- trim_end_empty.
  destruct (trim_end (trim_start s)); simpl; split; auto; discriminate.
Qed.

Lemma parseList_blank_nil (raw : string) :
  all_space raw = true -> parseList raw = [].
Proof.
  rewrite split_lines_all_space; unfold parseList.
  induction 1 as [|piece pieces Hp _ IH]; simpl; [reflexivity|].
  apply trim_empty in Hp; now rewrite Hp.
Qed.

(** X2.  [parseList] returns the empty list exactly when its input holds
    nothing but white space and line breaks (the empty input included). *)
Theorem parseList_empty_iff_blank (raw : string) :
  parseList raw = [] <-> all_space raw = true.
Proof.
  rewrite split_lines_all_space; unfold parseList.
  induction (split_lines raw) as [|piece pieces IH]; simpl.
  - split; intros; [constructor|reflexivity].
  - destruct (truthy (trim piece)) eqn:Ht.
    + split; [discriminate|].
      intros H; inversion H as [|? ? H1 _]; subst.
      apply trim_empty in H1; congruence.
    + rewrite IH; apply trim_empty in Ht.
      split; intros H; [constructor; auto|inversion H; assumption].
Qed.

Lemma split_lines_before_lf (l rest : string) :
  has_char LF l = false ->
  ends_with_space l = false ->
  split_lines (l ++ String LF rest) = l :: split_lines rest.
Proof.
  induction l as [|c|c c' l IHl IHc] using string_pair_ind;
    intros Hlf Hend.
  - reflexivity.
  - cbn [has_char] in Hlf; apply orb_false_elim in Hlf as [Hc _].
    cbn [ends_with_space] in Hend.
    change (String c "" ++ String LF rest) with (String c (String LF rest)).
    rewrite split_lines_two, Hc.
    destruct (Ascii.eqb_spec c CR) as [->|_];
      [rewrite is_space_CR in Hend; discriminate|reflexivity].
  - cbn [has_char] in Hlf; apply orb_false_elim in Hlf as [Hc Hlf].
    assert (Hc' : Ascii.eqb c' LF = false)
      by (cbn [has_char] in Hlf; now apply orb_false_elim in Hlf as [? _]).
    change (String c (String c' l) ++ String LF rest)
      with (String c (String c' (l ++ String LF rest))).
    rewrite split_lines_two, Hc, Hc', andb_false_r.
    change (String c' (l ++ String LF rest))
      with (String c' l ++ String LF rest).
    now rewrite (IHc Hlf Hend).
Qed.

Lemma split_lines_before_crlf (l rest : string) :
  has_char LF l = false ->
  split_lines (l ++ String CR (String LF rest)) = l :: split_lines rest.
Proof.
  induction l as [|c|c c' l IHl IHc] using string_pair_ind; intros Hlf.
  - reflexivity.
  - cbn [has_char] in Hlf; apply orb_false_elim in Hlf as [Hc _].
    change (String c "" ++ String CR (String LF rest))
      with (String c (String CR (String LF rest))).
    rewrite split_lines_two, Hc.
    replace (Ascii.eqb CR LF) with false by reflexivity.
    rewrite andb_false_r; reflexivity.
  - cbn [has_char] in Hlf; apply orb_false_elim in Hlf as [Hc Hlf].
    assert (Hc' : Ascii.eqb c' LF = false)
      by (cbn [has_char] in Hlf; now apply orb_false_elim in Hlf as [? _]).
    change (String c (String c' l) ++ String CR (String LF rest))
      with (String c (String c' (l ++ String CR (String LF rest)))).
    rewrite split_lines_two, Hc, Hc', andb_false_r.
    change (String c' (l ++ String CR (String LF rest)))
      with (String c' l ++ String CR (String LF rest)).
    now rewrite (IHc Hlf).
Qed.

Lemma split_lines_single (l : string) :
  has_char LF l = false -> split_lines l = [l].
Proof.
  induction l as [|c|c c' l IHl IHc] using string_pair_ind; intros Hlf.
  - reflexivity.
  - cbn [has_char] in Hlf; apply orb_false_elim in Hlf as [Hc _].
    now rewrite split_lines_one, Hc.
  - cbn [has_char] in Hlf; apply orb_false_elim in Hlf as [Hc Hlf].
    assert (Hc' : Ascii.eqb c' LF = false)
      by (cbn [has_char] in Hlf; now apply orb_false_elim in Hlf as [? _]).
    now rewrite split_lines_two, Hc, Hc', andb_false_r, (IHc Hlf).
Qed.

Lemma trim_end_clean (l : string) :
  ends_with_space l = false -> trim_end l = l.
Proof.
  induction l as [|c l IH]; [reflexivity|].
  destruct l as [|c' l'].
  - simpl; intros ->; reflexivity.
  - intros H; change (ends_with_space (String c' l') = false) in H.
    change (trim_end (String c (String c' l')))
      with (match trim_end (String c' l') with
            | EmptyString => if is_space c then EmptyString
                             else String c EmptyString
            | kept => String c kept
            end).
    rewrite (IH H); reflexivity.
Qed.

Lemma trim_clean (l : string) : clean_line l -> trim l = l.
Proof.
  intros [_ [Hs [He _]]]; unfold trim.
  assert (Hstart : trim_start l = l)
    by (destruct l; simpl in *; [reflexivity|now rewrite Hs]).
  rewrite Hstart; now apply trim_end_clean.
Qed.

(** X3.  Round trip: clean lines joined by line feeds, or by carriage
    return and line feed, are read back by [parseList] as they were, in
    the same order. *)
Theorem parseList_join (sep : string) (lines : list string) :
  sep = String LF EmptyString \/ sep = String CR (String LF EmptyString) ->
  Forall clean_line lines ->
  parseList (String.concat sep lines) = lines.
Proof.
  intros Hsep Hclean; induction Hclean as [|l rest Hl Hrest IH];
    [reflexivity|].
  pose proof (trim_clean l Hl) as Htrim.
  assert (Htruthy : truthy l = true) by apply Hl.
  assert (Hlf : has_char LF l = false) by apply Hl.
  assert (Hend : ends_with_space l = false) by apply Hl.
  destruct rest as [|l2 rest].
  - unfold parseList; simpl String.concat.
    rewrite (split_lines_single l Hlf); cbn [map filter].
    now rewrite Htrim, Htruthy.
  - change (String.concat sep (l :: l2 :: rest))
      with (l ++ sep ++ String.concat sep (l2 :: rest)).
    unfold parseList in *.
    destruct Hsep as [-> | ->].
    + change (String LF "" ++ ?x) with (String LF x).
      rewrite (split_lines_before_lf l _ Hlf Hend); cbn [map filter].
      now rewrite Htrim, Htruthy, IH.
    + change (String CR (String LF "") ++ ?x) with (String CR (String LF x)).
      rewrite (split_lines_before_crlf l _ Hlf); cbn [map filter].
      now rewrite Htrim, Htruthy, IH.
Qed.

(** ** normalizeProxy and the proxy list *)

Lemma has_scheme_truthy (line : string) :
  has_scheme line = true -> truthy line = true.
Proof. destruct line; [discriminate|reflexivity]. Qed.

Lemma has_scheme_http (line : string) :
  has_scheme ("http://" ++ line) = true.
Proof. reflexivity. Qed.

Lemma normalizeProxy_truthy (line : string) :
  truthy line = true -> normalizeProxy line = Some (with_scheme line).
Proof.
  unfold normalizeProxy, with_scheme; intros ->; simpl.
  destruct (has_scheme line), (is_host_port line); reflexivity.
Qed.

Lemma with_scheme_has_scheme (line : string) :
  has_scheme (with_scheme line) = true.
Proof.
  unfold with_scheme; destruct (has_scheme line) eqn:H;
    [exact H|apply has_scheme_http].
Qed.

(** X4.  [normalizeProxy] returns null for the empty line only.  Any
    other line comes back unchanged when it starts with "http://" or
    "https://" in any letter case, and with "http://" in front otherwise,
    whether or not it looks like host:port; what comes back starts with a
    scheme, and normalising it again changes nothing. *)
Theorem normalizeProxy_scheme (line : string) :
  (normalizeProxy line = None <-> line = EmptyString) /\
  (has_scheme line = true -> normalizeProxy line = Some line) /\
  (line <> EmptyString -> has_scheme line = false ->
   normalizeProxy line = Some ("http://" ++ line)) /\
  (forall p, normalizeProxy line = Some p ->
             has_scheme p = true /\ normalizeProxy p = Some p).
Proof.
  split; [|split; [|split]].
  - destruct line; simpl; [tauto|].
    rewrite normalizeProxy_truthy by reflexivity; split; discriminate.
  - intros H; rewrite normalizeProxy_truthy by now apply has_scheme_truthy.
    unfold with_scheme; now rewrite H.
  - intros Hne H; destruct line; [congruence|].
    rewrite normalizeProxy_truthy by reflexivity.
    unfold with_scheme; now rewrite H.
  - intros p Hp; destruct line; [discriminate|].
    rewrite normalizeProxy_truthy in Hp by reflexivity.
    injection Hp as <-.
    pose proof (with_scheme_has_scheme (String a line)) as Hs.
    split; [exact Hs|].
    rewrite normalizeProxy_truthy by now apply has_scheme_truthy.
    unfold with_scheme at 1; now rewrite Hs.
Qed.

Lemma load_truthy_lines (lines : list string) :
  Forall (fun l => truthy l = true) lines ->
  flat_map (fun x => match x with Some s => [s] | None => [] end)
           (filter truthy_proxy (map normalizeProxy lines))
  = map with_scheme lines.
Proof.
  induction 1 as [|l rest Hl _ IH]; [reflexivity|].
  cbn [map]; rewrite (normalizeProxy_truthy l Hl); cbn [filter truthy_proxy].
  rewrite (has_scheme_truthy _ (with_scheme_has_scheme l)).
  cbn [flat_map]; now rewrite IH.
Qed.

Lemma parseList_truthy (raw : string) :
  Forall (fun l => truthy l = true) (parseList raw).
Proof.
  unfold parseList; apply Forall_forall; intros l Hin.
  now apply filter_In in Hin as [_ Hin].
Qed.

(** X5.  The proxy list of a run holds one entry for each non-blank line
    of proxies.txt, in the order of the file: the trimmed line, with
    "http://" in front unless it has a scheme.  No line is dropped, and
    every entry starts with a scheme. *)
Theorem load_proxies_lines (proxiesRaw : string) :
  load_proxies proxiesRaw = map with_scheme (parseList proxiesRaw) /\
  List.length (load_proxies proxiesRaw)
  = List.length (parseList proxiesRaw) /\
  Forall (fun p => has_scheme p = true) (load_proxies proxiesRaw).
Proof.
  assert (H : load_proxies proxiesRaw
              = map with_scheme (parseList proxiesRaw))
    by apply load_truthy_lines, parseList_truthy.
  rewrite H; split; [reflexivity|split; [apply length_map|]].
  apply Forall_forall; intros p Hin.
  apply in_map_iff in Hin as [l [<- _]]; apply with_scheme_has_scheme.
Qed.

(** X6.  When usernames.txt holds nothing but white space and line
    breaks, [run] stops at the console message whatever proxies.txt
    holds: no outbound call, no name in any list, and none of the four
    result files reset, opened or written. *)
Theorem run_main_blank_usernames
        (net : list Event -> string -> option string -> FetchOutcome)
        (sched : nat -> nat) (usernamesRaw : string)
        (proxies_txt : Outcome string) :
  all_space usernamesRaw = true ->
  exists w,
    run_main net sched (Returned usernamesRaw) proxies_txt
    = (Returned tt, w) /\
    trace w = [EvOp (ConsoleLog "usernames.txt is empty")] /\
    fetch_calls (trace w) = 0%nat /\
    existsb touches_sink (trace w) = false /\
    accounted w = [].
Proof.
  intros Hblank; unfold run_main.
  rewrite (parseList_blank_nil _ Hblank).
  eexists; split; [reflexivity|]; repeat split.
Qed.

(** ** More on the rotator *)

Lemma at_cursor_none (r : Rotator.t) :
  0 <= Rotator.i r ->
  (Rotator.at_cursor r = None <-> Rotator.proxies r = []).
Proof.
  intros Hi; unfold Rotator.at_cursor.
  destruct (Rotator.proxies r) as [|p ps] eqn:Hp; [tauto|].
  split; [|discriminate]; intros H.
  apply nth_error_None in H.
  pose proof (Z.mod_pos_bound (Rotator.i r)
                (Z.of_nat (List.length (p :: ps)))
                ltac:(simpl List.length; lia)) as Hb.
  lia.
Qed.

Lemma at_cursor_in (r : Rotator.t) (p : string) :
  Rotator.at_cursor r = Some p -> In p (Rotator.proxies r).
Proof.
  unfold Rotator.at_cursor; destruct (Rotator.proxies r); [discriminate|].
  apply nth_error_In.
Qed.

Lemma js_incr_nonneg (x : Z) : 0 <= x -> 0 <= js_incr x.
Proof. unfold js_incr; destruct (x <? JS_INCR_LIMIT); lia. Qed.

(** X7.  For a rotator whose counter is not negative (it starts at 0 and
    [next] keeps it so), [current()] and [next()] return null exactly
    when no proxy is configured, and otherwise one of the configured
    proxies; [next()] leaves the proxy array alone and returns what
    [current()] returns right after it. *)
Theorem rotator_returns_configured (r : Rotator.t) :
  0 <= Rotator.i r ->
  (Rotator.current r = None <-> Rotator.proxies r = []) /\
  (forall p, Rotator.current r = Some p -> In p (Rotator.proxies r)) /\
  (snd (Rotator.next r) = None <-> Rotator.proxies r = []) /\
  (forall p, snd (Rotator.next r) = Some p -> In p (Rotator.proxies r)) /\
  snd (Rotator.next r) = Rotator.current (fst (Rotator.next r)) /\
  Rotator.proxies (fst (Rotator.next r)) = Rotator.proxies r /\
  0 <= Rotator.i (fst (Rotator.next r)).
Proof.
  intros Hi.
  assert (Hi' : 0 <= Rotator.i (fst (Rotator.next r)))
    by (simpl; now apply js_incr_nonneg).
  split; [exact (at_cursor_none r Hi)|].
  split; [intros p; apply at_cursor_in|].
  split; [exact (at_cursor_none _ Hi')|].
  split; [intros p; apply (at_cursor_in (fst (Rotator.next r)))|].
  split; [reflexivity|].
  split; [reflexivity|exact Hi'].
Qed.

Lemma current_next_times (proxies : list string) (k : N) :
  proxies <> [] ->
  (k <= 2 ^ 53)%N ->
  Rotator.current (Rotator.next_times k (Rotator.createProxyRotator proxies))
  = nth_error proxies (N.to_nat (k mod N.of_nat (List.length proxies))).
Proof.
  intros Hne Hk.
  unfold Rotator.current; rewrite at_cursor_fields.
  rewrite next_times_proxies, next_times_cursor; simpl Rotator.proxies.
  rewrite at_cursor_index by (simpl; auto; unfold JS_INCR_LIMIT; lia).
  simpl Rotator.proxies; simpl Rotator.i.
  replace (Z.min (Z.of_N k) JS_INCR_LIMIT) with (Z.of_N k)
    by (unfold JS_INCR_LIMIT; lia).
  rewrite <- nat_N_Z, <- N2Z.inj_mod.
  generalize (k mod N.of_nat (List.length proxies))%N; intros x.
  f_equal; lia.
Qed.

(** X8.  Round robin: on a fresh rotator over [P > 0] proxies, the
    proxy current after [k < P] calls of [next()] is the [k]-th of the
    array, so one cycle visits every proxy once in the order of the
    file; and as long as the calls stay below 2^53, [P] more calls bring
    the same proxy back. *)
Theorem rotator_round_robin (proxies : list string) (k : N) :
  proxies <> [] ->
  (k + N.of_nat (List.length proxies) <= 2 ^ 53)%N ->
  ((k < N.of_nat (List.length proxies))%N ->
   Rotator.current
     (Rotator.next_times k (Rotator.createProxyRotator proxies))
   = nth_error proxies (N.to_nat k)) /\
  Rotator.current
    (Rotator.next_times (k + N.of_nat (List.length proxies))
       (Rotator.createProxyRotator proxies))
  = Rotator.current
      (Rotator.next_times k (Rotator.createProxyRotator proxies)).
Proof.
  intros Hne Hk.
  assert (HP : N.of_nat (List.length proxies) <> 0%N)
    by (destruct proxies; [congruence|simpl; lia]).
  split.
  - intros Hlt; rewrite current_next_times by (auto; lia).
    now rewrite N.mod_small.
  - rewrite !current_next_times by (auto; lia).
    rewrite <- (N.mul_1_l (N.of_nat (List.length proxies))) at 1.
    now rewrite N.Div0.mod_add.
Qed.

(** ** isProxyError *)

Lemma prefix_spec (p s : string) :
  String.prefix p s = true <-> exists post, s = p ++ post.
Proof.
  revert s; induction p as [|a p IH]; intros s.
  - split; [intros _; now exists s|intros _; destruct s; reflexivity].
  - destruct s as [|b s]; simpl;
      [split; [discriminate|intros [? ?]; discriminate]|].
    destruct (ascii_dec a b) as [->|Hab].
    + rewrite IH; split; intros [post H]; exists post; congruence.
    + split; [discriminate|intros [post H]; congruence].
Qed.

Lemma includes_spec (s sub : string) :
  includes s sub = true <-> exists pre post, s = pre ++ sub ++ post.
Proof.
  induction s as [|c s IH]; cbn [includes]; rewrite orb_true_iff, prefix_spec.
  - split.
    + intros [[post H]|H]; [|discriminate].
      exists EmptyString, post; exact H.
    + intros [pre [post H]]; left.
      destruct pre; [now exists post|discriminate].
  - rewrite IH; split.
    + intros [[post H]|[pre [post H]]].
      * exists EmptyString, post; exact H.
      * exists (String c pre), post; simpl; now rewrite H.
    + intros [[|c' pre] [post H]].
      * left; now exists post.
      * right; exists pre, post; simpl in H; congruence.
Qed.

(** X9.  [isProxyError] is true exactly when the inspected text holds
    one of the eight markers somewhere.  The inspected text is the
    message of the error when it has one, and [String(err)] only when it
    has none: with a message present, [String(err)] plays no part. *)
Theorem isProxyError_markers (err : JsError) :
  (isProxyError err = true <->
   exists marker pre post,
     In marker proxy_error_markers /\
     inspected_message err = pre ++ marker ++ post) /\
  (err_message err <> EmptyString ->
   forall other,
     isProxyError err = isProxyError (mkError (err_message err) other)).
Proof.
  split.
  - unfold isProxyError; fold (inspected_message err).
    rewrite !orb_true_iff, !includes_spec; unfold proxy_error_markers.
    split.
    + intros H.
      repeat (destruct H as [H|H]);
        destruct H as [pre [post H]];
        eexists; exists pre, post; (split; [|exact H]); simpl; tauto.
    + intros [marker [pre [post [Hin H]]]]; simpl in Hin.
      repeat (destruct Hin as [<-|Hin]); [..|contradiction];
        eauto 12.
  - intros Hm other; unfold isProxyError; simpl.
    destruct (err_message err); [congruence|reflexivity].
Qed.

(** ** Operations and calls of [checkUsername] *)

Lemma within_weaken {A : Type} (allowed : Op -> Prop) (Q Q' : A -> Prop)
      (E E' : JsError -> Prop) (n n' : nat) (p : Prog A) :
  within allowed Q E n p ->
  (forall a, Q a -> Q' a) -> (forall e, E e -> E' e) -> (n <= n')%nat ->
  within allowed Q' E' n' p.
Proof.
  intros H HQ HE; revert n'.
  induction H; intros n' Hle.
  - now apply within_ret, HQ.
  - now apply within_throw, HE.
  - apply within_do; auto.
  - apply within_current; auto.
  - destruct n' as [|n']; [lia|].
    apply within_fetch; intros o.
    match goal with IH : forall o n', _ |- _ => apply IH end; lia.
  - apply within_sleep; auto.
  - apply within_yield; auto.
Qed.

Lemma within_bind {A B : Type} (allowed : Op -> Prop) (Q : A -> Prop)
      (R : B -> Prop) (E : JsError -> Prop) (n m : nat)
      (p : Prog A) (f : A -> Prog B) :
  within allowed Q E n p ->
  (forall a, Q a -> within allowed R E m (f a)) ->
  within allowed R E (n + m) (bind p f).
Proof.
  intros H Hf; induction H; simpl; try (econstructor; now eauto).
  eapply within_weaken; [apply Hf; assumption|auto|auto|lia].
Qed.

Lemma within_try_catch {A : Type} (allowed : Op -> Prop) (Q : A -> Prop)
      (E0 E : JsError -> Prop) (n m : nat)
      (p : Prog A) (h : JsError -> Prog A) :
  within allowed Q E0 n p ->
  (forall e, E0 e -> within allowed Q E m (h e)) ->
  within allowed Q E (n + m) (try_catch p h).
Proof.
  intros H Hh; induction H; simpl; try (econstructor; now eauto).
  eapply within_weaken; [apply Hh; assumption|auto|auto|lia].
Qed.

Lemma within_try_finally {A : Type} (allowed : Op -> Prop) (Q : A -> Prop)
      (E : JsError -> Prop) (n m : nat) (p : Prog A) (fin : Prog unit) :
  within allowed Q E n p ->
  within allowed (fun _ => True) E m fin ->
  within allowed Q E (n + m) (try_finally p fin).
Proof.
  intros H Hfin; induction H; simpl; try (econstructor; now eauto).
  - apply within_weaken with (Q := Q) (E := E) (n := (m + 0)%nat);
      [|auto|auto|lia].
    eapply within_bind; [exact Hfin|].
    intros _ _; now apply within_ret.
  - apply within_weaken with (Q := Q) (E := E) (n := (m + 0)%nat);
      [|auto|auto|lia].
    eapply within_bind; [exact Hfin|].
    intros _ _; now apply within_throw.
Qed.

Lemma within_sleep_ms (allowed : Op -> Prop) (E : JsError -> Prop) (ms : Z) :
  within allowed (fun _ => True) E 0 (sleep ms).
Proof. unfold sleep; now apply within_sleep, within_ret. Qed.

Lemma within_safeReadBody (allowed : Op -> Prop) (E : JsError -> Prop)
      (res : Response) :
  within allowed (fun _ => True) E 0 (safeReadBody res).
Proof.
  unfold safeReadBody, text_or_empty; destruct (includes _ _).
  - apply within_yield; destruct (res_json res);
      [now apply within_ret|now apply within_yield, within_ret].
  - now apply within_yield, within_ret.
Qed.

Lemma short_detail_slice (s : string) : short_detail (Some (slice0 200 s)).
Proof. eexists; split; [reflexivity|rewrite slice0_length; lia]. Qed.

Lemma within_on_response (name : string) (res : Response) :
  within only_next (good_completion name) no_error 0 (on_response name res).
Proof.
  assert (Hret : forall st c d,
             result_shape (mkResult name st c d) ->
             within only_next (good_completion name) no_error 0
                    (Ret (Return (mkResult name st c d)))).
  { intros st c d Hshape; apply within_ret; intros r [= <-]; now split. }
  assert (Hcont : forall ms,
             within only_next (good_completion name) no_error 0
                    (Do RotatorNext (sleep ms ;; Ret Continue))).
  { intros ms; apply within_do; [reflexivity|].
    apply (within_bind only_next (fun _ => True) _ _ 0 0);
      [apply within_sleep_ms|].
    intros _ _; apply within_ret; discriminate. }
  unfold on_response.
  destruct (res_ok res) eqn:Hok;
    [apply Hret; unfold result_shape; simpl; tauto|].
  destruct (Z.eqb_spec (res_status res) 409) as [H409|H409];
    [apply Hret; unfold result_shape; simpl; tauto|].
  destruct (Z.eqb_spec (res_status res) 429) as [H429|H429];
    [apply Hcont|].
  destruct (Z.eqb_spec (res_status res) 400) as [H400|H400].
  - apply (within_bind only_next (fun _ => True) _ _ 0 0);
      [apply within_safeReadBody|].
    intros body _; apply Hret.
    right; right; right; left; simpl.
    split; [reflexivity|split; [reflexivity|apply short_detail_slice]].
  - apply (within_bind only_next (fun _ => True) _ _ 0 0);
      [apply within_safeReadBody|].
    intros body _; apply within_do; [reflexivity|].
    destruct ((500 <=? res_status res) && (res_status res <=? 599)) eqn:H5.
    + apply (within_bind only_next (fun _ => True) _ _ 0 0);
        [apply within_sleep_ms|].
      intros _ _; apply within_ret; discriminate.
    + apply Hret; do 5 right; simpl.
      split; [reflexivity|split; [apply short_detail_slice|]].
      exists (res_status res); split; [reflexivity|].
      unfold res_ok in Hok; lia.
Qed.

Lemma within_attempt (name : string) :
  within only_next (good_completion name) no_error 1 (attempt name).
Proof.
  unfold attempt; apply within_current; intros proxy.
  apply (within_try_finally _ _ _ 1 0); [|apply within_sleep_ms].
  apply (within_try_catch _ _ any_error _ 1 0).
  - unfold try_block.
    apply (within_bind only_next (fun _ => True) _ _ 1 0).
    + unfold fetchCheck; apply within_fetch; intros [res|err];
        [now apply within_ret|now apply within_throw].
    + intros res _.
      eapply within_weaken; [apply within_on_response|auto| |lia].
      intros e [].
  - intros err _; unfold catch_block; destruct (isProxyError err).
    + apply within_do; [reflexivity|].
      apply (within_bind only_next (fun _ => True) _ _ 0 0);
        [apply within_sleep_ms|].
      intros _ _; apply within_ret; discriminate.
    + apply within_ret; intros r [= <-]; split; [reflexivity|].
      do 4 right; left; simpl.
      split; [reflexivity|split; [reflexivity|apply short_detail_slice]].
Qed.

Lemma within_attempts (name : string) (n : nat) :
  within only_next (good_result name) no_error n (attempts n name).
Proof.
  induction n as [|n IH].
  - simpl; apply within_ret; split; [reflexivity|].
    do 4 right; left; simpl.
    split; [reflexivity|split; [reflexivity|]].
    eexists; split; [reflexivity|simpl; lia].
  - cbn [attempts].
    change (S n) with (1 + n)%nat.
    eapply within_bind; [apply within_attempt|].
    intros [|r] Hc; [exact IH|].
    apply within_ret; now apply Hc.
Qed.

Lemma within_checkUsername (name : string) (maxTries : nat) :
  within only_next (good_result name) no_error
         (if (String.length name <? MIN_LEN)%nat then 0 else maxTries)
         (checkUsername name maxTries).
Proof.
  unfold checkUsername; destruct (_ <? _)%nat.
  - apply within_ret; split; [reflexivity|].
    right; right; left; simpl; auto.
  - apply within_attempts.
Qed.

Lemma trace_effect (op : Op) (w : World) : trace (effect op w) = trace w.
Proof. destruct op; reflexivity. Qed.

Lemma fetch_calls_apply_op (op : Op) (w : World) :
  fetch_calls (trace (apply_op op w)) = fetch_calls (trace w).
Proof.
  unfold apply_op, log; cbn [trace].
  rewrite fetch_calls_snoc, trace_effect; simpl; lia.
Qed.

Lemma fetch_calls_log (e : Event) (w : World) :
  fetch_calls (trace (log e w))
  = (fetch_calls (trace w) + (if is_fetch e then 1 else 0))%nat.
Proof. unfold log; cbn [trace]; apply fetch_calls_snoc. Qed.

(** A program [within] its bounds, run alone: it ends in [Q] or [E],
    makes at most [n] calls, and relates the worlds by any relation that
    holds across a call, a sleep and an allowed operation. *)
Lemma within_exec {A : Type}
      (net : list Event -> string -> option string -> FetchOutcome)
      (allowed : Op -> Prop) (Q : A -> Prop) (E : JsError -> Prop)
      (R : World -> World -> Prop) (n : nat) (p : Prog A) :
  (forall w, R w w) ->
  (forall w1 w2 w3, R w1 w2 -> R w2 w3 -> R w1 w3) ->
  (forall w name proxy, R w (log (EvFetch name proxy) w)) ->
  (forall w ms, R w (log (EvSleep ms) w)) ->
  (forall w op, allowed op -> R w (apply_op op w)) ->
  within allowed Q E n p ->
  forall w,
    match fst (exec net p w) with
    | Returned a => Q a
    | Thrown e => E e
    end /\
    R w (snd (exec net p w)) /\
    (fetch_calls (trace (snd (exec net p w)))
     <= fetch_calls (trace w) + n)%nat.
Proof.
  intros Hrefl Htrans Hfetch Hsleep Hop H.
  induction H; intros w; cbn [exec].
  - repeat split; auto; simpl; lia.
  - repeat split; auto; simpl; lia.
  - destruct (IHwithin (apply_op op w)) as [Hq [Hr Hn]].
    repeat split; [exact Hq|eapply Htrans; [apply Hop|]; eauto|].
    rewrite fetch_calls_apply_op in Hn; exact Hn.
  - apply H0.
  - destruct (H0 (net (trace w) name proxy) (log (EvFetch name proxy) w))
      as [Hq [Hr Hn]].
    repeat split; [exact Hq|eapply Htrans; [apply Hfetch|]; eauto|].
    rewrite fetch_calls_log in Hn; simpl in Hn; lia.
  - destruct (IHwithin (log (EvSleep ms) w)) as [Hq [Hr Hn]].
    repeat split; [exact Hq|eapply Htrans; [apply Hsleep|]; eauto|].
    rewrite fetch_calls_log in Hn; simpl in Hn; lia.
  - apply IHwithin.
Qed.

Lemma only_checked_refl (w : World) : only_checked w w.
Proof.
  unfold only_checked; repeat split.
  exists []; now rewrite app_nil_r.
Qed.

Lemma only_checked_trans (w1 w2 w3 : World) :
  only_checked w1 w2 -> only_checked w2 w3 -> only_checked w1 w3.
Proof.
  unfold only_checked.
  intros [A1 [B1 [C1 [D1 [E1 [F1 [G1 [t1 [T1 O1]]]]]]]]]
         [A2 [B2 [C2 [D2 [E2 [F2 [G2 [t2 [T2 O2]]]]]]]]].
  repeat split; try congruence.
  exists (t1 ++ t2)%list; split;
    [rewrite T2, T1; symmetry; apply app_assoc|].
  now rewrite forallb_app, O1, O2.
Qed.

Lemma only_checked_log (w : World) (e : Event) :
  check_event e = true -> only_checked w (log e w).
Proof.
  intros He; unfold only_checked; repeat split.
  exists [e]; split; [reflexivity|simpl; now rewrite He].
Qed.

Lemma only_checked_next (w : World) :
  only_checked w (apply_op RotatorNext w).
Proof.
  unfold only_checked; repeat split.
  exists [EvOp RotatorNext]; split; reflexivity.
Qed.

(** X10.  The object that [checkUsername] returns has one of six
    shapes: available or taken with neither code nor detail; invalid
    with detail "min_length_3" and no code, or with code 400 and a
    detail; error with a detail and either no code or a status that is
    none of 2xx, 409, 429, 400 and 5xx as code.  A detail cut from a
    body or an error never exceeds 200 characters. *)
Theorem checkUsername_result_shape
        (net : list Event -> string -> option string -> FetchOutcome)
        (name : string) (maxTries : nat) (w : World) :
  exists r,
    fst (exec net (checkUsername name maxTries) w) = Returned r /\
    username r = name /\ result_shape r.
Proof.
  destruct (within_exec net only_next (good_result name) no_error
              (fun _ _ => True) _ _
              (fun _ => I) (fun _ _ _ _ _ => I) (fun _ _ _ => I)
              (fun _ _ => I) (fun _ _ _ => I)
              (within_checkUsername name maxTries) w) as [Hq _].
  destruct (fst (exec net (checkUsername name maxTries) w)) as [r|e];
    [|contradiction].
  exists r; split; [reflexivity|exact Hq].
Qed.

(** X11.  [checkUsername] touches nothing but the rotator's counter:
    the counters of [state], the four lists and the proxy array are left
    as they were, and everything it adds to the history is an outbound
    call, a sleep or a rotation, so it writes to no file and to no
    console. *)
Theorem checkUsername_frame
        (net : list Event -> string -> option string -> FetchOutcome)
        (name : string) (maxTries : nat) (w : World) :
  only_checked w (snd (exec net (checkUsername name maxTries) w)).
Proof.
  assert (Hop : forall w0 op, only_next op -> only_checked w0 (apply_op op w0))
    by (intros w0 op ->; apply only_checked_next).
  destruct (within_exec net only_next (good_result name) no_error
              only_checked _ _
              only_checked_refl only_checked_trans
              (fun w0 u p => only_checked_log w0 (EvFetch u p) eq_refl)
              (fun w0 ms => only_checked_log w0 (EvSleep ms) eq_refl)
              Hop (within_checkUsername name maxTries) w) as [_ [Hr _]].
  exact Hr.
Qed.

(** ** The history of the loop *)

Section LoopHistory.

Variable net : list Event -> string -> option string -> FetchOutcome.
Variable name : string.
Variable R : World -> World -> Prop.
Hypothesis R_refl : forall w, R w w.
Hypothesis R_trans : forall w1 w2 w3, R w1 w2 -> R w2 w3 -> R w1 w3.
Hypothesis R_pass : forall w o, R w (after_attempt name o w).

(** A relation that holds across each pass holds across the loop. *)
Lemma attempts_rel (n : nat) (w : World) :
  R w (snd (exec net (attempts n name) w)).
Proof.
  revert w; induction n as [|n IH]; intros w; [apply R_refl|].
  destruct (attempt_shape net name w) as [c [Hc _]].
  destruct c as [|r].
  - rewrite (attempts_continue _ _ _ _ _ Hc).
    eapply R_trans; [apply R_pass|apply IH].
  - rewrite (attempts_return _ _ _ _ _ _ Hc); apply R_pass.
Qed.

Lemma checkUsername_rel (maxTries : nat) (w : World) :
  R w (snd (exec net (checkUsername name maxTries) w)).
Proof.
  unfold checkUsername; destruct (_ <? _)%nat;
    [apply R_refl|apply attempts_rel].
Qed.

End LoopHistory.

Lemma pacing_sleeps_snoc (t : list Event) (e : Event) :
  pacing_sleeps (t ++ [e])
  = (pacing_sleeps t + (if is_pacing e then 1 else 0))%nat.
Proof.
  unfold pacing_sleeps; rewrite filter_app, length_app; simpl.
  destruct (is_pacing e); reflexivity.
Qed.

Lemma after_attempt_pacing (name : string) (o : FetchOutcome) (w : World) :
  pacing_sleeps (trace (after_attempt name o w))
  = S (pacing_sleeps (trace w)).
Proof.
  unfold after_attempt, called, backoff.
  destruct o as [res|err];
    [destruct (res_status res =? 429); [|destruct (is_5xx res)]
    |destruct (isProxyError err)];
    destruct (rotating _); cbn [trace log apply_op];
    rewrite ?pacing_sleeps_snoc, ?trace_effect;
    cbn [trace log]; rewrite ?pacing_sleeps_snoc; simpl; lia.
Qed.

(** X12.  Pacing: [checkUsername] adds to the history exactly one delay
    of [BASE_DELAY_MS] for each outbound call it makes, and at most one
    rotation for each call. *)
Theorem checkUsername_pacing
        (net : list Event -> string -> option string -> FetchOutcome)
        (name : string) (maxTries : nat) (w : World) :
  let w' := snd (exec net (checkUsername name maxTries) w) in
  (pacing_sleeps (trace w') + fetch_calls (trace w)
   = pacing_sleeps (trace w) + fetch_calls (trace w'))%nat /\
  (next_calls (trace w') + fetch_calls (trace w)
   <= next_calls (trace w) + fetch_calls (trace w'))%nat.
Proof.
  apply (checkUsername_rel net name
           (fun w1 w2 =>
              (pacing_sleeps (trace w2) + fetch_calls (trace w1)
               = pacing_sleeps (trace w1) + fetch_calls (trace w2))%nat /\
              (next_calls (trace w2) + fetch_calls (trace w1)
               <= next_calls (trace w1) + fetch_calls (trace w2))%nat)).
  - intros; lia.
  - intros; lia.
  - intros w0 o.
    rewrite after_attempt_pacing, after_attempt_fetch_calls,
      after_attempt_next_calls.
    destruct (rotating o); lia.
Qed.

Lemma routed_current (name : string) (w : World) :
  0 <= Rotator.i (rotator w) ->
  routed name (Rotator.proxies (rotator w))
         (EvFetch name (Rotator.current (rotator w))).
Proof.
  intros Hi; unfold routed.
  destruct (Rotator.current (rotator w)) as [p|] eqn:Hc.
  - split; [reflexivity|now apply at_cursor_in].
  - split; [reflexivity|now apply (at_cursor_none _ Hi)].
Qed.

Lemma after_attempt_routed (name : string) (o : FetchOutcome) (w : World) :
  0 <= Rotator.i (rotator w) ->
  Rotator.proxies (rotator (after_attempt name o w))
  = Rotator.proxies (rotator w) /\
  0 <= Rotator.i (rotator (after_attempt name o w)) /\
  exists t,
    trace (after_attempt name o w) = (trace w ++ t)%list /\
    Forall (routed name (Rotator.proxies (rotator w))) t.
Proof.
  intros Hi; pose proof (routed_current name w Hi) as Hr.
  rewrite after_attempt_rotator.
  split; [destruct (rotating o); reflexivity|].
  split; [destruct (rotating o); simpl; auto using js_incr_nonneg|].
  unfold after_attempt, called.
  destruct (rotating o), (backoff o); cbn [trace log apply_op];
    rewrite ?trace_effect; cbn [trace log]; rewrite <- ?app_assoc;
    eexists; (split; [reflexivity|]); repeat constructor; exact Hr.
Qed.

(** X13.  Every outbound call that [checkUsername] makes is a call for
    its own identifier, routed through one of the configured proxies, or
    direct when none is configured: with proxies configured it never
    connects directly. *)
Theorem checkUsername_routing
        (net : list Event -> string -> option string -> FetchOutcome)
        (name : string) (maxTries : nat) (w : World) :
  0 <= Rotator.i (rotator w) ->
  exists t,
    trace (snd (exec net (checkUsername name maxTries) w))
    = (trace w ++ t)%list /\
    Forall (routed name (Rotator.proxies (rotator w))) t.
Proof.
  intros Hi.
  apply (checkUsername_rel net name
           (fun w1 w2 =>
              0 <= Rotator.i (rotator w1) ->
              Rotator.proxies (rotator w2) = Rotator.proxies (rotator w1) /\
              0 <= Rotator.i (rotator w2) /\
              exists t,
                trace w2 = (trace w1 ++ t)%list /\
                Forall (routed name (Rotator.proxies (rotator w1))) t));
    [| | |exact Hi].
  - intros w0 H0; repeat split; auto.
    exists []; split; [now rewrite app_nil_r|constructor].
  - intros w1 w2 w3 H12 H23 H1.
    destruct (H12 H1) as [P2 [I2 [t1 [T1 F1]]]].
    destruct (H23 I2) as [P3 [I3 [t2 [T2 F2]]]].
    split; [congruence|split; [exact I3|]].
    exists (t1 ++ t2)%list; split; [rewrite T2, T1; now rewrite app_assoc|].
    apply Forall_app; split; [exact F1|now rewrite <- P2].
  - intros w0 o; apply after_attempt_routed.
Qed.

(** X14.  The loop stops at the first outcome that is not retryable:
    when the passes before pass [k] all met a retryable outcome and pass
    [k], within the budget, does not, the result of [checkUsername] is
    the one that pass returns, after exactly [k + 1] calls; what the
    remote side would answer later is never asked. *)
Theorem checkUsername_first_final
        (net : list Event -> string -> option string -> FetchOutcome)
        (name : string) (maxTries k : nat) (w : World) :
  (MIN_LEN <= String.length name)%nat ->
  (k < maxTries)%nat ->
  (forall j, (j < k)%nat -> retryable (pass_outcome net name j w) = true) ->
  retryable (pass_outcome net name k w) = false ->
  exists r,
    exec net (attempt name) (pass_world net name k w)
    = (Returned (Return r), pass_world net name (S k) w) /\
    exec net (checkUsername name maxTries) w
    = (Returned r, pass_world net name (S k) w) /\
    fetch_calls (trace (pass_world net name (S k) w))
    = (fetch_calls (trace w) + S k)%nat.
Proof.
  intros Hlen Hk Hretry Hstop.
  rewrite (checkUsername_long _ _ Hlen), pass_world_fetch_calls.
  cut (exists r,
          exec net (attempt name) (pass_world net name k w)
          = (Returned (Return r), pass_world net name (S k) w) /\
          exec net (attempts maxTries name) w
          = (Returned r, pass_world net name (S k) w)).
  { intros [r [Ha He]]; exists r; repeat split; assumption. }
  revert maxTries w Hk Hretry Hstop.
  induction k as [|k IH]; intros maxTries w Hk Hretry Hstop;
    (destruct maxTries as [|n]; [lia|]).
  - destruct (attempt_shape net name w) as [c [Hc [Hcont _]]].
    destruct c as [|r];
      [unfold pass_outcome in Hstop; simpl in Hstop;
       rewrite (proj1 Hcont eq_refl) in Hstop; discriminate|].
    exists r; split; [exact Hc|now apply attempts_return].
  - destruct (attempt_shape net name w) as [c [Hc [Hcont _]]].
    assert (c = Continue) as ->
      by (apply Hcont, (Hretry 0%nat); lia).
    rewrite (attempts_continue _ _ _ _ _ Hc).
    rewrite !(pass_world_succ net name (S k)), pass_world_succ.
    apply IH.
    + lia.
    + intros j Hj; unfold pass_outcome; rewrite <- pass_world_succ.
      apply (Hretry (S j)); lia.
    + unfold pass_outcome; rewrite <- pass_world_succ; exact Hstop.
Qed.

(** ** Invariants of a run *)

Lemma task_bucket (name : string) (maxTries : nat) :
  task name maxTries
  = (r <- await (checkUsername name maxTries) ;; bucket name r).
Proof. reflexivity. Qed.

Lemma keeps_run_sync (I : World -> Prop) {A : Type} (p : Prog A) (w : World) :
  keeps I p w ->
  I (snd (run_sync p w)) /\
  forall w', I w' -> keeps I (fst (run_sync p w)) w'.
Proof.
  revert w;
    induction p as [a|e|op k IHk|k IHk|nm px k IHk|ms k IHk|k IHk];
    intros w H; simpl in *; auto.
  - destruct H as [Hw Hk]; split; [exact Hw|]; intros w' Hw'; auto.
  - destruct H as [Hw Hk]; split; [exact Hw|]; intros w' Hw'; auto.
  - destruct H as [Hw Hk]; split; [exact Hw|]; intros w' Hw'; auto.
Qed.

Section PoolKeeps.

Variable net : list Event -> string -> option string -> FetchOutcome.
Variable sched : nat -> nat.
Variable I : World -> Prop.

Lemma keeps_resume {A : Type} (p : Prog A) (w : World) :
  (forall w0, I w0 -> keeps I p w0) ->
  I w ->
  I (snd (resume net p w)) /\
  forall w', I w' -> keeps I (fst (resume net p w)) w'.
Proof.
  intros Hp Hw; specialize (Hp w Hw).
  destruct p as [a|e|op k|k|nm px k|ms k|k].
  - simpl in *; auto.
  - simpl in *; auto.
  - apply (keeps_run_sync I (Do op k) w Hp).
  - apply (keeps_run_sync I (RotatorCurrent k) w Hp).
  - destruct Hp as [_ Hk]; apply keeps_run_sync, Hk, Hw.
  - destruct Hp as [_ Hk]; apply keeps_run_sync, Hk, Hw.
  - destruct Hp as [_ Hk]; apply keeps_run_sync, Hk, Hw.
Qed.

Lemma resume_nth_keeps (j : nat) (pool : list (Prog unit)) (w : World) :
  Forall (fun p => forall w0, I w0 -> keeps I p w0) pool ->
  I w ->
  I (snd (resume_nth net j pool w)) /\
  Forall (fun p => forall w0, I w0 -> keeps I p w0)
         (fst (resume_nth net j pool w)).
Proof.
  intros Hpool; revert j w.
  induction Hpool as [|p pool Hp Hpool IH]; intros j w Hw; simpl; auto.
  destruct (finished p).
  - destruct (IH j w Hw) as [Hw' Hpool'].
    destruct (resume_nth net j pool w); simpl in *; auto.
  - destruct j as [|j].
    + destruct (keeps_resume p w Hp Hw) as [Hw' Hp'].
      destruct (resume net p w); simpl in *; auto.
    + destruct (IH j w Hw) as [Hw' Hpool'].
      destruct (resume_nth net j pool w); simpl in *; auto.
Qed.

(** What every task keeps between its turns still holds after
    [Promise.all], however the turns are scheduled. *)
Lemma run_pool_keeps (fuel t : nat) (pool : list (Prog unit)) (w : World) :
  Forall (fun p => forall w0, I w0 -> keeps I p w0) pool ->
  I w ->
  I (snd (run_pool net sched fuel t pool w)).
Proof.
  revert t pool w; induction fuel as [|fuel IH]; intros t pool w Hpool Hw;
    simpl; auto.
  destruct (existsb thrown pool); auto.
  unfold pool_step.
  destruct (resume_nth_keeps (Nat.modulo (sched t) (unfinished pool))
                             pool w Hpool Hw) as [Hw' Hpool'].
  destruct (resume_nth net _ pool w); simpl in *; auto.
Qed.

End PoolKeeps.

Lemma keeps_bind {A B : Type} (I : World -> Prop) (allowed : Op -> Prop)
      (Q : A -> Prop) (n : nat) (p : Prog A) (f : A -> Prog B) :
  within allowed Q no_error n p ->
  (forall op w, allowed op -> I w -> I (apply_op op w)) ->
  (forall name proxy w, I w -> I (log (EvFetch name proxy) w)) ->
  (forall ms w, I w -> I (log (EvSleep ms) w)) ->
  (forall a w, Q a -> I w -> keeps I (f a) w) ->
  forall w, I w -> keeps I (bind p f) w.
Proof.
  intros H Hop Hfetch Hsleep Hf.
  induction H; intros w Hw; simpl; auto; contradiction.
Qed.

Lemma written_app (file : string) (t1 t2 : list Event) :
  written file (t1 ++ t2) = (written file t1 ++ written file t2)%list.
Proof.
  induction t1 as [|e t1 IH]; [reflexivity|].
  destruct e as [| |op]; simpl; auto.
  destruct op; simpl; auto.
  destruct (_ =? _)%string; simpl; now rewrite IH.
Qed.

Lemma js_incr_counted (n : nat) : js_incr (counted n) = counted (S n).
Proof.
  unfold js_incr, counted, JS_INCR_LIMIT.
  destruct (Z.ltb_spec (Z.min (Z.of_nat n) (2 ^ 53)) (2 ^ 53)); lia.
Qed.

Lemma consistent_log (e : Event) (w : World) :
  (forall f d, e <> EvOp (StreamWrite f d)) ->
  consistent w -> consistent (log e w).
Proof.
  intros He [A [B [C [D [E [F [G H]]]]]]].
  assert (Hw : forall file, written file (trace (log e w))
                            = written file (trace w)).
  { intros file; unfold log; cbn [trace]; rewrite written_app.
    destruct e as [| |op]; simpl; try apply app_nil_r.
    destruct op; simpl; try apply app_nil_r.
    exfalso; eapply He; reflexivity. }
  unfold consistent; rewrite !Hw; repeat split; assumption.
Qed.

Lemma consistent_neutral (op : Op) (w : World) :
  neutral op = true -> consistent w -> consistent (apply_op op w).
Proof.
  intros Hn Hc; unfold apply_op; apply consistent_log.
  - intros f d [= ->]; discriminate.
  - destruct op; try discriminate; exact Hc.
Qed.

Lemma result_shape_error (r : CheckResult) :
  result_shape r ->
  (status r =? "available")%string = false ->
  (status r =? "taken")%string = false ->
  (status r =? "invalid")%string = false ->
  status r = "error".
Proof.
  intros [H|[H|[H|[H|[H|H]]]]] Ha Ht Hi; destruct H as [Hs _];
    rewrite Hs in *; try discriminate; reflexivity.
Qed.

(** The four branches of a task keep the counters, the files and the
    lists in agreement. *)
Lemma keeps_bucket (name : string) (r : CheckResult) (w : World) :
  good_result name r -> consistent w ->
  keeps consistent (bucket name r) w.
Proof.
  intros [Hname Hshape] [A [B [C [D [E [F [G H]]]]]]].
  unfold bucket.
  destruct (status r =? "available")%string eqn:Ha;
    [|destruct (status r =? "taken")%string eqn:Ht;
      [|destruct (status r =? "invalid")%string eqn:Hi]];
    simpl; unfold consistent; cbn [state_available state_taken
      availableList takenList invalidList errorList trace apply_op log
      effect];
    rewrite ?written_app, ?map_app, ?length_app; simpl;
    rewrite ?app_nil_r, ?A, ?B, ?C, ?D, ?E, ?F.
  - rewrite js_incr_counted, Nat.add_1_r.
    repeat split; auto.
  - rewrite js_incr_counted, Nat.add_1_r.
    repeat split; auto.
  - apply String.eqb_eq in Hi.
    unfold invalid_line at 2; rewrite <- Hname.
    repeat split; auto.
    apply Forall_app; split; [exact G|repeat constructor; exact Hi].
  - pose proof (result_shape_error r Hshape Ha Ht Hi) as He.
    unfold error_line at 2; rewrite <- Hname.
    repeat split; auto.
    apply Forall_app; split; [exact H|repeat constructor; exact He].
Qed.

Lemma keeps_task (name : string) (maxTries : nat) (w : World) :
  consistent w -> keeps consistent (limit (task name maxTries)) w.
Proof.
  intros Hw; unfold limit; cbn [keeps]; split; [exact Hw|].
  rewrite task_bucket.
  apply (keeps_bind consistent only_next (good_result name)
           (calls_for maxTries name + 0)).
  - unfold await; eapply within_bind; [apply within_checkUsername|].
    intros r Hr; now apply within_yield, within_ret.
  - intros op w0 ->; now apply consistent_neutral.
  - intros u p w0; apply consistent_log; discriminate.
  - intros ms w0; apply consistent_log; discriminate.
  - intros r w0; apply keeps_bucket.
Qed.

Lemma consistent_init (proxies : list string) :
  consistent (init_world proxies).
Proof. unfold consistent; simpl; repeat split; constructor. Qed.

Lemma consistent_prelude (usernames proxies : list string) :
  consistent (snd (run_sync (prelude usernames proxies)
                            (init_world proxies))).
Proof.
  unfold prelude; cbn [run_sync snd].
  repeat (apply consistent_neutral; [reflexivity|]).
  apply consistent_init.
Qed.

Lemma consistent_epilogue (w0 w : World) :
  consistent w -> consistent (snd (run_sync (epilogue w0) w)).
Proof.
  intros Hw; unfold epilogue; cbn [run_sync snd].
  repeat (apply consistent_neutral; [reflexivity|]).
  exact Hw.
Qed.

(** The world that [run] ends in is consistent, under every schedule. *)
Lemma run_consistent
      (net : list Event -> string -> option string -> FetchOutcome)
      (sched : nat -> nat) (usernames proxies : list string) :
  consistent (snd (run net sched usernames proxies)).
Proof.
  unfold run; destruct usernames as [|name rest] eqn:Hu.
  - apply consistent_neutral; [reflexivity|apply consistent_init].
  - rewrite <- Hu; unfold fan_out.
    assert (Hw : consistent
                   (snd (run_pool net sched (turns usernames proxies) 0
                           (map (fun name0 =>
                                   limit (task name0 (maxTries_of proxies)))
                                usernames)
                           (snd (run_sync (prelude usernames proxies)
                                          (init_world proxies)))))).
    { apply run_pool_keeps; [|apply consistent_prelude].
      apply Forall_forall; intros p Hin.
      apply in_map_iff in Hin as [name0 [<- _]].
      intros w0; apply keeps_task. }
    destruct (run_pool _ _ _ _ _ _) as [pool w]; simpl in Hw.
    destruct (find thrown pool) as [[]|]; cbn [snd];
      try exact Hw; apply consistent_epilogue, Hw.
Qed.

(** X15.  When [run] ends, the two counters shown in the title and in
    the summary are the numbers of names in the available and the taken
    list (as far as a counter can count, 2^53), under every schedule of
    the tasks. *)
Theorem run_counters_match_lists
        (net : list Event -> string -> option string -> FetchOutcome)
        (sched : nat -> nat) (usernames proxies : list string) :
  let w := snd (run net sched usernames proxies) in
  state_available w = counted (List.length (availableList w)) /\
  state_taken w = counted (List.length (takenList w)).
Proof.
  destruct (run_consistent net sched usernames proxies) as [A [B _]].
  split; assumption.
Qed.

(** X16.  When [run] ends, what has been written to the stream of each
    result file is, line for line and in order, the list kept in memory
    for it: available.txt and taken.txt hold the names of their lists,
    invalid.txt and errors.txt one line for each result of theirs. *)
Theorem run_files_match_lists
        (net : list Event -> string -> option string -> FetchOutcome)
        (sched : nat -> nat) (usernames proxies : list string) :
  let w := snd (run net sched usernames proxies) in
  written "available.txt" (trace w) = map name_line (availableList w) /\
  written "taken.txt" (trace w) = map name_line (takenList w) /\
  written "invalid.txt" (trace w) = map invalid_line (invalidList w) /\
  written "errors.txt" (trace w) = map error_line (errorList w).
Proof.
  destruct (run_consistent net sched usernames proxies)
    as [_ [_ [C [D [E [F _]]]]]].
  repeat split; assumption.
Qed.

(** X17.  When [run] ends, every result in the invalid list has
    category invalid and every result in the error list has category
    error. *)
Theorem run_lists_match_categories
        (net : list Event -> string -> option string -> FetchOutcome)
        (sched : nat -> nat) (usernames proxies : list string) :
  let w := snd (run net sched usernames proxies) in
  Forall (fun r => status r = "invalid") (invalidList w) /\
  Forall (fun r => status r = "error") (errorList w).
Proof.
  destruct (run_consistent net sched usernames proxies)
    as [_ [_ [_ [_ [_ [_ [G H]]]]]]].
  split; assumption.
Qed.

(** ** The outbound calls of a run *)

Lemma within_allow {A : Type} (allowed allowed' : Op -> Prop)
      (Q : A -> Prop) (E : JsError -> Prop) (n : nat) (p : Prog A) :
  within allowed Q E n p ->
  (forall op, allowed op -> allowed' op) ->
  within allowed' Q E n p.
Proof.
  intros H Ha; induction H; econstructor; eauto.
Qed.

Lemma within_run_sync {A : Type} (Q : A -> Prop) (E : JsError -> Prop)
      (n : nat) (p : Prog A) (w : World) :
  within any_op Q E n p ->
  within any_op Q E n (fst (run_sync p w)) /\
  fetch_calls (trace (snd (run_sync p w))) = fetch_calls (trace w).
Proof.
  intros H; revert w; induction H; intros w; simpl;
    try (split; [econstructor; eauto|reflexivity]).
  - destruct (IHwithin (apply_op op w)) as [Hk Hn].
    split; [exact Hk|now rewrite Hn, fetch_calls_apply_op].
  - apply H0.
Qed.

Lemma within_resume
      (net : list Event -> string -> option string -> FetchOutcome)
      {A : Type} (Q : A -> Prop) (E : JsError -> Prop)
      (n : nat) (p : Prog A) (w : World) :
  within any_op Q E n p ->
  exists n',
    within any_op Q E n' (fst (resume net p w)) /\
    (fetch_calls (trace (snd (resume net p w))) + n'
     <= fetch_calls (trace w) + n)%nat.
Proof.
  intros H; destruct H.
  - exists n; simpl; split; [now constructor|lia].
  - exists n; simpl; split; [now constructor|lia].
  - exists n.
    destruct (within_run_sync Q E n (Do op k) w
                (within_do _ _ _ _ _ _ H H0)) as [Hk Hn].
    split; [exact Hk|]; change (resume net (Do op k) w)
      with (run_sync (Do op k) w); lia.
  - exists n.
    destruct (within_run_sync Q E n (RotatorCurrent k) w
                (within_current _ _ _ _ _ H)) as [Hk Hn].
    split; [exact Hk|]; change (resume net (RotatorCurrent k) w)
      with (run_sync (RotatorCurrent k) w); lia.
  - exists n; simpl.
    destruct (within_run_sync Q E n (k (net (trace w) name proxy))
                (log (EvFetch name proxy) w) (H _)) as [Hk Hn].
    split; [exact Hk|]; rewrite Hn, fetch_calls_log; simpl; lia.
  - exists n; simpl.
    destruct (within_run_sync Q E n k (log (EvSleep ms) w) H) as [Hk Hn].
    split; [exact Hk|]; rewrite Hn, fetch_calls_log; simpl; lia.
  - exists n; simpl.
    destruct (within_run_sync Q E n k w H) as [Hk Hn].
    split; [exact Hk|]; lia.
Qed.

Section PoolCalls.

Variable net : list Event -> string -> option string -> FetchOutcome.
Variable sched : nat -> nat.

Lemma resume_nth_calls (pool : list (Prog unit)) (b : nat) :
  pool_calls pool b ->
  forall (j : nat) (w : World),
  exists b',
    pool_calls (fst (resume_nth net j pool w)) b' /\
    (fetch_calls (trace (snd (resume_nth net j pool w))) + b'
     <= fetch_calls (trace w) + b)%nat.
Proof.
  induction 1 as [|p n pool b Hp Hpool IH]; intros j w; simpl.
  - exists 0%nat; split; [constructor|lia].
  - destruct (finished p).
    + destruct (IH j w) as [b' [Hb' Hle]].
      destruct (resume_nth net j pool w); simpl in *.
      exists (n + b')%nat; split; [now constructor|lia].
    + destruct j as [|j].
      * destruct (within_resume net _ _ n p w Hp) as [n' [Hn' Hle]].
        destruct (resume net p w); simpl in *.
        exists (n' + b)%nat; split; [now constructor|lia].
      * destruct (IH j w) as [b' [Hb' Hle]].
        destruct (resume_nth net j pool w); simpl in *.
        exists (n + b')%nat; split; [now constructor|lia].
Qed.

Lemma run_pool_calls (fuel : nat) :
  forall (t : nat) (pool : list (Prog unit)) (b : nat) (w : World),
    pool_calls pool b ->
    (fetch_calls (trace (snd (run_pool net sched fuel t pool w)))
     <= fetch_calls (trace w) + b)%nat.
Proof.
  induction fuel as [|fuel IH]; intros t pool b w Hpool; simpl; [lia|].
  destruct (existsb thrown pool); simpl; [lia|].
  unfold pool_step.
  destruct (resume_nth_calls pool b Hpool
              (Nat.modulo (sched t) (unfinished pool)) w)
    as [b' [Hb' Hle]].
  destruct (resume_nth net _ pool w) as [pool' w']; simpl in *.
  specialize (IH (S t) pool' b' w' Hb'); lia.
Qed.

End PoolCalls.

Lemma within_task (name : string) (maxTries : nat) :
  within any_op any_value any_error (calls_for maxTries name)
         (limit (task name maxTries)).
Proof.
  assert (Hcu : within any_op (good_result name) any_error
                       (calls_for maxTries name)
                       (checkUsername name maxTries)).
  { apply within_weaken with (Q := good_result name) (E := no_error)
                             (n := calls_for maxTries name);
      [|auto|intros e []|lia].
    apply within_allow with (allowed := only_next); [|intros; exact I].
    apply within_checkUsername. }
  unfold limit; apply within_yield; rewrite task_bucket.
  replace (calls_for maxTries name)
    with (calls_for maxTries name + 0 + 0)%nat by lia.
  apply within_bind with (Q := good_result name).
  - unfold await; eapply within_bind; [exact Hcu|].
    intros r Hr; now apply within_yield, within_ret.
  - intros r _; unfold bucket.
    destruct (_ =? _)%string;
      [|destruct (_ =? _)%string; [|destruct (_ =? _)%string]];
      repeat (apply within_do; [exact I|]); now apply within_ret.
Qed.

Lemma pool_calls_initial (maxTries : nat) (usernames : list string) :
  pool_calls (map (fun name => limit (task name maxTries)) usernames)
             (list_sum (map (calls_for maxTries) usernames)).
Proof.
  induction usernames as [|name rest IH]; simpl; constructor;
    [apply within_task|exact IH].
Qed.

Lemma list_sum_calls_for (maxTries : nat) (usernames : list string) :
  list_sum (map (calls_for maxTries) usernames)
  = (List.length
       (filter (fun name => (MIN_LEN <=? String.length name)%nat) usernames)
     * maxTries)%nat.
Proof.
  induction usernames as [|name rest IH]; [reflexivity|].
  cbn [map list_sum fold_right filter].
  fold (list_sum (map (calls_for maxTries) rest)).
  rewrite IH; unfold calls_for.
  destruct (Nat.ltb_spec (String.length name) MIN_LEN);
    destruct (Nat.leb_spec MIN_LEN (String.length name));
    cbn [List.length]; lia.
Qed.

Lemma run_total_calls
      (net : list Event -> string -> option string -> FetchOutcome)
      (sched : nat -> nat) (usernames proxies : list string) :
  (fetch_calls (trace (snd (run net sched usernames proxies)))
   <= List.length
        (filter (fun name => (MIN_LEN <=? String.length name)%nat) usernames)
      * Nat.max 3 (2 * List.length proxies))%nat.
Proof.
  replace (Nat.max 3 (2 * List.length proxies)) with (maxTries_of proxies)
    by (unfold maxTries_of; destruct proxies; cbn [List.length]; lia).
  rewrite <- list_sum_calls_for.
  unfold run; destruct usernames as [|name rest] eqn:Hu;
    [cbn [snd]; rewrite fetch_calls_apply_op; apply Nat.le_refl|].
  rewrite <- Hu; unfold fan_out.
  pose proof (run_pool_calls net sched (turns usernames proxies) 0 _ _
                (snd (run_sync (prelude usernames proxies)
                               (init_world proxies)))
                (pool_calls_initial (maxTries_of proxies) usernames)) as Hle.
  change (fetch_calls (trace (snd (run_sync (prelude usernames proxies)
                                            (init_world proxies)))))
    with 0%nat in Hle.
  destruct (run_pool _ _ _ _ _ _) as [pool w]; simpl in Hle.
  destruct (find thrown pool) as [[]|]; cbn [snd]; try exact Hle;
    unfold epilogue; cbn [run_sync snd];
    rewrite !fetch_calls_apply_op; exact Hle.
Qed.

(** ** The outbound calls of a run, name by name *)

Lemma calls_le_weaken {A : Type} (u : string) (n n' : nat) (p : Prog A) :
  calls_le u n p -> (n <= n')%nat -> calls_le u n' p.
Proof.
  intros H; revert n'.
  induction H as [n a|n e|n op k _ IH|n k _ IH|n name proxy k _ IH
                 |n ms k _ IH|n k _ IH]; intros n' Hle.
  - apply calls_le_ret.
  - apply calls_le_throw.
  - apply calls_le_do, IH, Hle.
  - apply calls_le_current; intros x; apply IH, Hle.
  - destruct (name =? u)%string eqn:Hname.
    + destruct n' as [|n']; [lia|].
      pose proof (calls_le_fetch u n' name proxy k) as Hf.
      rewrite Hname in Hf; apply Hf; intros o; apply IH; lia.
    + pose proof (calls_le_fetch u n' name proxy k) as Hf.
      rewrite Hname in Hf; apply Hf; intros o; apply IH; lia.
  - apply calls_le_sleep, IH, Hle.
  - apply calls_le_yield, IH, Hle.
Qed.

Lemma calls_le_fetch_plus {A : Type} (u : string) (n : nat) (name : string)
      (proxy : option string) (k : FetchOutcome -> Prog A) :
  (forall o, calls_le u n (k o)) ->
  calls_le u ((if (name =? u)%string then 1 else 0) + n)
           (AwaitFetch name proxy k).
Proof.
  intros Hk; pose proof (calls_le_fetch u n name proxy k Hk) as Hf.
  destruct (name =? u)%string; exact Hf.
Qed.

Lemma calls_le_bind {A B : Type} (u : string) (n m : nat)
      (p : Prog A) (f : A -> Prog B) :
  calls_le u n p ->
  (forall a, calls_le u m (f a)) ->
  calls_le u (n + m) (bind p f).
Proof.
  intros H Hf.
  induction H as [n a|n e|n op k _ IH|n k _ IH|n name proxy k _ IH
                 |n ms k _ IH|n k _ IH]; simpl.
  - apply calls_le_weaken with (n := m); [apply Hf|lia].
  - apply calls_le_throw.
  - apply calls_le_do, IH.
  - apply calls_le_current, IH.
  - apply calls_le_weaken
      with (n := ((if (name =? u)%string then 1 else 0) + (n + m))%nat);
      [apply calls_le_fetch_plus, IH|destruct (name =? u)%string; lia].
  - apply calls_le_sleep, IH.
  - apply calls_le_yield, IH.
Qed.

Lemma calls_le_try_catch {A : Type} (u : string) (n m : nat)
      (p : Prog A) (h : JsError -> Prog A) :
  calls_le u n p ->
  (forall e, calls_le u m (h e)) ->
  calls_le u (n + m) (try_catch p h).
Proof.
  intros H Hh.
  induction H as [n a|n e|n op k _ IH|n k _ IH|n name proxy k _ IH
                 |n ms k _ IH|n k _ IH]; simpl.
  - apply calls_le_ret.
  - apply calls_le_weaken with (n := m); [apply Hh|lia].
  - apply calls_le_do, IH.
  - apply calls_le_current, IH.
  - apply calls_le_weaken
      with (n := ((if (name =? u)%string then 1 else 0) + (n + m))%nat);
      [apply calls_le_fetch_plus, IH|destruct (name =? u)%string; lia].
  - apply calls_le_sleep, IH.
  - apply calls_le_yield, IH.
Qed.

Lemma calls_le_try_finally {A : Type} (u : string) (n m : nat)
      (p : Prog A) (fin : Prog unit) :
  calls_le u n p ->
  calls_le u m fin ->
  calls_le u (n + m) (try_finally p fin).
Proof.
  intros H Hfin.
  induction H as [n a|n e|n op k _ IH|n k _ IH|n name proxy k _ IH
                 |n ms k _ IH|n k _ IH]; simpl.
  - apply calls_le_weaken with (n := (m + 0)%nat); [|lia].
    apply calls_le_bind; [exact Hfin|intros _; apply calls_le_ret].
  - apply calls_le_weaken with (n := (m + 0)%nat); [|lia].
    apply calls_le_bind; [exact Hfin|intros _; apply calls_le_throw].
  - apply calls_le_do, IH.
  - apply calls_le_current, IH.
  - apply calls_le_weaken
      with (n := ((if (name =? u)%string then 1 else 0) + (n + m))%nat);
      [apply calls_le_fetch_plus, IH|destruct (name =? u)%string; lia].
  - apply calls_le_sleep, IH.
  - apply calls_le_yield, IH.
Qed.

Lemma calls_le_sleep_ms (u : string) (ms : Z) : calls_le u 0 (sleep ms).
Proof. unfold sleep; apply calls_le_sleep, calls_le_ret. Qed.

Lemma calls_le_safeReadBody (u : string) (res : Response) :
  calls_le u 0 (safeReadBody res).
Proof.
  unfold safeReadBody, text_or_empty; destruct (includes _ _).
  - apply calls_le_yield; destruct (res_json res);
      [apply calls_le_ret|apply calls_le_yield, calls_le_ret].
  - apply calls_le_yield, calls_le_ret.
Qed.

Lemma calls_le_on_response (u name : string) (res : Response) :
  calls_le u 0 (on_response name res).
Proof.
  assert (Hcont : forall ms,
             calls_le u 0 (Do RotatorNext (sleep ms ;; Ret Continue))).
  { intros ms; apply calls_le_do.
    apply (calls_le_bind u 0 0); [apply calls_le_sleep_ms|].
    intros _; apply calls_le_ret. }
  unfold on_response.
  destruct (res_ok res); [apply calls_le_ret|].
  destruct (res_status res =? 409); [apply calls_le_ret|].
  destruct (res_status res =? 429); [apply Hcont|].
  destruct (res_status res =? 400).
  - apply (calls_le_bind u 0 0); [apply calls_le_safeReadBody|].
    intros body; apply calls_le_ret.
  - apply (calls_le_bind u 0 0); [apply calls_le_safeReadBody|].
    intros body; apply calls_le_do.
    destruct ((500 <=? res_status res) && (res_status res <=? 599)).
    + apply (calls_le_bind u 0 0); [apply calls_le_sleep_ms|].
      intros _; apply calls_le_ret.
    + apply calls_le_ret.
Qed.

Lemma calls_le_attempt (u name : string) :
  calls_le u (if (name =? u)%string then 1 else 0) (attempt name).
Proof.
  set (own := if (name =? u)%string then 1%nat else 0%nat).
  unfold attempt; apply calls_le_current; intros proxy.
  apply calls_le_weaken with (n := (own + 0 + 0 + 0)%nat); [|lia].
  apply calls_le_try_finally; [|apply calls_le_sleep_ms].
  apply calls_le_try_catch.
  - unfold try_block; apply calls_le_bind.
    + unfold fetchCheck.
      apply calls_le_weaken with (n := (own + 0)%nat); [|lia].
      apply calls_le_fetch_plus; intros [res|err];
        [apply calls_le_ret|apply calls_le_throw].
    + intros res; apply calls_le_on_response.
  - intros err; unfold catch_block; destruct (isProxyError err).
    + apply calls_le_do.
      apply (calls_le_bind u 0 0); [apply calls_le_sleep_ms|].
      intros _; apply calls_le_ret.
    + apply calls_le_ret.
Qed.

Lemma calls_le_attempts (u name : string) (n : nat) :
  calls_le u (if (name =? u)%string then n else 0) (attempts n name).
Proof.
  induction n as [|n IH].
  - simpl; apply calls_le_ret.
  - cbn [attempts].
    apply calls_le_weaken
      with (n := ((if (name =? u)%string then 1 else 0)
                  + (if (name =? u)%string then n else 0))%nat);
      [|destruct (name =? u)%string; lia].
    apply calls_le_bind; [apply calls_le_attempt|].
    intros [|r]; [exact IH|apply calls_le_ret].
Qed.

Lemma calls_le_checkUsername (u name : string) (maxTries : nat) :
  calls_le u (calls_of u maxTries name) (checkUsername name maxTries).
Proof.
  unfold checkUsername, calls_of, calls_for; destruct (_ <? _)%nat.
  - apply calls_le_ret.
  - apply calls_le_attempts.
Qed.

Lemma calls_le_task (u name : string) (maxTries : nat) :
  calls_le u (calls_of u maxTries name) (limit (task name maxTries)).
Proof.
  unfold limit; apply calls_le_yield; rewrite task_bucket.
  apply calls_le_weaken with (n := (calls_of u maxTries name + 0 + 0)%nat);
    [|lia].
  apply calls_le_bind.
  - unfold await; apply calls_le_bind; [apply calls_le_checkUsername|].
    intros r; apply calls_le_yield, calls_le_ret.
  - intros r; unfold bucket.
    destruct (_ =? _)%string;
      [|destruct (_ =? _)%string; [|destruct (_ =? _)%string]];
      repeat apply calls_le_do; apply calls_le_ret.
Qed.

Lemma calls_to_snoc (u : string) (t : list Event) (e : Event) :
  calls_to u (t ++ [e])
  = (calls_to u t + (if is_fetch_for u e then 1 else 0))%nat.
Proof.
  unfold calls_to; rewrite filter_app, length_app; simpl.
  destruct (is_fetch_for u e); reflexivity.
Qed.

Lemma calls_to_apply_op (u : string) (op : Op) (w : World) :
  calls_to u (trace (apply_op op w)) = calls_to u (trace w).
Proof.
  unfold apply_op, log; cbn [trace].
  rewrite calls_to_snoc, trace_effect; simpl; lia.
Qed.

Lemma calls_to_log (u : string) (e : Event) (w : World) :
  calls_to u (trace (log e w))
  = (calls_to u (trace w) + (if is_fetch_for u e then 1 else 0))%nat.
Proof. unfold log; cbn [trace]; apply calls_to_snoc. Qed.

(** A synchronous stretch makes no outbound call. *)
Lemma calls_to_run_sync {A : Type} (u : string) (p : Prog A) (w : World) :
  calls_to u (trace (snd (run_sync p w))) = calls_to u (trace w).
Proof.
  revert w;
    induction p as [a|e|op k IHk|k IHk|nm px k IHk|ms k IHk|k IHk];
    intros w; simpl; try reflexivity.
  - rewrite IHk; apply calls_to_apply_op.
  - apply IHk.
Qed.

Lemma calls_le_run_sync {A : Type} (u : string) (n : nat) (p : Prog A)
      (w : World) :
  calls_le u n p -> calls_le u n (fst (run_sync p w)).
Proof.
  intros H; revert w.
  induction H as [n a|n e|n op k _ IH|n k _ IH|n name proxy k Hk _
                 |n ms k Hk _|n k Hk _]; intros w; simpl.
  - apply calls_le_ret.
  - apply calls_le_throw.
  - apply IH.
  - apply IH.
  - apply calls_le_fetch, Hk.
  - apply calls_le_sleep, Hk.
  - apply calls_le_yield, Hk.
Qed.

Lemma calls_le_resume
      (net : list Event -> string -> option string -> FetchOutcome)
      {A : Type} (u : string) (n : nat) (p : Prog A) (w : World) :
  calls_le u n p ->
  exists n',
    calls_le u n' (fst (resume net p w)) /\
    (calls_to u (trace (snd (resume net p w))) + n'
     <= calls_to u (trace w) + n)%nat.
Proof.
  intros H; destruct H as [n a|n e|n op k Hk|n k Hk|n name proxy k Hk
                          |n ms k Hk|n k Hk].
  - exists n; simpl; split; [apply calls_le_ret|lia].
  - exists n; simpl; split; [apply calls_le_throw|lia].
  - exists n; change (resume net (Do op k) w) with (run_sync (Do op k) w).
    split; [apply calls_le_run_sync, calls_le_do, Hk|].
    rewrite calls_to_run_sync; lia.
  - exists n; change (resume net (RotatorCurrent k) w)
      with (run_sync (RotatorCurrent k) w).
    split; [apply calls_le_run_sync, calls_le_current, Hk|].
    rewrite calls_to_run_sync; lia.
  - exists n; simpl; split; [apply calls_le_run_sync, Hk|].
    rewrite calls_to_run_sync, calls_to_log; simpl.
    destruct (name =? u)%string; lia.
  - exists n; simpl; split; [apply calls_le_run_sync, Hk|].
    rewrite calls_to_run_sync, calls_to_log; simpl; lia.
  - exists n; simpl; split; [apply calls_le_run_sync, Hk|].
    rewrite calls_to_run_sync; lia.
Qed.

Section PoolCallsTo.

Variable net : list Event -> string -> option string -> FetchOutcome.
Variable sched : nat -> nat.
Variable u : string.

Lemma resume_nth_calls_to (pool : list (Prog unit)) (b : nat) :
  pool_calls_to u pool b ->
  forall (j : nat) (w : World),
  exists b',
    pool_calls_to u (fst (resume_nth net j pool w)) b' /\
    (calls_to u (trace (snd (resume_nth net j pool w))) + b'
     <= calls_to u (trace w) + b)%nat.
Proof.
  induction 1 as [|p n pool b Hp Hpool IH]; intros j w; simpl.
  - exists 0%nat; split; [constructor|lia].
  - destruct (finished p).
    + destruct (IH j w) as [b' [Hb' Hle]].
      destruct (resume_nth net j pool w); simpl in *.
      exists (n + b')%nat; split; [now constructor|lia].
    + destruct j as [|j].
      * destruct (calls_le_resume net u n p w Hp) as [n' [Hn' Hle]].
        destruct (resume net p w); simpl in *.
        exists (n' + b)%nat; split; [now constructor|lia].
      * destruct (IH j w) as [b' [Hb' Hle]].
        destruct (resume_nth net j pool w); simpl in *.
        exists (n + b')%nat; split; [now constructor|lia].
Qed.

Lemma run_pool_calls_to (fuel : nat) :
  forall (t : nat) (pool : list (Prog unit)) (b : nat) (w : World),
    pool_calls_to u pool b ->
    (calls_to u (trace (snd (run_pool net sched fuel t pool w)))
     <= calls_to u (trace w) + b)%nat.
Proof.
  induction fuel as [|fuel IH]; intros t pool b w Hpool; simpl; [lia|].
  destruct (existsb thrown pool); simpl; [lia|].
  unfold pool_step.
  destruct (resume_nth_calls_to pool b Hpool
              (Nat.modulo (sched t) (unfinished pool)) w)
    as [b' [Hb' Hle]].
  destruct (resume_nth net _ pool w) as [pool' w']; simpl in *.
  specialize (IH (S t) pool' b' w' Hb'); lia.
Qed.

End PoolCallsTo.

Lemma pool_calls_to_initial (u : string) (maxTries : nat)
      (usernames : list string) :
  pool_calls_to u (map (fun name => limit (task name maxTries)) usernames)
                (list_sum (map (calls_of u maxTries) usernames)).
Proof.
  induction usernames as [|name rest IH]; simpl; constructor;
    [apply calls_le_task|exact IH].
Qed.

Lemma list_sum_calls_of (u : string) (maxTries : nat)
      (usernames : list string) :
  list_sum (map (calls_of u maxTries) usernames)
  = (count_occ string_dec usernames u * calls_for maxTries u)%nat.
Proof.
  induction usernames as [|name rest IH]; [reflexivity|].
  cbn [map list_sum fold_right count_occ].
  fold (list_sum (map (calls_of u maxTries) rest)).
  rewrite IH; unfold calls_of.
  destruct (String.eqb_spec name u) as [->|Hne];
    destruct (string_dec _ _) as [Heq|Hneq]; try congruence; lia.
Qed.

Lemma run_calls_to
      (net : list Event -> string -> option string -> FetchOutcome)
      (sched : nat -> nat) (usernames proxies : list string) (u : string) :
  (calls_to u (trace (snd (run net sched usernames proxies)))
   <= count_occ string_dec usernames u * calls_for (maxTries_of proxies) u)%nat.
Proof.
  rewrite <- list_sum_calls_of.
  unfold run; destruct usernames as [|name rest] eqn:Hu;
    [cbn [snd]; rewrite calls_to_apply_op; apply Nat.le_refl|].
  rewrite <- Hu; unfold fan_out.
  pose proof (run_pool_calls_to net sched u (turns usernames proxies) 0 _ _
                (snd (run_sync (prelude usernames proxies)
                               (init_world proxies)))
                (pool_calls_to_initial u (maxTries_of proxies) usernames))
    as Hle.
  rewrite calls_to_run_sync in Hle.
  change (calls_to u (trace (init_world proxies))) with 0%nat in Hle.
  destruct (run_pool _ _ _ _ _ _) as [pool w]; simpl in Hle.
  destruct (find thrown pool) as [[]|]; cbn [snd]; try exact Hle;
    rewrite calls_to_run_sync; exact Hle.
Qed.

(** X18.  Under every schedule of the tasks and whatever the remote side
    answers, a run makes, for each name, at most [max(3, 2P)] outbound
    calls for each time the name stands in the list: at most [max(3, 2P)]
    for a name that stands there once, none for a name that is not in the
    list, and none for a name of fewer than [MIN_LEN] characters.  All
    calls together are at most [max(3, 2P)] times the number of entries
    of at least [MIN_LEN] characters. *)
Theorem run_call_bound
        (net : list Event -> string -> option string -> FetchOutcome)
        (sched : nat -> nat) (usernames proxies : list string) :
  (forall name,
     (calls_to name (trace (snd (run net sched usernames proxies)))
      <= count_occ string_dec usernames name
         * Nat.max 3 (2 * List.length proxies))%nat) /\
  (forall name,
     (String.length name < MIN_LEN)%nat ->
     calls_to name (trace (snd (run net sched usernames proxies))) = 0%nat) /\
  (forall name,
     ~ In name usernames ->
     calls_to name (trace (snd (run net sched usernames proxies))) = 0%nat) /\
  (forall name,
     NoDup usernames ->
     (calls_to name (trace (snd (run net sched usernames proxies)))
      <= Nat.max 3 (2 * List.length proxies))%nat) /\
  (fetch_calls (trace (snd (run net sched usernames proxies)))
   <= List.length
        (filter (fun name => (MIN_LEN <=? String.length name)%nat) usernames)
      * Nat.max 3 (2 * List.length proxies))%nat.
Proof.
  assert (Hmax : maxTries_of proxies = Nat.max 3 (2 * List.length proxies))
    by (unfold maxTries_of; destruct proxies; cbn [List.length]; lia).
  assert (Hfor : forall name,
             (calls_for (maxTries_of proxies) name
              <= Nat.max 3 (2 * List.length proxies))%nat).
  { intros name; rewrite <- Hmax; unfold calls_for.
    destruct (_ <? _)%nat; lia. }
  split; [|split; [|split; [|split]]].
  - intros name.
    pose proof (run_calls_to net sched usernames proxies name) as Hle.
    pose proof (Hfor name) as Hf.
    eapply Nat.le_trans; [exact Hle|].
    apply Nat.mul_le_mono_l, Hf.
  - intros name Hshort.
    pose proof (run_calls_to net sched usernames proxies name) as Hle.
    unfold calls_for in Hle.
    destruct (Nat.ltb_spec (String.length name) MIN_LEN) as [_|Hge];
      [|lia].
    rewrite Nat.mul_0_r in Hle; lia.
  - intros name Hnotin.
    pose proof (run_calls_to net sched usernames proxies name) as Hle.
    rewrite (proj1 (count_occ_not_In string_dec usernames name) Hnotin)
      in Hle.
    simpl in Hle; lia.
  - intros name Hnodup.
    pose proof (run_calls_to net sched usernames proxies name) as Hle.
    pose proof (proj1 (NoDup_count_occ string_dec usernames) Hnodup name)
      as Hocc.
    pose proof (Hfor name) as Hf.
    eapply Nat.le_trans; [exact Hle|].
    eapply Nat.le_trans; [apply Nat.mul_le_mono_r, Hocc|].
    rewrite Nat.mul_1_l; exact Hf.
  - apply run_total_calls.
Qed.

(** ** What a run does first *)

Lemma reset_first_log (e : Event) (w : World) :
  reset_first w -> reset_first (log e w).
Proof.
  intros [t Ht]; exists (t ++ [e])%list.
  unfold log; cbn [trace]; now rewrite Ht, app_assoc.
Qed.

Lemma reset_first_apply_op (op : Op) (w : World) :
  reset_first w -> reset_first (apply_op op w).
Proof.
  intros [t Ht]; unfold apply_op; apply reset_first_log.
  exists t; now rewrite trace_effect.
Qed.

Lemma keeps_reset_first {A : Type} (p : Prog A) (w : World) :
  reset_first w -> keeps reset_first p w.
Proof.
  revert w;
    induction p as [a|e|op k IHk|k IHk|nm px k IHk|ms k IHk|k IHk];
    intros w Hw; simpl; auto using reset_first_apply_op.
  - split; [exact Hw|]; intros w' o Hw'; apply IHk, reset_first_log, Hw'.
  - split; [exact Hw|]; intros w' Hw'; apply IHk, reset_first_log, Hw'.
Qed.

(** X19.  A run over a non-empty list resets the four result files and
    opens their streams before anything else: the history of the run
    begins with these eight operations, so no call is made and no result
    is written before the results of an earlier run are gone. *)
Theorem run_resets_files_first
        (net : list Event -> string -> option string -> FetchOutcome)
        (sched : nat -> nat) (usernames proxies : list string) :
  usernames <> [] ->
  exists t,
    trace (snd (run net sched usernames proxies))
    = (reset_events ++ t)%list.
Proof.
  intros Hne; unfold run.
  destruct usernames as [|name rest] eqn:Hu; [congruence|].
  rewrite <- Hu; unfold fan_out.
  assert (Hw : reset_first
                 (snd (run_pool net sched (turns usernames proxies) 0
                         (map (fun name0 =>
                                 limit (task name0 (maxTries_of proxies)))
                              usernames)
                         (snd (run_sync (prelude usernames proxies)
                                        (init_world proxies)))))).
  { apply run_pool_keeps.
    - apply Forall_forall; intros p _ w0; apply keeps_reset_first.
    - eexists; unfold prelude; cbn [run_sync snd apply_op log trace effect].
      rewrite <- !app_assoc; reflexivity. }
  destruct (run_pool _ _ _ _ _ _) as [pool w]; simpl in Hw.
  destruct (find thrown pool) as [[]|]; cbn [snd]; try exact Hw;
    unfold epilogue; cbn [run_sync snd];
    repeat apply reset_first_apply_op; exact Hw.
Qed.

(* ================================================================== *)
(** * The further properties at sample inputs *)
(* ================================================================== *)

Example parseList_sample :
  parseList ("  alice " ++ String CR (String LF "")
             ++ String LF "" ++ "bob" ++ String LF "   ")
  = ["alice"; "bob"].
Proof. reflexivity. Qed.

Example normalizeProxy_sample :
  map normalizeProxy ["1.2.3.4:8080"; "HTTPS://x:1"; "user:pw@h:1"; ""]
  = [Some "http://1.2.3.4:8080"; Some "HTTPS://x:1";
     Some "http://user:pw@h:1"; None].
Proof. reflexivity. Qed.

Lemma parseList_join_witness :
  (MoreSamples.lf = String LF EmptyString \/
   MoreSamples.lf = String CR (String LF EmptyString)) /\
  Forall clean_line MoreSamples.two_lines /\
  parseList (String.concat MoreSamples.lf MoreSamples.two_lines)
  = MoreSamples.two_lines.
Proof.
  assert (Hsep : MoreSamples.lf = String LF EmptyString \/
                 MoreSamples.lf = String CR (String LF EmptyString))
    by (left; reflexivity).
  assert (Hclean : Forall clean_line MoreSamples.two_lines)
    by (repeat constructor).
  split; [exact Hsep|split; [exact Hclean|]].
  exact (parseList_join MoreSamples.lf MoreSamples.two_lines Hsep Hclean).
Defined.

Lemma normalizeProxy_scheme_witness :
  "1.2.3.4:8080" <> EmptyString /\
  has_scheme "1.2.3.4:8080" = false /\
  normalizeProxy "1.2.3.4:8080" = Some ("http://" ++ "1.2.3.4:8080") /\
  has_scheme "HTTPS://x:1" = true /\
  normalizeProxy "HTTPS://x:1" = Some "HTTPS://x:1".
Proof.
  assert (Hne : "1.2.3.4:8080" <> EmptyString) by discriminate.
  split; [exact Hne|split; [reflexivity|split]].
  - exact (proj1 (proj2 (proj2 (normalizeProxy_scheme "1.2.3.4:8080")))
                 Hne eq_refl).
  - split; [reflexivity|].
    exact (proj1 (proj2 (normalizeProxy_scheme "HTTPS://x:1")) eq_refl).
Defined.

Lemma run_main_blank_usernames_witness :
  all_space MoreSamples.blank_file = true /\
  exists w,
    run_main Samples.net_by_name Samples.in_order
             (Returned MoreSamples.blank_file) (Thrown Samples.err_aborted)
    = (Returned tt, w) /\
    trace w = [EvOp (ConsoleLog "usernames.txt is empty")] /\
    fetch_calls (trace w) = 0%nat /\
    existsb touches_sink (trace w) = false /\
    accounted w = [].
Proof.
  split; [reflexivity|].
  exact (run_main_blank_usernames Samples.net_by_name Samples.in_order
           MoreSamples.blank_file (Thrown Samples.err_aborted) eq_refl).
Defined.

Lemma rotator_returns_configured_witness :
  0 <= Rotator.i (Rotator.createProxyRotator Samples.two_proxies) /\
  forall p,
    Rotator.current (Rotator.createProxyRotator Samples.two_proxies) = Some p ->
    In p Samples.two_proxies.
Proof.
  assert (Hi : 0 <= Rotator.i (Rotator.createProxyRotator Samples.two_proxies))
    by (simpl; lia).
  split; [exact Hi|].
  exact (proj1 (proj2 (rotator_returns_configured
                         (Rotator.createProxyRotator Samples.two_proxies)
                         Hi))).
Defined.

Lemma rotator_round_robin_witness :
  Samples.two_proxies <> [] /\
  (1 + N.of_nat (List.length Samples.two_proxies) <= 2 ^ 53)%N /\
  (1 < N.of_nat (List.length Samples.two_proxies))%N /\
  Rotator.current
    (Rotator.next_times 1 (Rotator.createProxyRotator Samples.two_proxies))
  = nth_error Samples.two_proxies (N.to_nat 1) /\
  Rotator.current
    (Rotator.next_times (1 + N.of_nat (List.length Samples.two_proxies))
       (Rotator.createProxyRotator Samples.two_proxies))
  = Rotator.current
      (Rotator.next_times 1 (Rotator.createProxyRotator Samples.two_proxies)).
Proof.
  assert (Hne : Samples.two_proxies <> []) by discriminate.
  assert (Hk : (1 + N.of_nat (List.length Samples.two_proxies) <= 2 ^ 53)%N)
    by (vm_compute; discriminate).
  assert (Hlt : (1 < N.of_nat (List.length Samples.two_proxies))%N)
    by reflexivity.
  split; [exact Hne|split; [exact Hk|split; [exact Hlt|]]].
  split.
  - exact (proj1 (rotator_round_robin Samples.two_proxies 1 Hne Hk) Hlt).
  - exact (proj2 (rotator_round_robin Samples.two_proxies 1 Hne Hk)).
Defined.

Lemma isProxyError_markers_witness :
  err_message Samples.err_aborted <> EmptyString /\
  forall other,
    isProxyError Samples.err_aborted
    = isProxyError (mkError (err_message Samples.err_aborted) other).
Proof.
  assert (Hm : err_message Samples.err_aborted <> EmptyString)
    by discriminate.
  split; [exact Hm|].
  exact (proj2 (isProxyError_markers Samples.err_aborted) Hm).
Defined.

Lemma checkUsername_routing_witness :
  0 <= Rotator.i (rotator (init_world Samples.two_proxies)) /\
  exists t,
    trace (snd (exec Samples.net_rate_limited
                     (checkUsername "ratelimited" 4)
                     (init_world Samples.two_proxies)))
    = (trace (init_world Samples.two_proxies) ++ t)%list /\
    Forall (routed "ratelimited"
                   (Rotator.proxies
                      (rotator (init_world Samples.two_proxies)))) t.
Proof.
  assert (Hi : 0 <= Rotator.i (rotator (init_world Samples.two_proxies)))
    by (simpl; lia).
  split; [exact Hi|].
  exact (checkUsername_routing Samples.net_rate_limited "ratelimited" 4
                               (init_world Samples.two_proxies) Hi).
Defined.

Lemma checkUsername_first_final_witness :
  (MIN_LEN <= String.length "ratelimited")%nat /\
  (3 < 4)%nat /\
  (forall j, (j < 3)%nat ->
     retryable (pass_outcome Samples.net_rate_limited "ratelimited" j
                             (init_world Samples.two_proxies)) = true) /\
  retryable (pass_outcome Samples.net_rate_limited "ratelimited" 3
                          (init_world Samples.two_proxies)) = false /\
  exists r,
    exec Samples.net_rate_limited (attempt "ratelimited")
         (pass_world Samples.net_rate_limited "ratelimited" 3
                     (init_world Samples.two_proxies))
    = (Returned (Return r),
       pass_world Samples.net_rate_limited "ratelimited" 4
                  (init_world Samples.two_proxies)) /\
    exec Samples.net_rate_limited (checkUsername "ratelimited" 4)
         (init_world Samples.two_proxies)
    = (Returned r,
       pass_world Samples.net_rate_limited "ratelimited" 4
                  (init_world Samples.two_proxies)) /\
    fetch_calls (trace (pass_world Samples.net_rate_limited "ratelimited" 4
                                   (init_world Samples.two_proxies)))
    = (fetch_calls (trace (init_world Samples.two_proxies)) + 4)%nat.
Proof.
  assert (Hlen : (MIN_LEN <= String.length "ratelimited")%nat)
    by (unfold MIN_LEN; simpl; lia).
  assert (Hk : (3 < 4)%nat) by lia.
  assert (Hretry : forall j, (j < 3)%nat ->
            retryable (pass_outcome Samples.net_rate_limited "ratelimited" j
                                    (init_world Samples.two_proxies)) = true)
    by (intros [|[|[|j]]] Hj; [reflexivity|reflexivity|reflexivity|lia]).
  assert (Hstop : retryable
            (pass_outcome Samples.net_rate_limited "ratelimited" 3
                          (init_world Samples.two_proxies)) = false)
    by reflexivity.
  split; [exact Hlen|split; [exact Hk|split; [exact Hretry|]]].
  split; [exact Hstop|].
  exact (checkUsername_first_final Samples.net_rate_limited "ratelimited"
           4 3 (init_world Samples.two_proxies) Hlen Hk Hretry Hstop).
Defined.

(** Every call answered 429, two proxies: the short name costs no call,
    the long one all [max(3, 4) = 4] of its attempts, and nothing is
    called for a name that is not in the list. *)
Lemma run_call_bound_witness :
  (String.length "ab" < MIN_LEN)%nat /\
  NoDup ["ab"; "ratelimited"] /\
  ~ In "nobody" ["ab"; "ratelimited"] /\
  calls_to "ab"
    (trace (snd (run (Samples.always (Resolved Samples.res_429))
                     Samples.in_order ["ab"; "ratelimited"]
                     Samples.two_proxies))) = 0%nat /\
  (calls_to "ratelimited"
     (trace (snd (run (Samples.always (Resolved Samples.res_429))
                      Samples.in_order ["ab"; "ratelimited"]
                      Samples.two_proxies)))
   <= Nat.max 3 (2 * List.length Samples.two_proxies))%nat /\
  calls_to "ratelimited"
    (trace (snd (run (Samples.always (Resolved Samples.res_429))
                     Samples.in_order ["ab"; "ratelimited"]
                     Samples.two_proxies))) = 4%nat /\
  calls_to "nobody"
    (trace (snd (run (Samples.always (Resolved Samples.res_429))
                     Samples.in_order ["ab"; "ratelimited"]
                     Samples.two_proxies))) = 0%nat.
Proof.
  assert (Hshort : (String.length "ab" < MIN_LEN)%nat)
    by (unfold MIN_LEN; simpl; lia).
  assert (Hnodup : NoDup ["ab"; "ratelimited"]).
  { constructor; [intros [H|[]]; discriminate H|].
    constructor; [intros []|constructor]. }
  assert (Hnotin : ~ In "nobody" ["ab"; "ratelimited"])
    by (intros [H|[H|[]]]; discriminate H).
  destruct (run_call_bound (Samples.always (Resolved Samples.res_429))
                           Samples.in_order ["ab"; "ratelimited"]
                           Samples.two_proxies)
    as [_ [Hzero [Hout [Hone _]]]].
  split; [exact Hshort|split; [exact Hnodup|split; [exact Hnotin|]]].
  split; [exact (Hzero "ab" Hshort)|].
  split; [exact (Hone "ratelimited" Hnodup)|].
  split; [vm_compute; reflexivity|exact (Hout "nobody" Hnotin)].
Defined.

Lemma run_resets_files_first_witness :
  ["ab"; "validname"] <> [] /\
  exists t,
    trace (snd (run Samples.net_by_name Samples.in_order
                    ["ab"; "validname"] []))
    = (reset_events ++ t)%list.
Proof.
  assert (Hne : ["ab"; "validname"] <> []) by discriminate.
  split; [exact Hne|].
  exact (run_resets_files_first Samples.net_by_name Samples.in_order
                                ["ab"; "validname"] [] Hne).
Defined.
